(** * DP3 direction-dependent calibration: stopping rule and BDA interval driver

    A shallow embedding of
    - [SolverBase::ReachedStoppingCriterion] and [SolverBase::Matrix]
      (ddecal/gain_solvers/SolverBase.h),
    - [BdaDdeCal] (steps/BdaDdeCal.cc): constructor, [DetermineChannelBlocks],
      [process], [ExtractResults], [ProcessCompleteDirections],
      [SolveCurrentInterval], [InitializeCurrentSolutions] and the centre
      frequencies of [WriteSolutions],
    followed by the properties established for them.

    Conventions.
    - [size_t] values are integers in [0, 2^64); where the source does
      arithmetic on them the wrap-around is written out ([wrap64]).
    - [double] is Rocq's primitive binary64 float; the frequency
      arithmetic of [DetermineChannelBlocks] and [WriteSolutions] is
      written over a numeric interface whose instance is binary64, and
      what is proved of it holds for the rounded operations.
    - exceptions, failed assertions and undefined behaviour are results of
      an error monad. *)

From Stdlib Require Import ZArith Lia Bool String.
From Stdlib Require PrimFloat SpecFloat FloatOps.
From stdpp Require Import base list.

#[local] Open Scope Z_scope.

(* ===================================================================== *)
(** * Common machinery                                                     *)
(* ===================================================================== *)

(** ** Machine integers *)

Definition size_max : Z := 2 ^ 64.

(** Reduction of an integer result to [size_t]. *)
Definition wrap64 (x : Z) : Z := x mod size_max.

(** ** Doubles *)

Abbreviation double := PrimFloat.float.

(** [a < b] on doubles: false as soon as one side is NaN. *)
Definition dlt (a b : double) : bool := PrimFloat.ltb a b.

(** [std::max(a, b)] is [(a < b) ? b : a]. *)
Definition std_max (a b : double) : double := if dlt a b then b else a.

(** [std::complex<double>]. *)
Record dcomplex : Type := DComplex { re : double; im : double }.

Definition d0 : double := PrimFloat.zero.
Definition d1 : double := PrimFloat.one.
Definition d_half : double := PrimFloat.div PrimFloat.one PrimFloat.two.

(** Conversion of an integer to the nearest double. *)
Definition double_of_Z (z : Z) : double :=
  FloatOps.SF2Prim
    (SpecFloat.binary_normalize FloatOps.prec FloatOps.emax z 0 false).

(** Implicit conversion of a real constant to [std::complex<double>]. *)
Definition of_real (x : double) : dcomplex := DComplex x d0.

(** ** The arithmetic a function needs from its number type *)

Class Arith (F : Type) : Type := MkArith {
  f_add : F -> F -> F;
  f_sub : F -> F -> F;
  f_mul : F -> F -> F;
  f_div : F -> F -> F;
  f_of_Z : Z -> F
}.

(** IEEE 754 binary64, round to nearest even. *)
#[export] Instance Arith_double : Arith double :=
  MkArith double PrimFloat.add PrimFloat.sub PrimFloat.mul PrimFloat.div
    double_of_Z.

(** ** Outcomes of a call *)

Inductive failure : Type :=
| InvalidArgument (what : string)
| RuntimeError (what : string)
| AssertionFailed
| Undefined
| OutOfFuel.

Inductive outcome (A : Type) : Type :=
| Ok (a : A)
| Fail (e : failure).
Arguments Ok {A} a.
Arguments Fail {A} e.

#[export] Instance outcome_ret : MRet outcome := @Ok.

#[export] Instance outcome_bind : MBind outcome := fun A B k m =>
  match m with
  | Ok a => k a
  | Fail e => Fail e
  end.

(** [assert(c)]: checked unless the build defines [NDEBUG]. *)
Definition assert (ndebug : bool) (c : bool) : outcome unit :=
  if ndebug then Ok tt else if c then Ok tt else Fail AssertionFailed.

(** Result of dereferencing something that has to be there. *)
Definition defined {A} (o : option A) : outcome A :=
  match o with
  | Some a => Ok a
  | None => Fail Undefined
  end.

(* ===================================================================== *)
(** * Data exchanged with the solver                                       *)
(* ===================================================================== *)

Module Constraint.

(** [Constraint::Result] (ddecal/constraints/Constraint.h). The interval
    driver reads and writes [weights] only. *)
Record Result : Type := MkResult {
  vals : list double;
  weights : list double;
  axes : string;
  dims : list Z;
  name : string
}.

Definition set_weights (r : Result) (w : list double) : Result :=
  MkResult (vals r) w (axes r) (dims r) (name r).

End Constraint.

(** [std::complex<float>]: IEEE 754 binary32 parts. *)
Definition float32 : Type := SpecFloat.spec_float.

Definition float32_add : float32 -> float32 -> float32 :=
  SpecFloat.SFadd 24 128.

Record fcomplex : Type := FComplex { fre : float32; fim : float32 }.

Definition fcomplex_add (a b : fcomplex) : fcomplex :=
  FComplex (float32_add (fre a) (fre b)) (float32_add (fim a) (fim b)).

Module BDABuffer.

(** A [base::BDABuffer] that holds visibilities: the [data] array and the
    rest of the buffer (rows, weights, flags), which the driver passes
    on untouched. *)
Record t (Meta : Type) : Type := Make {
  data : list fcomplex;
  meta : Meta
}.
Arguments Make {Meta} data meta.
Arguments data {Meta} _.
Arguments meta {Meta} _.

Definition GetNumberOfElements {Meta} (b : t Meta) : nat := length (data b).

Definition set_data {Meta} (b : t Meta) (d : list fcomplex) : t Meta :=
  Make d (meta b).

End BDABuffer.

(* ===================================================================== *)
(** * SolverBase                                                           *)
(* ===================================================================== *)

Module SolverBase.

(** The calibration setup fields of [SolverBase] that the embedded
    functions read. *)
Record t : Type := Make {
  min_iterations_ : Z;
  max_iterations_ : Z;
  n_threads_ : Z;
  accuracy_ : double;
  constraint_accuracy_ : double;
  step_size_ : double;
  detect_stalling_ : bool;
  phase_only_ : bool
}.

Record SolveResult : Type := MkSolveResult {
  iterations : Z;
  constraint_iterations : Z;
  results : list (list Constraint.Result)
}.

Definition GetMaxIterations (s : t) : Z := max_iterations_ s.
Definition GetMinIterations (s : t) : Z := min_iterations_ s.
Definition GetDetectStalling (s : t) : bool := detect_stalling_ s.

Definition SetNThreads (s : t) (n_threads : Z) : t :=
  Make (min_iterations_ s) (max_iterations_ s) n_threads (accuracy_ s)
       (constraint_accuracy_ s) (step_size_ s) (detect_stalling_ s)
       (phase_only_ s).

(** One evaluation of [DetectStall], with its arguments. *)
Record stall_call : Type := StallCall {
  call_iteration : Z;
  call_step_magnitudes : list double
}.

(** A value together with the [DetectStall] evaluations made to get it. *)
Definition traced (A : Type) : Type := (A * list stall_call)%type.

Definition ret {A} (a : A) : traced A := (a, []).

Definition bind {A B} (m : traced A) (k : A -> traced B) : traced B :=
  let r := k (fst m) in (fst r, snd m ++ snd r).

Section StoppingCriterion.

(** [DetectStall] is only declared in SolverBase.h; its body is a
    parameter of the development. *)
Variable DetectStall : t -> Z -> list double -> bool.

Definition call_DetectStall (s : t) (iteration : Z)
    (step_magnitudes : list double) : traced bool :=
  (DetectStall s iteration step_magnitudes,
   [StallCall iteration step_magnitudes]).

(** The local [has_stalled] of [ReachedStoppingCriterion]. *)
Definition has_stalled (s : t) (iteration : Z)
    (constraints_satisfied : bool) (step_magnitudes : list double)
    : traced bool :=
  if detect_stalling_ s && constraints_satisfied
  then call_DetectStall s iteration step_magnitudes
  else ret false.

Definition ReachedStoppingCriterion_traced (s : t) (iteration : Z)
    (has_converged constraints_satisfied : bool)
    (step_magnitudes : list double) : traced bool :=
  bind (has_stalled s iteration constraints_satisfied step_magnitudes)
    (fun stalled =>
       let is_ready :=
         (max_iterations_ s <=? iteration)
         || (has_converged && constraints_satisfied)
         || stalled in
       ret ((min_iterations_ s <=? iteration) && is_ready)).

Definition ReachedStoppingCriterion (s : t) (iteration : Z)
    (has_converged constraints_satisfied : bool)
    (step_magnitudes : list double) : bool :=
  fst (ReachedStoppingCriterion_traced s iteration has_converged
         constraints_satisfied step_magnitudes).

End StoppingCriterion.

End SolverBase.

(* ===================================================================== *)
(** * BdaDdeCal: channel blocks                                            *)
(* ===================================================================== *)

Module Partitioner.

Section Generic.

Context {F : Type} `{Arith F}.

(** The number of channel blocks chosen at the top of
    [DetermineChannelBlocks]; [n_channels] is the setting (0 when unset). *)
Definition n_channel_blocks_for (n_channels nchan : Z) : Z :=
  if 0 <? n_channels then Z.max (nchan / n_channels) 1 else 1.

(** The [for] loop over [ch_block]; [todo] is the number of rounds that
    remain, [n_channel_blocks - ch_block]. *)
Fixpoint block_loop (todo : nat) (ch_block nchan n_channel_blocks : Z)
    (chan_width : F) (start_index : Z) (start_freq : F)
    (chan_block_start_freqs : list F) : list F :=
  match todo with
  | O => chan_block_start_freqs
  | S todo' =>
      let next_index :=
        wrap64 (wrap64 (ch_block + 1) * nchan) / n_channel_blocks in
      let block_size := wrap64 (next_index - start_index) in
      let next_freq :=
        f_add start_freq (f_mul (f_of_Z block_size) chan_width) in
      block_loop todo' (wrap64 (ch_block + 1)) nchan n_channel_blocks
        chan_width next_index next_freq
        (chan_block_start_freqs ++ [next_freq])
  end.

Definition min_freq_of (freq_front width_front : F) : F :=
  f_sub freq_front (f_div width_front (f_of_Z 2)).

Definition max_freq_of (freq_back width_back : F) : F :=
  f_add freq_back (f_div width_back (f_of_Z 2)).

(** [BdaDdeCal::DetermineChannelBlocks]: the new value of
    [chan_block_start_freqs_], from the setting [n_channels],
    [info().nchan()], [info().chanFreqs(0)] and [info().chanWidths(0)].
    [front()] and [back()] of an empty vector are undefined. *)
Definition DetermineChannelBlocks (n_channels nchan : Z)
    (chanFreqs0 chanWidths0 : list F) : outcome (list F) :=
  let n_channel_blocks := n_channel_blocks_for n_channels nchan in
  freq_front ← defined (head chanFreqs0);
  width_front ← defined (head chanWidths0);
  freq_back ← defined (last chanFreqs0);
  width_back ← defined (last chanWidths0);
  let min_freq := min_freq_of freq_front width_front in
  let max_freq := max_freq_of freq_back width_back in
  let chan_width := f_div (f_sub max_freq min_freq) (f_of_Z nchan) in
  Ok (block_loop (Z.to_nat n_channel_blocks) 0 nchan n_channel_blocks
        chan_width 0 min_freq [min_freq]).

(** ** What the specification describes

    The boundary after block [b] placed where the widths of the channels
    of blocks [0..b] end: the widths are added up, one channel after the
    other, from the lower edge of the band. *)

Definition block_end (nchan n_channel_blocks : Z) (b : nat) : nat :=
  Z.to_nat ((Z.of_nat b + 1) * nchan / n_channel_blocks).

Definition cumulative_boundaries (n_channels nchan : Z)
    (min_freq : F) (widths : list F) : list F :=
  let n_channel_blocks := n_channel_blocks_for n_channels nchan in
  min_freq ::
    map (fun b =>
           foldl f_add min_freq
             (take (block_end nchan n_channel_blocks b) widths))
        (seq 0 (Z.to_nat n_channel_blocks)).

End Generic.

(** ** Vocabulary of the properties *)

(** The channel at which block [k] starts and block [k - 1] ends: the
    value of [next_index] after [k] rounds of the loop. *)
Definition channel_index (nchan n_channel_blocks k : Z) : Z :=
  k * nchan / n_channel_blocks.

(** Channels that tile the band: every channel starts where the one
    before it ends. *)
Fixpoint contiguous (freqs widths : list double) : bool :=
  match freqs, widths with
  | f1 :: ((f2 :: _) as freqs'), w1 :: ((w2 :: _) as widths') =>
      PrimFloat.eqb (PrimFloat.add f1 (PrimFloat.div w1 (double_of_Z 2)))
        (PrimFloat.sub f2 (PrimFloat.div w2 (double_of_Z 2)))
      && contiguous freqs' widths'
  | _, _ => true
  end.

End Partitioner.

(* ===================================================================== *)
(** * BdaDdeCal: the step                                                  *)
(* ===================================================================== *)

Module BdaDdeCal.

(** The fields of [ddecal::Settings] that the embedded functions read. *)
Record Settings : Type := MkSettings {
  name : string;
  directions : list string;
  only_predict : bool;
  h5parm_name : string;
  n_channels : Z;
  solution_interval : Z;
  subtract : bool;
  flag_unconverged : bool;
  flag_diverged_only : bool;
  propagate_solutions : bool;
  propagate_converged_only : bool
}.

(** What the embedded functions read of [base::DPInfo]. *)
Record DPInfo : Type := MkDPInfo {
  nchan : Z;
  chanFreqs0 : list double;
  chanWidths0 : list double;
  BdaChanFreqs : list (list double);
  startTime : double;
  antennaUsed_size : Z
}.

Definition default_info : DPInfo := MkDPInfo 0 [] [] [] d0 0.

(** The collaborators of the step whose code is outside the embedded
    files: parameter parsing, the predict sub-steps, the solver behind
    [ddecal::SolverBase] and the solver buffer. [NDEBUG] tells whether
    the build drops assertions. *)
Class Externals : Type := MkExternals {
  NDEBUG : bool;
  ParameterSet : Type;
  InputStep : Type;
  BdaPredict : Type;
  BufferMeta : Type;
  constraint : Type;
  Solver : Type;
  BdaSolverBuffer : Type;
  SolveData : Type;
  SolutionWriter : Type;
  new_Settings : ParameterSet -> string -> outcome Settings;
  getStringVector : string -> outcome (list string);
  new_BdaPredict :
    InputStep -> ParameterSet -> string -> list string -> outcome BdaPredict;
  CreateBdaSolver : Settings -> ParameterSet -> string -> outcome Solver;
  new_SolutionWriter : string -> outcome SolutionWriter;
  base : Solver -> SolverBase.t;
  ConstraintSolvers : Solver -> list Solver;
  GetConstraints : Solver -> list constraint;
  NSolutionPolarizations : Solver -> Z;
  Solve :
    Solver -> SolveData -> list (list dcomplex) -> double ->
    outcome (SolverBase.SolveResult * list (list dcomplex));
  new_SolveData :
    BdaSolverBuffer -> Z -> Z -> Z -> list Z -> list Z -> SolveData;
  GetCurrentInterval : BdaSolverBuffer -> Z;
  SubtractCorrectedModel :
    BdaSolverBuffer -> list (list dcomplex) -> list double -> Z ->
    list Z -> list Z -> list (list double) -> BdaSolverBuffer;
  AppendAndWeight :
    BdaSolverBuffer -> option (BDABuffer.t BufferMeta) ->
    list (option (BDABuffer.t BufferMeta)) -> BdaSolverBuffer;
  IntervalIsComplete : BdaSolverBuffer -> bool;
  AdvanceInterval : BdaSolverBuffer -> BdaSolverBuffer;
  GetDone : BdaSolverBuffer -> list (BDABuffer.t BufferMeta) * BdaSolverBuffer
}.

Section Step.

Context `{E : Externals}.

Abbreviation buffer := (BDABuffer.t BufferMeta).

(** What the step does to its surroundings, in order: buffers handed to
    [getNextStep()->process], calls of [Solve], buffers appended to the
    solver buffer. *)
Inductive event : Type :=
| NextStepProcess (b : buffer)
| SolverSolve (time : double)
| SolverBufferAppend.

(** The members of [BdaDdeCal], the [DPInfo] of its [Step] base, and the
    events so far. A [BDAResultStep] is the queue of buffers it holds. *)
Record t : Type := Make {
  settings_ : Settings;
  solution_writer_ : option SolutionWriter;
  steps_ : list BdaPredict;
  result_steps_ : list (list buffer);
  patches_ : list (list string);
  data_buffers_ : list (option buffer);
  model_buffers_ : list (list (option buffer));
  solver_buffer_ : option BdaSolverBuffer;
  solver_ : option Solver;
  solution_interval_ : double;
  chan_block_start_freqs_ : list double;
  antennas1_ : list Z;
  antennas2_ : list Z;
  solutions_ : list (list (list dcomplex));
  iterations_ : list Z;
  approx_iterations_ : list Z;
  constraint_solutions_ : list (list (list Constraint.Result));
  info_ : DPInfo;
  events_ : list event
}.

Definition set_solution_writer (st : t) (v : option SolutionWriter) : t :=
  Make (settings_ st) v (steps_ st) (result_steps_ st) (patches_ st)
    (data_buffers_ st) (model_buffers_ st) (solver_buffer_ st) (solver_ st)
    (solution_interval_ st) (chan_block_start_freqs_ st) (antennas1_ st)
    (antennas2_ st) (solutions_ st) (iterations_ st) (approx_iterations_ st)
    (constraint_solutions_ st) (info_ st) (events_ st).

Definition set_steps (st : t) (v : list BdaPredict) : t :=
  Make (settings_ st) (solution_writer_ st) v (result_steps_ st)
    (patches_ st) (data_buffers_ st) (model_buffers_ st) (solver_buffer_ st)
    (solver_ st) (solution_interval_ st) (chan_block_start_freqs_ st)
    (antennas1_ st) (antennas2_ st) (solutions_ st) (iterations_ st)
    (approx_iterations_ st) (constraint_solutions_ st) (info_ st)
    (events_ st).

Definition set_result_steps (st : t) (v : list (list buffer)) : t :=
  Make (settings_ st) (solution_writer_ st) (steps_ st) v (patches_ st)
    (data_buffers_ st) (model_buffers_ st) (solver_buffer_ st) (solver_ st)
    (solution_interval_ st) (chan_block_start_freqs_ st) (antennas1_ st)
    (antennas2_ st) (solutions_ st) (iterations_ st) (approx_iterations_ st)
    (constraint_solutions_ st) (info_ st) (events_ st).

Definition set_patches (st : t) (v : list (list string)) : t :=
  Make (settings_ st) (solution_writer_ st) (steps_ st) (result_steps_ st) v
    (data_buffers_ st) (model_buffers_ st) (solver_buffer_ st) (solver_ st)
    (solution_interval_ st) (chan_block_start_freqs_ st) (antennas1_ st)
    (antennas2_ st) (solutions_ st) (iterations_ st) (approx_iterations_ st)
    (constraint_solutions_ st) (info_ st) (events_ st).

Definition set_data_buffers (st : t) (v : list (option buffer)) : t :=
  Make (settings_ st) (solution_writer_ st) (steps_ st) (result_steps_ st)
    (patches_ st) v (model_buffers_ st) (solver_buffer_ st) (solver_ st)
    (solution_interval_ st) (chan_block_start_freqs_ st) (antennas1_ st)
    (antennas2_ st) (solutions_ st) (iterations_ st) (approx_iterations_ st)
    (constraint_solutions_ st) (info_ st) (events_ st).

Definition set_model_buffers (st : t) (v : list (list (option buffer))) : t :=
  Make (settings_ st) (solution_writer_ st) (steps_ st) (result_steps_ st)
    (patches_ st) (data_buffers_ st) v (solver_buffer_ st) (solver_ st)
    (solution_interval_ st) (chan_block_start_freqs_ st) (antennas1_ st)
    (antennas2_ st) (solutions_ st) (iterations_ st) (approx_iterations_ st)
    (constraint_solutions_ st) (info_ st) (events_ st).

Definition set_solver_buffer (st : t) (v : option BdaSolverBuffer) : t :=
  Make (settings_ st) (solution_writer_ st) (steps_ st) (result_steps_ st)
    (patches_ st) (data_buffers_ st) (model_buffers_ st) v (solver_ st)
    (solution_interval_ st) (chan_block_start_freqs_ st) (antennas1_ st)
    (antennas2_ st) (solutions_ st) (iterations_ st) (approx_iterations_ st)
    (constraint_solutions_ st) (info_ st) (events_ st).

Definition set_solver (st : t) (v : option Solver) : t :=
  Make (settings_ st) (solution_writer_ st) (steps_ st) (result_steps_ st)
    (patches_ st) (data_buffers_ st) (model_buffers_ st) (solver_buffer_ st)
    v (solution_interval_ st) (chan_block_start_freqs_ st) (antennas1_ st)
    (antennas2_ st) (solutions_ st) (iterations_ st) (approx_iterations_ st)
    (constraint_solutions_ st) (info_ st) (events_ st).

Definition set_solutions (st : t) (v : list (list (list dcomplex))) : t :=
  Make (settings_ st) (solution_writer_ st) (steps_ st) (result_steps_ st)
    (patches_ st) (data_buffers_ st) (model_buffers_ st) (solver_buffer_ st)
    (solver_ st) (solution_interval_ st) (chan_block_start_freqs_ st)
    (antennas1_ st) (antennas2_ st) v (iterations_ st)
    (approx_iterations_ st) (constraint_solutions_ st) (info_ st)
    (events_ st).

Definition set_iterations (st : t) (v : list Z) : t :=
  Make (settings_ st) (solution_writer_ st) (steps_ st) (result_steps_ st)
    (patches_ st) (data_buffers_ st) (model_buffers_ st) (solver_buffer_ st)
    (solver_ st) (solution_interval_ st) (chan_block_start_freqs_ st)
    (antennas1_ st) (antennas2_ st) (solutions_ st) v
    (approx_iterations_ st) (constraint_solutions_ st) (info_ st)
    (events_ st).

Definition set_approx_iterations (st : t) (v : list Z) : t :=
  Make (settings_ st) (solution_writer_ st) (steps_ st) (result_steps_ st)
    (patches_ st) (data_buffers_ st) (model_buffers_ st) (solver_buffer_ st)
    (solver_ st) (solution_interval_ st) (chan_block_start_freqs_ st)
    (antennas1_ st) (antennas2_ st) (solutions_ st) (iterations_ st) v
    (constraint_solutions_ st) (info_ st) (events_ st).

Definition set_constraint_solutions (st : t) (v : list (list (list Constraint.Result))) : t :=
  Make (settings_ st) (solution_writer_ st) (steps_ st) (result_steps_ st)
    (patches_ st) (data_buffers_ st) (model_buffers_ st) (solver_buffer_ st)
    (solver_ st) (solution_interval_ st) (chan_block_start_freqs_ st)
    (antennas1_ st) (antennas2_ st) (solutions_ st) (iterations_ st)
    (approx_iterations_ st) v (info_ st) (events_ st).

Definition set_events (st : t) (v : list event) : t :=
  Make (settings_ st) (solution_writer_ st) (steps_ st) (result_steps_ st)
    (patches_ st) (data_buffers_ st) (model_buffers_ st) (solver_buffer_ st)
    (solver_ st) (solution_interval_ st) (chan_block_start_freqs_ st)
    (antennas1_ st) (antennas2_ st) (solutions_ st) (iterations_ st)
    (approx_iterations_ st) (constraint_solutions_ st) (info_ st) v.

Definition add_event (st : t) (e : event) : t :=
  set_events st (events_ st ++ [e]).

(** ** Constructor *)

Fixpoint InitializePredictSteps (input : InputStep) (parset : ParameterSet)
    (prefix : string) (dirs : list string) (st : t) : outcome t :=
  match dirs with
  | [] => Ok st
  | direction :: rest =>
      source_patterns ← getStringVector direction;
      step ← new_BdaPredict input parset prefix source_patterns;
      let st := set_steps st (steps_ st ++ [step]) in
      let st := set_result_steps st (result_steps_ st ++ [[]]) in
      patch ← getStringVector direction;
      let st := set_patches st (patches_ st ++ [patch]) in
      InitializePredictSteps input parset prefix rest st
  end.

(** The loop over [solver_->ConstraintSolvers()]. *)
Fixpoint check_constraint_solvers (solvers : list Solver) : outcome unit :=
  match solvers with
  | [] => Ok tt
  | constraint_solver :: rest =>
      match GetConstraints constraint_solver with
      | [] => check_constraint_solvers rest
      | _ :: _ =>
          Fail (RuntimeError
                  "BDA Solver constraints are not implemented in BdaDdeCal. Use a solver without constraints (scalar or diagonal).")
      end
  end.

(** The members as the initialiser list of the constructor leaves them. *)
Definition empty_state (settings : Settings) : t :=
  Make settings None [] [] [] [] [] None None d0 [] [] [] [] [] [] []
    default_info [].

(** [BdaDdeCal::BdaDdeCal]. *)
Definition construct (input : InputStep) (parset : ParameterSet)
    (prefix : string) : outcome t :=
  settings ← new_Settings parset prefix;
  let st := empty_state settings in
  match directions settings with
  | [] =>
      Fail (InvalidArgument
              "Invalid info in input parset: direction(s) must be specified")
  | _ :: _ =>
      st ← InitializePredictSteps input parset prefix (directions settings) st;
      if negb (only_predict settings) then
        solver ← CreateBdaSolver settings parset prefix;
        let st := set_solver st (Some solver) in
        check_constraint_solvers (ConstraintSolvers solver);;
        writer ← new_SolutionWriter (h5parm_name settings);
        Ok (set_solution_writer st (Some writer))
      else Ok st
  end.

(** ** InitializeCurrentSolutions *)

(** The test on an iteration count by which the driver recognises an
    unconverged solve: [iterations > solver_->GetMaxIterations()]. *)
Definition exceeds_max_iterations (solver : Solver) (iterations : Z) : bool :=
  SolverBase.GetMaxIterations (base solver) <? iterations.

(** [v[i] = x]; writing past the end is undefined. *)
Definition store {A} (i : nat) (x : A) (v : list A) : outcome (list A) :=
  if decide (i < length v)%nat then Ok (<[i := x]> v) else Fail Undefined.

(** [std::copy(src.begin(), src.end(), dst.begin())]. *)
Definition std_copy {A} (src dst : list A) : outcome (list A) :=
  if decide (length src <= length dst)%nat
  then Ok (src ++ drop (length src) dst)
  else Fail Undefined.

(** The loop over [block] in the propagating branch. *)
Fixpoint copy_blocks (current_solution prev_solution : list (list dcomplex))
    : outcome (list (list dcomplex)) :=
  match current_solution with
  | [] => Ok []
  | current_block :: current_rest =>
      match prev_solution with
      | [] => Fail Undefined
      | prev_block :: prev_rest =>
          assert NDEBUG (length current_block =? length prev_block)%nat;;
          block ← std_copy prev_block current_block;
          rest ← copy_blocks current_rest prev_rest;
          Ok (block :: rest)
      end
  end.

(** [for (i = 0; i < current_block.size(); i += 4)]; [todo] bounds the
    number of rounds and is set to the block size by the caller. *)
Fixpoint unity_loop (todo i : nat) (current_block : list dcomplex)
    : outcome (list dcomplex) :=
  match todo with
  | O => Ok current_block
  | S todo' =>
      if decide (i < length current_block)%nat then
        b ← store (i + 0) (of_real d1) current_block;
        b ← store (i + 1) (of_real d0) b;
        b ← store (i + 2) (of_real d0) b;
        b ← store (i + 3) (of_real d1) b;
        unity_loop todo' (i + 4) b
      else Ok current_block
  end.

Fixpoint unity_blocks (current_solution : list (list dcomplex))
    : outcome (list (list dcomplex)) :=
  match current_solution with
  | [] => Ok []
  | current_block :: rest =>
      block ← unity_loop (length current_block) 0 current_block;
      rest ← unity_blocks rest;
      Ok (block :: rest)
  end.

Definition fill_blocks (current_solution : list (list dcomplex))
    : list (list dcomplex) :=
  map (fun block_solution => replicate (length block_solution) (of_real d1))
      current_solution.

Definition InitializeCurrentSolutions (st : t) : outcome t :=
  current_solution ← defined (last (solutions_ st));
  let size := length (solutions_ st) in
  let propagate :=
    (1 <? size)%nat && propagate_solutions (settings_ st) in
  propagate ←
    (if propagate && propagate_converged_only (settings_ st) then
       previous_iterations ← defined (iterations_ st !! (size - 2)%nat);
       solver ← defined (solver_ st);
       Ok (negb (exceeds_max_iterations solver previous_iterations))
     else Ok propagate);
  current_solution ←
    (if propagate : bool then
       prev_solution ← defined (solutions_ st !! (size - 2)%nat);
       assert NDEBUG (length current_solution =? length prev_solution)%nat;;
       copy_blocks current_solution prev_solution
     else
       solver ← defined (solver_ st);
       if NSolutionPolarizations solver =? 4
       then unity_blocks current_solution
       else Ok (fill_blocks current_solution));
  Ok (set_solutions st (<[pred size := current_solution]> (solutions_ st))).

(** ** SolveCurrentInterval *)

(** Conversion of a [size_t] to [int]. *)
Definition int_of_size_t (x : Z) : Z :=
  let y := x mod 2 ^ 32 in if y <? 2 ^ 31 then y else y - 2 ^ 32.

(** The three nested range-[for] loops over the weights of a result. *)
Definition map_weights (f : list double -> list double)
    (results : list (list Constraint.Result)) : list (list Constraint.Result) :=
  map (map (fun constraint_result =>
              Constraint.set_weights constraint_result
                (f (Constraint.weights constraint_result))))
      results.

(** The check for nonconvergence and the flagging that follows it. *)
Definition flag_weights (settings : Settings) (solver : Solver)
    (result : SolverBase.SolveResult) : list (list Constraint.Result) :=
  if flag_unconverged settings
     && exceeds_max_iterations solver (SolverBase.iterations result)
  then
    if flag_diverged_only settings
    then map_weights (map (fun weight => std_max weight d0))
           (SolverBase.results result)
    else map_weights (fun weights => replicate (length weights) d0)
           (SolverBase.results result)
  else
    map_weights (map (fun weight => if dlt weight d0 then d1 else weight))
      (SolverBase.results result).

Definition is_empty {A} (v : list A) : bool :=
  match v with
  | [] => true
  | _ :: _ => false
  end.

Definition SolveCurrentInterval (st : t) : outcome t :=
  solver ← defined (solver_ st);
  solver_buffer ← defined (solver_buffer_ st);
  let n_channel_blocks :=
    wrap64 (Z.of_nat (length (chan_block_start_freqs_ st)) - 1) in
  let n_antennas := antennaUsed_size (info_ st) in
  let n_directions := Z.of_nat (length (directions (settings_ st))) in
  let data :=
    new_SolveData solver_buffer n_channel_blocks n_directions n_antennas
      (antennas1_ st) (antennas2_ st) in
  let current_interval :=
    int_of_size_t (Z.of_nat (length (solutions_ st))) in
  assert NDEBUG (current_interval =? GetCurrentInterval solver_buffer);;
  let current_center :=
    PrimFloat.add (startTime (info_ st))
      (PrimFloat.mul (PrimFloat.add (double_of_Z current_interval) d_half)
         (solution_interval_ st)) in
  let block_solution_size :=
    wrap64 (wrap64 (n_directions * n_antennas)
            * NSolutionPolarizations solver) in
  let st :=
    set_solutions st
      (solutions_ st
       ++ [replicate (Z.to_nat n_channel_blocks)
             (replicate (Z.to_nat block_solution_size) (of_real d1))]) in
  st ← InitializeCurrentSolutions st;
  initial ← defined (last (solutions_ st));
  '(result, solved) ← Solve solver data initial current_center;
  let st :=
    set_solutions st
      (<[pred (length (solutions_ st)) := solved]> (solutions_ st)) in
  let st := add_event st (SolverSolve current_center) in
  assert NDEBUG
    (length (iterations_ st) =? length (solutions_ st) - 1)%nat;;
  assert NDEBUG
    (length (approx_iterations_ st) =? length (solutions_ st) - 1)%nat;;
  let st :=
    set_iterations st (iterations_ st ++ [SolverBase.iterations result]) in
  let st :=
    set_approx_iterations st
      (approx_iterations_ st ++ [SolverBase.constraint_iterations result]) in
  let st :=
    if subtract (settings_ st) then
      set_solver_buffer st
        (Some (SubtractCorrectedModel solver_buffer solved
                 (chan_block_start_freqs_ st) (NSolutionPolarizations solver)
                 (antennas1_ st) (antennas2_ st) (BdaChanFreqs (info_ st))))
    else st in
  let results := flag_weights (settings_ st) solver result in
  let st :=
    set_constraint_solutions st
      (constraint_solutions_ st
       ++ [if existsb (fun constraint_results =>
                         negb (is_empty constraint_results)) results
           then results else []]) in
  assert NDEBUG
    (length (solutions_ st) =? length (constraint_solutions_ st))%nat;;
  Ok st.

(** ** ProcessCompleteDirections *)

Definition pointer_is_set {A} (pointer : option A) : bool :=
  match pointer with
  | Some _ => true
  | None => false
  end.

(** [for (j = 0; j < data_size; ++j) data[j] += other_data[j]], with
    [todo] rounds to go. *)
Fixpoint add_loop (todo j : nat) (data other_data : list fcomplex)
    : outcome (list fcomplex) :=
  match todo with
  | O => Ok data
  | S todo' =>
      x ← defined (data !! j);
      y ← defined (other_data !! j);
      add_loop todo' (S j) (<[j := fcomplex_add x y]> data) other_data
  end.

(** The loop over [dir], from 1 on. *)
Fixpoint add_directions (data : list fcomplex) (data_size : nat)
    (others : list (option buffer)) : outcome (list fcomplex) :=
  match others with
  | [] => Ok data
  | pointer :: rest =>
      other ← defined pointer;
      assert NDEBUG (BDABuffer.GetNumberOfElements other =? data_size)%nat;;
      data ← add_loop data_size 0 data (BDABuffer.data other);
      add_directions data data_size rest
  end.

(** The [only_predict] branch for one complete front. *)
Definition predict_front (direction_buffers : list (option buffer)) (st : t)
    : outcome t :=
  match direction_buffers with
  | [] => Fail Undefined
  | pointer :: others =>
      front ← defined pointer;
      let data_size := BDABuffer.GetNumberOfElements front in
      data ← add_directions (BDABuffer.data front) data_size others;
      Ok (add_event st (NextStepProcess (BDABuffer.set_data front data)))
  end.

(** The solving branch for one complete front. *)
Definition append_front (direction_buffers : list (option buffer)) (st : t)
    : outcome t :=
  assert NDEBUG
    (match data_buffers_ st with
     | Some _ :: _ => true
     | _ => false
     end);;
  solver_buffer ← defined (solver_buffer_ st);
  match data_buffers_ st with
  | [] => Fail Undefined
  | data_buffer :: rest =>
      let st :=
        set_solver_buffer st
          (Some (AppendAndWeight solver_buffer data_buffer direction_buffers)) in
      Ok (add_event (set_data_buffers st rest) SolverBufferAppend)
  end.

(** The first [while] loop, over the queue [model_buffers_]. *)
Fixpoint complete_loop (model_buffers : list (list (option buffer))) (st : t)
    : outcome t :=
  match model_buffers with
  | [] => Ok st
  | direction_buffers :: rest =>
      if forallb pointer_is_set direction_buffers then
        st ← (if only_predict (settings_ st)
              then predict_front direction_buffers st
              else append_front direction_buffers st);
        complete_loop rest (set_model_buffers st rest)
      else Ok st
  end.

(** [while (solver_buffer_->IntervalIsComplete())]: the loop ends when the
    solver buffer says so, hence the bound on the rounds. *)
Fixpoint solve_loop (fuel : nat) (st : t) : outcome t :=
  match fuel with
  | O => Fail OutOfFuel
  | S fuel' =>
      solver_buffer ← defined (solver_buffer_ st);
      if IntervalIsComplete solver_buffer then
        st ← SolveCurrentInterval st;
        solver_buffer ← defined (solver_buffer_ st);
        solve_loop fuel'
          (set_solver_buffer st (Some (AdvanceInterval solver_buffer)))
      else Ok st
  end.

Definition forward_done (st : t) : outcome t :=
  solver_buffer ← defined (solver_buffer_ st);
  let done := GetDone solver_buffer in
  Ok (fold_left (fun st done_buffer => add_event st (NextStepProcess done_buffer))
        (fst done) (set_solver_buffer st (Some (snd done)))).

Definition ProcessCompleteDirections (fuel : nat) (st : t) : outcome t :=
  st ← complete_loop (model_buffers_ st) st;
  if negb (only_predict (settings_ st)) then
    st ← solve_loop fuel st;
    forward_done st
  else Ok st.

(** ** Vocabulary of the properties *)

(** The members that the embedded functions other than
    [SolveCurrentInterval] never write. *)
Definition same_bookkeeping (st st' : t) : Prop :=
  solutions_ st' = solutions_ st
  /\ iterations_ st' = iterations_ st
  /\ approx_iterations_ st' = approx_iterations_ st
  /\ constraint_solutions_ st' = constraint_solutions_ st.

(** What [InitializePredictSteps] leaves alone. *)
Definition only_steps_differ (st st' : t) : Prop :=
  settings_ st' = settings_ st
  /\ solver_ st' = solver_ st
  /\ solver_buffer_ st' = solver_buffer_ st
  /\ data_buffers_ st' = data_buffers_ st
  /\ model_buffers_ st' = model_buffers_ st
  /\ events_ st' = events_ st
  /\ same_bookkeeping st st'.

(** The four per-interval vectors have one entry per solved interval. *)
Definition lockstep (st : t) (n : nat) : Prop :=
  length (solutions_ st) = n
  /\ length (iterations_ st) = n
  /\ length (approx_iterations_ st) = n
  /\ length (constraint_solutions_ st) = n.

(** States of a step after construction, with the number of completed
    [SolveCurrentInterval] calls; in between, the other member functions
    leave the per-interval vectors alone. *)
Inductive reachable : t -> nat -> Prop :=
| reach_construct input parset prefix st :
    construct input parset prefix = Ok st -> reachable st 0
| reach_other st st' n :
    reachable st n -> same_bookkeeping st st' -> reachable st' n
| reach_solve st st' n :
    reachable st n -> SolveCurrentInterval st = Ok st' ->
    reachable st' (S n).

(** Two results that differ in their weights at most, the weights being
    related entry by entry. *)
Definition weights_related (P : double -> double -> Prop)
    (before after : list (list Constraint.Result)) : Prop :=
  Forall2
    (Forall2 (fun r r' =>
                Constraint.vals r' = Constraint.vals r
                /\ Constraint.axes r' = Constraint.axes r
                /\ Constraint.dims r' = Constraint.dims r
                /\ Constraint.name r' = Constraint.name r
                /\ Forall2 P (Constraint.weights r) (Constraint.weights r')))
    before after.

(** A weight that marks a diverged solution. *)
Definition negative (w : double) : Prop := dlt w d0 = true.

(** [k] 2x2 unit matrices, one after the other. *)
Definition unit_matrices (k : nat) : list dcomplex :=
  mjoin (replicate k [of_real d1; of_real d0; of_real d0; of_real d1]).

(** A block of four-polarization solutions. *)
Definition whole_matrices (block : list dcomplex) : Prop :=
  exists k, length block = (4 * k)%nat.

(** The neutral start of a block: unit matrices for four polarizations,
    ones otherwise. *)
Definition neutral_block (n_pol : Z) (size : nat) (block : list dcomplex)
    : Prop :=
  length block = size
  /\ if n_pol =? 4
     then block = unit_matrices (size / 4)
     else Forall (fun x => x = of_real d1) block.

(** The data of direction 0 after the data of the other directions were
    added to it, one direction after the other. *)
Definition sum_directions (front : buffer) (others : list buffer)
    : list fcomplex :=
  foldl (fun data other => zip_with fcomplex_add data (BDABuffer.data other))
    (BDABuffer.data front) others.

(** All directions hold as many elements as direction 0. *)
Definition same_sizes (front : buffer) (others : list buffer) : Prop :=
  Forall (fun other =>
            BDABuffer.GetNumberOfElements other
            = BDABuffer.GetNumberOfElements front) others.

Definition forwarded_sum (directions : buffer * list buffer) : event :=
  NextStepProcess
    (BDABuffer.set_data (fst directions)
       (sum_directions (fst directions) (snd directions))).

(** An event that hands a buffer to the next step. *)
Definition is_forward (e : event) : Prop :=
  match e with
  | NextStepProcess _ => True
  | _ => False
  end.

(** A run that left the solver, the solver buffer, the stored data
    buffers and the per-interval vectors alone, and did nothing but
    forward buffers. *)
Definition forwards_only (st st' : t) : Prop :=
  settings_ st' = settings_ st
  /\ solver_ st' = solver_ st
  /\ solver_buffer_ st' = solver_buffer_ st
  /\ data_buffers_ st' = data_buffers_ st
  /\ same_bookkeeping st st'
  /\ exists new, events_ st' = events_ st ++ new /\ Forall is_forward new.

Definition pointers (directions : buffer * list buffer)
    : list (option buffer) :=
  Some (fst directions) :: map Some (snd directions).

End Step.

End BdaDdeCal.

(* ===================================================================== *)
(** * A concrete setting to run the step in                                *)
(* ===================================================================== *)

Module Demo.

Import BdaDdeCal.

#[local] Open Scope string_scope.

(** A solver: its setup, the names of its constraints, the number of
    polarizations it solves for, and whether its solves report
    constraint results. *)
Record solver : Type := MkSolver {
  setup : SolverBase.t;
  constraint_names : list string;
  n_polarizations : Z;
  reports : bool
}.

(** A parameter set: the settings it parses to and the solver the
    factory makes of it. *)
Record parset : Type := MkParset {
  parsed : Settings;
  created : solver
}.

Definition minus_one : double := PrimFloat.opp d1.

(** A solve that gives up: one iteration more than allowed, the
    solutions as they were; when the solver reports, one constraint
    result with a diverged, an ordinary and a zero weight, and empty
    results otherwise. *)
Definition gives_up (s : solver) (solutions : list (list dcomplex))
    : SolverBase.SolveResult * list (list dcomplex) :=
  (SolverBase.MkSolveResult
     (SolverBase.max_iterations_ (setup s) + 1) 0
     (if reports s
      then [[Constraint.MkResult [] [minus_one; d_half; d0] "ant" [3]
               "weights"]]
      else [[]; []]),
   solutions).

Definition world : Externals := {|
  NDEBUG := false;
  ParameterSet := parset;
  InputStep := unit;
  BdaPredict := list string;
  BufferMeta := unit;
  constraint := string;
  Solver := solver;
  BdaSolverBuffer := Z;
  SolveData := unit;
  SolutionWriter := string;
  new_Settings := fun p _ => Ok (parsed p);
  getStringVector := fun direction => Ok [direction];
  new_BdaPredict := fun _ _ _ source_patterns => Ok source_patterns;
  CreateBdaSolver := fun _ p _ => Ok (created p);
  new_SolutionWriter := fun h5parm_name => Ok h5parm_name;
  base := setup;
  ConstraintSolvers := fun s => [s];
  GetConstraints := constraint_names;
  NSolutionPolarizations := n_polarizations;
  Solve := fun s _ solutions _ => Ok (gives_up s solutions);
  new_SolveData := fun _ _ _ _ _ _ => tt;
  GetCurrentInterval := fun current_interval => current_interval;
  SubtractCorrectedModel := fun solver_buffer _ _ _ _ _ _ => solver_buffer;
  AppendAndWeight := fun solver_buffer _ _ => solver_buffer;
  IntervalIsComplete := fun _ => false;
  AdvanceInterval := Z.succ;
  GetDone := fun solver_buffer => ([], solver_buffer)
|}.

Definition setup50 : SolverBase.t :=
  SolverBase.Make 0 50 1 d_half d_half d1 false false.

Definition scalar : solver := MkSolver setup50 [] 1 true.
Definition full_jones : solver := MkSolver setup50 [] 4 true.
Definition smooth : solver := MkSolver setup50 ["smoothness"] 1 true.
Definition silent : solver := MkSolver setup50 [] 1 false.

(** Settings by the switches that matter here: directions, only-predict,
    flag unconverged, diverged only, propagate, converged only. *)
Definition settings_with (dirs : list string)
    (predict flag diverged propagate converged : bool) : Settings :=
  MkSettings "ddecal" dirs predict "out.h5" 0 0 false flag diverged
    propagate converged.

(** A step ready to solve: one direction, two antennas, one channel
    block, with the solutions and iteration counts of the intervals
    solved so far. *)
Definition ready (settings : Settings) (s : solver)
    (solutions : list (list (list dcomplex))) (its : list Z) : @t world :=
  @Make world settings (Some "out.h5") [["a"]] [[]] [["a"]] [] []
    (Some (Z.of_nat (length its))) (Some s) d1 [d0; d1] [0; 0; 1]
    [1; 0; 1] solutions its (map (fun _ => 0) its) (map (fun _ => []) its)
    (MkDPInfo 1 [d_half] [d1] [[d_half]] d0 2) [].

(** Parameter sets: a plain solving run, one whose solver has a
    constraint, one without directions. *)
Definition solving : parset :=
  MkParset (settings_with ["a"] false true true true true) scalar.

Definition constrained : parset :=
  MkParset (settings_with ["a"] false true true true true) smooth.

Definition no_directions : parset :=
  MkParset (settings_with [] false true true true true) scalar.

(** The result of a solve that gave up. *)
Definition gave_up : SolverBase.SolveResult := fst (gives_up scalar []).

Definition propagating : Settings :=
  settings_with ["a"] false true true true true.

(** Solutions of one channel block: a solved interval and freshly
    allocated ones for two and for eight entries. *)
Definition solved_half : list (list dcomplex) :=
  [[of_real d_half; of_real d_half]].

Definition fresh2 : list (list dcomplex) := [[of_real d1; of_real d1]].

Definition fresh8 : list (list dcomplex) := [replicate 8 (of_real d1)].

(** Single-precision values [m * 2^e]. *)
Definition f32 (m e : Z) : float32 :=
  SpecFloat.binary_normalize 24 128 m e false.

Definition visibilities (l : list Z) : @BDABuffer.t unit :=
  BDABuffer.Make (map (fun m => FComplex (f32 m 0) (f32 (- m) (-1))) l) tt.

(** A step in only-predict mode with two directions and the given queue
    of model buffers. *)
Definition predicting (queue : list (list (option (@BDABuffer.t unit))))
    : @t world :=
  @Make world (settings_with ["a"; "b"] true false false false false) None
    [["a"]; ["b"]] [[]; []] [["a"]; ["b"]] [] queue None None d0 [] [] []
    [] [] [] [] default_info [].

End Demo.

(* ===================================================================== *)
(** * SolverBase::Matrix                                                   *)
(* ===================================================================== *)

Module Matrix.

(** [SolverBase::Matrix]: a [std::vector<Complex>] and the number of
    columns. *)
Record t : Type := Make {
  elements : list fcomplex;
  columns_ : Z
}.

(** [Complex(0.0, 0.0)]. *)
Definition czero : fcomplex :=
  FComplex (SpecFloat.S754_zero false) (SpecFloat.S754_zero false).

(** [Matrix()]. *)
Definition empty : t := Make [] 0.

(** [Matrix(columns, rows)]. *)
Definition create (columns rows : Z) : t :=
  Make (replicate (Z.to_nat (wrap64 (columns * rows))) czero) columns.

(** [SetZero()]. *)
Definition SetZero (m : t) : t :=
  Make (replicate (length (elements m)) czero) (columns_ m).

(** The position that [operator()(column, row)] refers to. *)
Definition position (m : t) (column row : Z) : Z :=
  wrap64 (column + wrap64 (row * columns_ m)).

(** Reading and writing through the reference that [operator()]
    returns; a position past the end is undefined. *)
Definition get (m : t) (column row : Z) : outcome fcomplex :=
  defined (elements m !! Z.to_nat (position m column row)).

Definition set (m : t) (column row : Z) (v : fcomplex) : outcome t :=
  elements' ← BdaDdeCal.store (Z.to_nat (position m column row)) v
                (elements m);
  Ok (Make elements' (columns_ m)).

End Matrix.

(* ===================================================================== *)
(** * BdaDdeCal: the queue of model buffers and the block frequencies      *)
(* ===================================================================== *)

Module BdaDdeCalQueue.

Import BdaDdeCal.

Section Queue.

Context `{E : Externals}.

Abbreviation buffer := (BDABuffer.t BufferMeta).

(** The [while] loop of [ExtractResults] that looks for the first free
    slot of a direction, from the front of the queue on. *)
Fixpoint first_free_slot (model_buffers : list (list (option buffer)))
    (direction : nat) : outcome nat :=
  match model_buffers with
  | [] => Ok 0%nat
  | direction_buffers :: rest =>
      pointer ← defined (direction_buffers !! direction);
      if pointer_is_set pointer then
        queue_index ← first_free_slot rest direction;
        Ok (S queue_index)
      else Ok 0%nat
  end.

(** The loop over [results]: the queue grows by a row of null pointers
    when the index reaches its end. *)
Fixpoint place_results (n_directions direction : nat) (results : list buffer)
    (queue_index : nat) (model_buffers : list (list (option buffer)))
    : outcome (list (list (option buffer))) :=
  match results with
  | [] => Ok model_buffers
  | result :: rest =>
      let model_buffers :=
        if (queue_index =? length model_buffers)%nat
        then model_buffers ++ [replicate n_directions None]
        else model_buffers in
      direction_buffers ← defined (model_buffers !! queue_index);
      direction_buffers ← store direction (Some result) direction_buffers;
      place_results n_directions direction rest (S queue_index)
        (<[queue_index := direction_buffers]> model_buffers)
  end.

(** The loop over [direction]; [todo] holds what the result steps from
    [direction] on give on [Extract()]. *)
Fixpoint extract_loop (direction : nat) (todo : list (list buffer))
    (n_directions : nat) (model_buffers : list (list (option buffer)))
    : outcome (list (list (option buffer))) :=
  match todo with
  | [] => Ok model_buffers
  | results :: rest =>
      model_buffers ←
        (if is_empty results then Ok model_buffers
         else
           queue_index ← first_free_slot model_buffers direction;
           place_results n_directions direction results queue_index
             model_buffers);
      extract_loop (S direction) rest n_directions model_buffers
  end.

(** [BdaDdeCal::ExtractResults]; [Extract()] takes the buffers out of a
    result step. *)
Definition ExtractResults (st : t) : outcome t :=
  model_buffers ←
    extract_loop 0 (result_steps_ st) (length (result_steps_ st))
      (model_buffers_ st);
  Ok (set_model_buffers
        (set_result_steps st (map (fun _ => []) (result_steps_ st)))
        model_buffers).

(** ** Vocabulary of the properties *)

(** The pointer at row [i], direction [d] of the queue; null when there
    is no such place. *)
Definition slot (model_buffers : list (list (option buffer))) (i d : nat)
    : option buffer :=
  match model_buffers !! i with
  | Some direction_buffers =>
      match direction_buffers !! d with
      | Some pointer => pointer
      | None => None
      end
  | None => None
  end.

(** Every row of the queue has one place per direction. *)
Definition rectangular (n_directions : nat)
    (model_buffers : list (list (option buffer))) : Prop :=
  Forall (fun direction_buffers => length direction_buffers = n_directions)
    model_buffers.

(** The set pointers of a direction come first in the queue. *)
Definition no_holes (model_buffers : list (list (option buffer)))
    (d : nat) : Prop :=
  forall i j, (i <= j)%nat ->
    slot model_buffers i d = None -> slot model_buffers j d = None.

(** The front of the queue is not ready to be processed. *)
Definition front_incomplete (model_buffers : list (list (option buffer)))
    : Prop :=
  match model_buffers with
  | [] => True
  | front :: _ => forallb pointer_is_set front = false
  end.

(** The solver buffer after the data buffers were appended to it with
    their fronts, first to last. *)
Definition appended (solver_buffer : BdaSolverBuffer)
    (pairs : list (option buffer * list (option buffer)))
    : BdaSolverBuffer :=
  foldl (fun solver_buffer pair =>
           AppendAndWeight solver_buffer (fst pair) (snd pair))
    solver_buffer pairs.

(** Number of [Solve] calls among events. *)
Fixpoint solves (events : list event) : nat :=
  match events with
  | [] => 0%nat
  | SolverSolve _ :: rest => S (solves rest)
  | _ :: rest => solves rest
  end.

(** The arguments that [SolveCurrentInterval] computes for [Solve]. *)
Definition solve_blocks (st : t) : Z :=
  wrap64 (Z.of_nat (length (chan_block_start_freqs_ st)) - 1).

Definition solve_block_size (st : t) (solver : Solver) : Z :=
  wrap64 (wrap64 (Z.of_nat (length (directions (settings_ st)))
                  * antennaUsed_size (info_ st))
          * NSolutionPolarizations solver).

Definition solve_data (st : t) (solver_buffer : BdaSolverBuffer) : SolveData :=
  new_SolveData solver_buffer (solve_blocks st)
    (Z.of_nat (length (directions (settings_ st))))
    (antennaUsed_size (info_ st)) (antennas1_ st) (antennas2_ st).

Definition solve_time (st : t) : double :=
  PrimFloat.add (startTime (info_ st))
    (PrimFloat.mul
       (PrimFloat.add
          (double_of_Z (int_of_size_t (Z.of_nat (length (solutions_ st)))))
          d_half)
       (solution_interval_ st)).

Definition fresh_solution (st : t) (solver : Solver) : list (list dcomplex) :=
  replicate (Z.to_nat (solve_blocks st))
    (replicate (Z.to_nat (solve_block_size st solver)) (of_real d1)).

End Queue.

Section Frequencies.

Context {F : Type} `{Arith F}.

(** The loop of [WriteSolutions] over the channel blocks. *)
Fixpoint midpoint_loop (todo i : nat) (chan_block_start_freqs : list F)
    (chan_block_freqs : list F) : outcome (list F) :=
  match todo with
  | O => Ok chan_block_freqs
  | S todo' =>
      lower ← defined (chan_block_start_freqs !! i);
      upper ← defined (chan_block_start_freqs !! (i + 1)%nat);
      midpoint_loop todo' (S i) chan_block_start_freqs
        (chan_block_freqs
         ++ [f_mul (f_add lower upper) (f_div (f_of_Z 1) (f_of_Z 2))])
  end.

(** The centre frequencies [chan_block_freqs] that [WriteSolutions]
    hands to the solution writer. With no boundary at all,
    [size() - 1] wraps around and [reserve] throws [std::length_error]. *)
Definition chan_block_freqs (chan_block_start_freqs : list F)
    : outcome (list F) :=
  match chan_block_start_freqs with
  | [] => Fail (RuntimeError "std::length_error: vector::reserve")
  | _ :: _ =>
      midpoint_loop
        (Z.to_nat (wrap64 (Z.of_nat (length chan_block_start_freqs) - 1)))
        0 chan_block_start_freqs []
  end.

End Frequencies.

End BdaDdeCalQueue.

(* ===================================================================== *)
(** * BdaDdeCal: process                                                   *)
(* ===================================================================== *)

Module BdaDdeCalProcess.

Import BdaDdeCal.
Import BdaDdeCalQueue.

(** The predict sub-steps as [process] uses them: the copy of a buffer
    that carries its metadata and flags only, and what a sub-step does
    with such a copy (its new state and the model buffers that reach its
    result step, none when it holds them back). *)
Class Predictors `{E : Externals} : Type := MkPredictors {
  metadata_copy : BDABuffer.t BufferMeta -> BDABuffer.t BufferMeta;
  predict :
    BdaPredict -> BDABuffer.t BufferMeta ->
    BdaPredict * list (BDABuffer.t BufferMeta)
}.

Section Process.

Context `{P : Predictors}.

Abbreviation buffer := (BDABuffer.t BufferMeta).

(** The loop over [steps_]; sub-step [i] hands its output to result step
    [i], as linked by [InitializePredictSteps]. *)
Fixpoint feed_steps (steps : list BdaPredict)
    (result_steps : list (list buffer)) (b : buffer)
    : list BdaPredict * list (list buffer) :=
  match steps, result_steps with
  | step :: steps', results :: result_steps' =>
      let fed := predict step (metadata_copy b) in
      let others := feed_steps steps' result_steps' b in
      (fst fed :: fst others, (results ++ snd fed) :: snd others)
  | _, _ => (steps, result_steps)
  end.

(** [BdaDdeCal::process]. *)
Definition process (fuel : nat) (st : t) (b : buffer) : outcome (t * bool) :=
  let fed := feed_steps (steps_ st) (result_steps_ st) b in
  let st := set_result_steps (set_steps st (fst fed)) (snd fed) in
  let st :=
    if negb (only_predict (settings_ st))
    then set_data_buffers st (data_buffers_ st ++ [Some b])
    else st in
  st ← ExtractResults st;
  st ← ProcessCompleteDirections fuel st;
  Ok (st, true).

(** Sub-steps that answer each buffer at once with one model buffer:
    [outs] are the answers to [b], one per sub-step. *)
Definition prompt (steps : list BdaPredict) (b : buffer) (outs : list buffer)
    : Prop :=
  Forall2 (fun step out => snd (predict step (metadata_copy b)) = [out])
    steps outs.

End Process.

End BdaDdeCalProcess.

Module DemoProcess.

Import BdaDdeCal.
Import BdaDdeCalProcess.
Import Demo.

#[local] Open Scope string_scope.

(** Sub-steps that answer at once: the one for patch "a" predicts the
    visibilities 1 and 2, every other one 3 and 4. *)
Definition copy_metadata (b : BDABuffer.t unit) : BDABuffer.t unit :=
  BDABuffer.Make [] (BDABuffer.meta b).

Definition predict_patch (step : list string) (b : BDABuffer.t unit)
    : list string * list (BDABuffer.t unit) :=
  (step,
   [match step with
    | [patch] =>
        if String.eqb patch "a" then visibilities [1; 2]
        else visibilities [3; 4]
    | _ => visibilities [3; 4]
    end]).

Definition predictors : @Predictors world :=
  @MkPredictors world copy_metadata predict_patch.


(** A step that solves, with a complete front and no data buffer. *)
Definition starved : @t world :=
  set_model_buffers (ready propagating scalar [] [])
    [[Some (visibilities [1; 2])]].

(** A step in only-predict mode whose result steps hold one buffer for
    direction 0 and two for direction 1, with one buffer of direction 0
    already waiting in the queue. *)
Definition extracting : @t world :=
  set_result_steps
    (predicting [[Some (visibilities [1; 2]); None]])
    [[visibilities [3; 4]]; [visibilities [5; 6]; visibilities [7; 8]]].

Definition copying : Settings :=
  settings_with ["a"] false true true true false.

End DemoProcess.

Module DemoBands.

(** Two channels of widths 1 and 3 that tile the band from 0 to 4. *)
Definition irregular_freqs : list double :=
  [d_half; PrimFloat.div (double_of_Z 5) (double_of_Z 2)].

Definition irregular_widths : list double := [d1; double_of_Z 3].

(** Six channels that tile the band from 0 to 7: five of width 1 and one
    of width 2. *)
Definition uneven_freqs : list double :=
  [d_half;
   PrimFloat.div (double_of_Z 3) (double_of_Z 2);
   PrimFloat.div (double_of_Z 5) (double_of_Z 2);
   PrimFloat.div (double_of_Z 7) (double_of_Z 2);
   PrimFloat.div (double_of_Z 9) (double_of_Z 2);
   double_of_Z 6].

Definition uneven_widths : list double :=
  [d1; d1; d1; d1; d1; double_of_Z 2].

(** One channel of width 1 centred at 2^60, where neighbouring doubles
    lie 256 apart. *)
Definition far_freqs : list double := [double_of_Z (2 ^ 60)].

Definition far_widths : list double := [d1].

(** A width that is positive. *)
Definition positive (w : double) : Prop := dlt d0 w = true.

End DemoBands.

Module DemoIntervals.

Import BdaDdeCal.
Import Demo.

#[local] Open Scope string_scope.

(** A solver buffer that keeps count of the buffers appended to it and
    of the interval it is at. *)
Record counter : Type := MkCounter {
  appended_buffers : Z;
  at_interval : Z
}.

(** The setting of [Demo.world] with solution intervals of one buffer
    each: an interval is complete once its buffer was appended. *)
Definition counting : Externals := {|
  NDEBUG := false;
  ParameterSet := parset;
  InputStep := unit;
  BdaPredict := list string;
  BufferMeta := unit;
  constraint := string;
  Solver := solver;
  BdaSolverBuffer := counter;
  SolveData := unit;
  SolutionWriter := string;
  new_Settings := fun p _ => Ok (parsed p);
  getStringVector := fun direction => Ok [direction];
  new_BdaPredict := fun _ _ _ source_patterns => Ok source_patterns;
  CreateBdaSolver := fun _ p _ => Ok (created p);
  new_SolutionWriter := fun h5parm_name => Ok h5parm_name;
  base := setup;
  ConstraintSolvers := fun s => [s];
  GetConstraints := constraint_names;
  NSolutionPolarizations := n_polarizations;
  Solve := fun s _ solutions _ => Ok (gives_up s solutions);
  new_SolveData := fun _ _ _ _ _ _ => tt;
  GetCurrentInterval := at_interval;
  SubtractCorrectedModel := fun solver_buffer _ _ _ _ _ _ => solver_buffer;
  AppendAndWeight := fun solver_buffer _ _ =>
    MkCounter (Z.succ (appended_buffers solver_buffer))
      (at_interval solver_buffer);
  IntervalIsComplete := fun solver_buffer =>
    Z.ltb (at_interval solver_buffer) (appended_buffers solver_buffer);
  AdvanceInterval := fun solver_buffer =>
    MkCounter (appended_buffers solver_buffer)
      (Z.succ (at_interval solver_buffer));
  GetDone := fun solver_buffer => ([], solver_buffer)
|}.

(** A step that solves, with two complete fronts and their data buffers
    waiting, and nothing solved yet. *)
Definition busy : @t counting :=
  @Make counting propagating (Some "out.h5") [["a"]] [[]] [["a"]]
    [Some (visibilities [7; 8]); Some (visibilities [9; 10])]
    [[Some (visibilities [1; 2])]; [Some (visibilities [3; 4])]]
    (Some (MkCounter 0 0)) (Some scalar) d1 [d0; d1] [0; 0; 1] [1; 0; 1]
    [] [] [] [] (MkDPInfo 1 [d_half] [d1] [[d_half]] d0 2) [].

End DemoIntervals.

(* ===================================================================== *)
(** * Properties of the stopping rule                                      *)
(* ===================================================================== *)

Section StoppingCriterionFacts.

Import SolverBase.

Variable DetectStall : SolverBase.t -> Z -> list double -> bool.

Lemma has_stalled_calls s it cs mags :
  snd (has_stalled DetectStall s it cs mags) =
    if detect_stalling_ s && cs then [StallCall it mags] else [].
Proof. unfold has_stalled. destruct (_ && _); reflexivity. Qed.

Lemma has_stalled_value s it cs mags :
  fst (has_stalled DetectStall s it cs mags) =
    detect_stalling_ s && cs && DetectStall s it mags.
Proof. unfold has_stalled. destruct (_ && _); reflexivity. Qed.

(** C1. The engine stops exactly when the iteration count has reached
    the minimum and one of: the maximum is reached, the solve and the
    constraints both converged, a stall was detected. [DetectStall] is
    evaluated at most once, and only with stall detection enabled and
    the constraints satisfied; a stall is never reported otherwise. *)
Theorem C1_stopping_policy s iteration has_converged constraints_satisfied
    step_magnitudes :
  let stalled :=
    fst (has_stalled DetectStall s iteration constraints_satisfied
           step_magnitudes) in
  let calls :=
    snd (ReachedStoppingCriterion_traced DetectStall s iteration
           has_converged constraints_satisfied step_magnitudes) in
  (ReachedStoppingCriterion DetectStall s iteration has_converged
     constraints_satisfied step_magnitudes = true
   <-> min_iterations_ s <= iteration
       /\ (max_iterations_ s <= iteration
           \/ (has_converged = true /\ constraints_satisfied = true)
           \/ stalled = true))
  /\ (stalled = true
      <-> detect_stalling_ s = true /\ constraints_satisfied = true
          /\ DetectStall s iteration step_magnitudes = true)
  /\ (calls = [] \/ calls = [StallCall iteration step_magnitudes])
  /\ (calls <> []
      <-> detect_stalling_ s = true /\ constraints_satisfied = true)
  /\ (constraints_satisfied = false -> stalled = false /\ calls = []).
Proof.
  cbv zeta.
  unfold ReachedStoppingCriterion, ReachedStoppingCriterion_traced, bind, ret.
  cbn [fst snd]. rewrite app_nil_r, has_stalled_calls, has_stalled_value.
  destruct (Z.leb_spec (min_iterations_ s) iteration),
    (Z.leb_spec (max_iterations_ s) iteration),
    (detect_stalling_ s), has_converged, constraints_satisfied,
    (DetectStall s iteration step_magnitudes); cbn;
    intuition (try lia; try congruence; try discriminate).
Qed.

End StoppingCriterionFacts.

(* ===================================================================== *)
(** * Properties of the channel-block partitioner                          *)
(* ===================================================================== *)

Section PartitionerCounting.

Import Partitioner.

Context {F : Type} `{Arith F}.

Lemma n_channel_blocks_for_pos n_channels nchan :
  1 <= n_channel_blocks_for n_channels nchan.
Proof. unfold n_channel_blocks_for. destruct (0 <? n_channels); lia. Qed.

Lemma n_channel_blocks_for_le n_channels nchan :
  1 <= nchan -> n_channel_blocks_for n_channels nchan <= nchan.
Proof.
  intros Hn. unfold n_channel_blocks_for.
  destruct (Z.ltb_spec 0 n_channels) as [Hpos | _]; [| lia].
  apply Z.max_lub; [| lia].
  apply Z.div_le_upper_bound; nia.
Qed.

Lemma block_loop_length todo : forall ch_block nchan blocks (cw : F) si sf acc,
  length (block_loop todo ch_block nchan blocks cw si sf acc)
  = (length acc + todo)%nat.
Proof.
  induction todo as [| todo IH]; intros; cbn [block_loop].
  - lia.
  - rewrite IH, length_app. cbn. lia.
Qed.

(** The loop only ever appends to the vector it was given. *)
Lemma block_loop_acc todo : forall ch_block nchan blocks (cw : F) si sf acc,
  block_loop todo ch_block nchan blocks cw si sf acc
  = acc ++ block_loop todo ch_block nchan blocks cw si sf [].
Proof.
  induction todo as [| todo IH]; intros; cbn [block_loop].
  - now rewrite app_nil_r.
  - rewrite IH. symmetry. rewrite IH. cbn. now rewrite <- app_assoc.
Qed.

(** C5. For at least one channel the partitioner yields
    [max(1, nchan / target)] blocks when a target is configured, one
    block when the target is unset (0) or exceeds the channel count, and
    the boundary array has one entry more than there are blocks. *)
Theorem C5_block_count (n_channels nchan : Z) (chanFreqs0 chanWidths0 : list F) :
  1 <= nchan ->
  0 <= n_channels ->
  chanFreqs0 <> [] ->
  chanWidths0 <> [] ->
  let n_channel_blocks := n_channel_blocks_for n_channels nchan in
  (exists boundaries,
     DetermineChannelBlocks n_channels nchan chanFreqs0 chanWidths0
       = Ok boundaries
     /\ Z.of_nat (length boundaries) = n_channel_blocks + 1)
  /\ (0 < n_channels -> n_channel_blocks = Z.max 1 (nchan / n_channels))
  /\ (n_channels = 0 -> n_channel_blocks = 1)
  /\ (nchan < n_channels -> n_channel_blocks = 1).
Proof.
  intros Hn Ht Hf Hw B.
  pose proof (n_channel_blocks_for_pos n_channels nchan) as HB. fold B in HB.
  split; [| split; [| split]].
  - unfold DetermineChannelBlocks. fold B.
    destruct chanFreqs0 as [| f0 fs]; [congruence |].
    destruct chanWidths0 as [| w0 ws]; [congruence |].
    destruct (last (f0 :: fs)) as [f1 |] eqn:Ef;
      [| apply last_None in Ef; congruence].
    destruct (last (w0 :: ws)) as [w1 |] eqn:Ew;
      [| apply last_None in Ew; congruence].
    cbn [head defined mbind outcome_bind].
    eexists. split; [reflexivity |].
    rewrite block_loop_length. cbn [length]. lia.
  - intros Hpos. unfold B, n_channel_blocks_for.
    destruct (Z.ltb_spec 0 n_channels); lia.
  - intros ->. reflexivity.
  - intros Hlt. unfold B, n_channel_blocks_for.
    destruct (Z.ltb_spec 0 n_channels); [| reflexivity].
    rewrite Z.div_small by lia. reflexivity.
Qed.

End PartitionerCounting.

Section PartitionerSteps.

Import Partitioner.

Context {F : Type} `{Arith F}.

(** Integer facts behind the block sizes. *)
Lemma block_index_step (b n B : Z) :
  0 <= b -> 1 <= B <= n ->
  b * n / B < (b + 1) * n / B.
Proof.
  intros Hb HB.
  assert (b * n / B + 1 <= (b + 1) * n / B); [| lia].
  replace (b * n / B + 1) with ((b * n + 1 * B) / B)
    by (rewrite Z.div_add by lia; reflexivity).
  apply Z.div_le_mono; nia.
Qed.

Lemma block_index_nowrap (b n B : Z) :
  0 <= b < B -> 1 <= B <= n -> n < 2 ^ 32 ->
  wrap64 (wrap64 (b + 1) * n) / B = (b + 1) * n / B.
Proof.
  intros Hb HB Hn. unfold wrap64, size_max.
  rewrite (Z.mod_small (b + 1)) by lia.
  rewrite Z.mod_small; [reflexivity |].
  split; [nia |].
  change (2 ^ 64) with (2 ^ 32 * 2 ^ 32). nia.
Qed.

Lemma block_size_nowrap (b n B : Z) :
  0 <= b < B -> 1 <= B <= n -> n < 2 ^ 32 ->
  wrap64 ((b + 1) * n / B - b * n / B) = (b + 1) * n / B - b * n / B.
Proof.
  intros Hb HB Hn. unfold wrap64, size_max.
  apply Z.mod_small.
  pose proof (block_index_step b n B ltac:(lia) HB).
  assert ((b + 1) * n / B <= n).
  { apply Z.div_le_upper_bound; nia. }
  assert (0 <= b * n / B) by (apply Z.div_pos; nia).
  change (2 ^ 64) with (2 ^ 32 * 2 ^ 32). nia.
Qed.

(** The blocks are consecutive, non-empty ranges of channels that
    together hold all channels. *)
Lemma channel_index_ranges (n B : Z) :
  1 <= B <= n ->
  channel_index n B 0 = 0
  /\ channel_index n B B = n
  /\ forall k, 0 <= k < B -> channel_index n B k < channel_index n B (k + 1).
Proof.
  intros HB. unfold channel_index. split; [| split].
  - rewrite Z.mul_0_l. apply Zdiv_0_l.
  - rewrite Z.mul_comm. apply Z.div_mul. lia.
  - intros k Hk. apply block_index_step; lia.
Qed.

(** One round of the loop, seen from the vector: every entry is the one
    before it plus the channels of its block times the uniform width, in
    the arithmetic of the number type. *)
Lemma block_loop_step (n B : Z) (cw : F) :
  1 <= B <= n -> n < 2 ^ 32 ->
  forall todo b sf,
    0 <= b -> b + Z.of_nat todo = B ->
    forall j, (j < todo)%nat ->
      exists lower,
        (sf :: block_loop todo b n B cw (channel_index n B b) sf []) !! j
        = Some lower
        /\ (sf :: block_loop todo b n B cw (channel_index n B b) sf []) !! S j
           = Some (f_add lower
                     (f_mul
                        (f_of_Z (channel_index n B (b + Z.of_nat j + 1)
                                 - channel_index n B (b + Z.of_nat j)))
                        cw)).
Proof.
  intros HB Hn. unfold channel_index.
  induction todo as [| todo IH]; intros b sf Hb Hsum j Hj; [lia |].
  cbn [block_loop]. rewrite app_nil_l, block_loop_acc.
  rewrite block_index_nowrap by lia.
  rewrite block_size_nowrap by lia.
  replace (wrap64 (b + 1)) with (b + 1)
    by (unfold wrap64, size_max; rewrite Z.mod_small; lia).
  destruct j as [| j].
  - exists sf. split; [reflexivity |].
    change (Z.of_nat 0) with 0. rewrite Z.add_0_r. reflexivity.
  - cbn [app].
    destruct (IH (b + 1)
                (f_add sf (f_mul (f_of_Z ((b + 1) * n / B - b * n / B)) cw))
                ltac:(lia) ltac:(lia) j ltac:(lia)) as (lower & Hl & Hu).
    exists lower. split; [exact Hl |].
    replace (b + Z.of_nat (S j) + 1) with (b + 1 + Z.of_nat j + 1) by lia.
    replace (b + Z.of_nat (S j)) with (b + 1 + Z.of_nat j) by lia.
    exact Hu.
Qed.

Lemma boundaries_step (n_channels nchan : Z) (lo cw : F) :
  1 <= nchan < 2 ^ 32 ->
  let B := n_channel_blocks_for n_channels nchan in
  forall k, (k < Z.to_nat B)%nat ->
    exists lower,
      block_loop (Z.to_nat B) 0 nchan B cw 0 lo [lo] !! k = Some lower
      /\ block_loop (Z.to_nat B) 0 nchan B cw 0 lo [lo] !! S k
         = Some (f_add lower
                   (f_mul
                      (f_of_Z (channel_index nchan B (Z.of_nat k + 1)
                               - channel_index nchan B (Z.of_nat k)))
                      cw)).
Proof.
  intros Hn B k Hk.
  pose proof (n_channel_blocks_for_pos n_channels nchan) as HB1.
  pose proof (n_channel_blocks_for_le n_channels nchan ltac:(lia)) as HB2.
  fold B in HB1, HB2.
  rewrite block_loop_acc.
  destruct (block_loop_step nchan B cw ltac:(lia) ltac:(lia)
              (Z.to_nat B) 0 lo ltac:(lia) ltac:(lia) k Hk)
    as (lower & Hl & Hu).
  replace (channel_index nchan B 0) with 0 in Hl, Hu
    by (unfold channel_index; rewrite Z.mul_0_l, Zdiv_0_l; reflexivity).
  exists lower. split; [exact Hl |].
  rewrite Z.add_0_l in Hu. exact Hu.
Qed.

(** C4, as amended. For at least one channel and non-empty arrays, in
    the arithmetic of the code (any number type, binary64 included): the
    boundary array starts at [min_freq]; every further boundary is the
    one before it plus the number of channels of its block times one
    uniform width [(max_freq - min_freq) / nchan]; the blocks are
    consecutive, non-empty ranges of channels that together hold all
    [nchan] channels; and of the frequencies and widths nothing but the
    first and the last entry is read, so the individual channel widths do
    not enter. *)
Theorem C4_boundaries_uniform (n_channels nchan : Z)
    (chanFreqs0 chanWidths0 : list F) (f0 w0 f1 w1 : F) :
  1 <= nchan < 2 ^ 32 ->
  head chanFreqs0 = Some f0 -> head chanWidths0 = Some w0 ->
  last chanFreqs0 = Some f1 -> last chanWidths0 = Some w1 ->
  let n_channel_blocks := n_channel_blocks_for n_channels nchan in
  let min_freq := min_freq_of f0 w0 in
  let max_freq := max_freq_of f1 w1 in
  let chan_width := f_div (f_sub max_freq min_freq) (f_of_Z nchan) in
  exists boundaries,
    DetermineChannelBlocks n_channels nchan chanFreqs0 chanWidths0
    = Ok boundaries
    /\ head boundaries = Some min_freq
    /\ (forall k, (k < Z.to_nat n_channel_blocks)%nat ->
          exists lower,
            boundaries !! k = Some lower
            /\ boundaries !! S k
               = Some (f_add lower
                         (f_mul
                            (f_of_Z
                               (channel_index nchan n_channel_blocks
                                  (Z.of_nat k + 1)
                                - channel_index nchan n_channel_blocks
                                    (Z.of_nat k)))
                            chan_width)))
    /\ channel_index nchan n_channel_blocks 0 = 0
    /\ channel_index nchan n_channel_blocks n_channel_blocks = nchan
    /\ (forall k, 0 <= k < n_channel_blocks ->
          channel_index nchan n_channel_blocks k
          < channel_index nchan n_channel_blocks (k + 1))
    /\ (forall chanFreqs0' chanWidths0',
          head chanFreqs0' = Some f0 -> head chanWidths0' = Some w0 ->
          last chanFreqs0' = Some f1 -> last chanWidths0' = Some w1 ->
          DetermineChannelBlocks n_channels nchan chanFreqs0' chanWidths0'
          = Ok boundaries).
Proof.
  intros Hn Hf0 Hw0 Hf1 Hw1 B lo hi cw.
  pose proof (n_channel_blocks_for_pos n_channels nchan) as HB1.
  pose proof (n_channel_blocks_for_le n_channels nchan ltac:(lia)) as HB2.
  fold B in HB1, HB2.
  destruct (channel_index_ranges nchan B ltac:(lia)) as (Hfirst & Hlast & Hinc).
  exists (block_loop (Z.to_nat B) 0 nchan B cw 0 lo [lo]).
  split.
  { unfold DetermineChannelBlocks. rewrite Hf0, Hw0, Hf1, Hw1. reflexivity. }
  split.
  { rewrite block_loop_acc. reflexivity. }
  split.
  { exact (boundaries_step n_channels nchan lo cw Hn). }
  split; [exact Hfirst |]. split; [exact Hlast |]. split; [exact Hinc |].
  intros fs ws Hf0' Hw0' Hf1' Hw1'.
  unfold DetermineChannelBlocks. rewrite Hf0', Hw0', Hf1', Hw1'. reflexivity.
Qed.

End PartitionerSteps.

Section PartitionerExamples.

Import Partitioner.
Import DemoBands.

(** On channels of equal width the boundaries are where the widths of
    the channels add up to. *)
Example regular_band_agrees :
  DetermineChannelBlocks 2 4
    [d_half;
     PrimFloat.div (double_of_Z 3) (double_of_Z 2);
     PrimFloat.div (double_of_Z 5) (double_of_Z 2);
     PrimFloat.div (double_of_Z 7) (double_of_Z 2)]
    [d1; d1; d1; d1]
  = Ok (cumulative_boundaries 2 4 (min_freq_of d_half d1) [d1; d1; d1; d1]).
Proof. vm_compute. reflexivity. Qed.

(** C4, as stated, fails on binary64 in each of its parts.
    - One channel of width 1 centred at 2^60: both boundaries are 2^60,
      so the array is not strictly increasing.
    - Six contiguous channels on the band from 0 to 7, one channel per
      block: the last boundary lies above [max_freq].
    - Two contiguous channels of widths 1 and 3, one channel per block:
      the inner boundary is at 2, the middle of the band, and not at 1,
      where the first channel ends. *)
Lemma C4_counterexample :
  (Forall positive far_widths
   /\ exists lower upper,
        DetermineChannelBlocks 0 1 far_freqs far_widths = Ok [lower; upper]
        /\ PrimFloat.eqb lower upper = true
        /\ PrimFloat.ltb lower upper = false)
  /\ (Forall positive uneven_widths
      /\ contiguous uneven_freqs uneven_widths = true
      /\ exists boundaries upper,
           DetermineChannelBlocks 1 6 uneven_freqs uneven_widths
           = Ok boundaries
           /\ last boundaries = Some upper
           /\ PrimFloat.ltb (max_freq_of (double_of_Z 6) (double_of_Z 2)) upper
              = true)
  /\ (Forall positive irregular_widths
      /\ contiguous irregular_freqs irregular_widths = true
      /\ exists lower inner upper inner',
           DetermineChannelBlocks 1 2 irregular_freqs irregular_widths
           = Ok [lower; inner; upper]
           /\ cumulative_boundaries 1 2 (min_freq_of d_half d1)
                irregular_widths
              = [lower; inner'; upper]
           /\ PrimFloat.eqb inner (double_of_Z 2) = true
           /\ PrimFloat.eqb inner' d1 = true
           /\ PrimFloat.eqb inner inner' = false).
Proof.
  split; [| split].
  - split; [repeat constructor |].
    do 2 eexists. split; [vm_compute; reflexivity |].
    split; vm_compute; reflexivity.
  - split; [repeat constructor |]. split; [vm_compute; reflexivity |].
    do 2 eexists. split; [vm_compute; reflexivity |].
    split; [reflexivity |]. vm_compute. reflexivity.
  - split; [repeat constructor |]. split; [vm_compute; reflexivity |].
    do 4 eexists. split; [vm_compute; reflexivity |].
    split; [vm_compute; reflexivity |].
    repeat split; vm_compute; reflexivity.
Qed.

Lemma C4_boundaries_uniform_witness :
  exists lower inner boundaries,
    DetermineChannelBlocks 1 2 irregular_freqs irregular_widths
    = Ok boundaries
    /\ head boundaries = Some lower
    /\ boundaries !! 1%nat = Some inner
    /\ PrimFloat.eqb lower d0 = true
    /\ PrimFloat.eqb inner (double_of_Z 2) = true.
Proof.
  destruct (C4_boundaries_uniform 1 2 irregular_freqs irregular_widths
              d_half d1 (PrimFloat.div (double_of_Z 5) (double_of_Z 2))
              (double_of_Z 3) ltac:(lia) eq_refl eq_refl eq_refl eq_refl)
    as (boundaries & Hrun & Hhead & Hstep & _).
  destruct (Hstep 0%nat ltac:(vm_compute; lia)) as (lower & Hlower & Hinner).
  rewrite head_lookup in Hhead.
  assert (Hsame : lower = min_freq_of d_half d1) by congruence.
  subst lower.
  exists (min_freq_of d_half d1). eexists. exists boundaries.
  split; [exact Hrun |].
  split; [rewrite head_lookup; exact Hlower |]. split; [exact Hinner |].
  split; vm_compute; reflexivity.
Defined.

Lemma C5_block_count_witness :
  (1 <= 10)%Z /\ (0 <= 4)%Z
  /\ exists boundaries,
       DetermineChannelBlocks 4 10 [d_half; d1] [d_half; d_half]
         = Ok boundaries
       /\ length boundaries = 3%nat
       /\ n_channel_blocks_for 4 10 = 2%Z.
Proof.
  split; [lia |]. split; [lia |].
  destruct (C5_block_count 4 10 [d_half; d1] [d_half; d_half]
              ltac:(lia) ltac:(lia) ltac:(discriminate) ltac:(discriminate))
    as ((bs & Hrun & Hlen) & Hmax & _ & _).
  exists bs. split; [exact Hrun |].
  specialize (Hmax ltac:(lia)).
  split; [| exact Hmax].
  rewrite Hmax in Hlen. change (Z.max 1 (10 / 4) + 1)%Z with 3%Z in Hlen. lia.
Defined.

End PartitionerExamples.

(* ===================================================================== *)
(** * Properties of the constructor                                        *)
(* ===================================================================== *)

Section ConstructorFacts.

Import BdaDdeCal.

Context `{E : Externals}.

Lemma InitializePredictSteps_frame input parset prefix dirs :
  forall st st',
    InitializePredictSteps input parset prefix dirs st = Ok st' ->
    only_steps_differ st st'.
Proof.
  induction dirs as [| direction rest IH]; intros st st' Hrun.
  - injection Hrun as <-. repeat split.
  - cbn [InitializePredictSteps] in Hrun.
    destruct (getStringVector direction) as [patterns |]; [| discriminate].
    cbn [mbind outcome_bind] in Hrun.
    destruct (new_BdaPredict input parset prefix patterns) as [step |];
      [| discriminate].
    cbn [mbind outcome_bind] in Hrun.
    apply IH in Hrun. exact Hrun.
Qed.

Lemma check_constraint_solvers_Ok solvers :
  check_constraint_solvers solvers = Ok tt
  <-> Forall (fun constraint_solver => GetConstraints constraint_solver = [])
        solvers.
Proof.
  induction solvers as [| s rest IH]; cbn [check_constraint_solvers].
  - split; [constructor | reflexivity].
  - destruct (GetConstraints s) eqn:Hc.
    + rewrite IH. split.
      * intros Hall. constructor; assumption.
      * intros Hall. apply Forall_cons_1 in Hall as [_ Hall]. exact Hall.
    + split; [discriminate |].
      intros Hall. apply Forall_cons_1 in Hall as [Hs _]. congruence.
Qed.

Lemma check_constraint_solvers_Fail solvers :
  Exists (fun constraint_solver => GetConstraints constraint_solver <> [])
    solvers ->
  exists what, check_constraint_solvers solvers = Fail (RuntimeError what).
Proof.
  induction 1 as [s rest Hs | s rest _ IH]; cbn [check_constraint_solvers].
  - destruct (GetConstraints s); [congruence |]. eexists. reflexivity.
  - destruct (GetConstraints s); [exact IH |]. eexists. reflexivity.
Qed.

Lemma construct_Ok input parset prefix settings st :
  new_Settings parset prefix = Ok settings ->
  construct input parset prefix = Ok st ->
  settings_ st = settings
  /\ directions settings <> []
  /\ (only_predict settings = true -> solver_ st = None)
  /\ (only_predict settings = false ->
      exists solver,
        solver_ st = Some solver
        /\ Forall (fun constraint_solver =>
                     GetConstraints constraint_solver = [])
             (ConstraintSolvers solver))
  /\ data_buffers_ st = [] /\ model_buffers_ st = []
  /\ events_ st = [] /\ lockstep st 0.
Proof.
  intros Hsettings. unfold construct. rewrite Hsettings.
  cbn [mbind outcome_bind]. intros Hrun.
  destruct (directions settings) as [| d ds] eqn:Ed; [discriminate |].
  destruct (InitializePredictSteps input parset prefix (d :: ds)
              (empty_state settings)) as [st0 |] eqn:Hsteps;
    [| discriminate].
  cbn [mbind outcome_bind] in Hrun.
  apply InitializePredictSteps_frame in Hsteps
    as (Hset & Hsolver & _ & Hdata & Hmodel & Hevents & Hs & Hi & Ha & Hc).
  cbn in Hset, Hsolver, Hdata, Hmodel, Hevents, Hs, Hi, Ha, Hc.
  assert (Hlock : lockstep st0 0).
  { unfold lockstep. rewrite Hs, Hi, Ha, Hc. repeat split. }
  destruct (only_predict settings) eqn:Hpredict; cbn [negb] in Hrun.
  - injection Hrun as <-.
    repeat split; try assumption; try congruence; apply Hlock.
  - destruct (CreateBdaSolver settings parset prefix) as [solver |];
      [| discriminate].
    cbn [mbind outcome_bind] in Hrun.
    destruct (check_constraint_solvers (ConstraintSolvers solver))
      as [[] |] eqn:Hcheck; [| discriminate].
    cbn [mbind outcome_bind] in Hrun.
    destruct (new_SolutionWriter (h5parm_name settings)) as [writer |];
      [| discriminate].
    cbn [mbind outcome_bind] in Hrun. injection Hrun as <-.
    apply check_constraint_solvers_Ok in Hcheck.
    cbn. split; [exact Hset |]. split; [congruence |].
    split; [congruence |].
    split; [intros _; exists solver; split; [reflexivity | exact Hcheck] |].
    split; [exact Hdata |]. split; [exact Hmodel |].
    split; [exact Hevents |]. exact Hlock.
Qed.

Lemma construct_lockstep input parset prefix st :
  construct input parset prefix = Ok st -> lockstep st 0.
Proof.
  intros Hrun.
  destruct (new_Settings parset prefix) as [settings |] eqn:Hsettings.
  - apply (construct_Ok input parset prefix settings st Hsettings Hrun).
  - unfold construct in Hrun. rewrite Hsettings in Hrun. discriminate.
Qed.

(** C8. Construction fails with an invalid-argument error when no
    direction is configured; when solving is enabled and the created
    solver has a constraint solver with a constraint, it fails with a
    runtime error; a step that was constructed has directions, has
    processed nothing, and its solver, present exactly when solving is
    enabled, carries no constraint. *)
Theorem C8_constructor_fails_fast input parset prefix settings :
  new_Settings parset prefix = Ok settings ->
  (directions settings = [] ->
   exists what,
     construct input parset prefix = Fail (InvalidArgument what))
  /\ (forall st solver,
        directions settings <> [] ->
        only_predict settings = false ->
        InitializePredictSteps input parset prefix (directions settings)
          (empty_state settings) = Ok st ->
        CreateBdaSolver settings parset prefix = Ok solver ->
        Exists (fun constraint_solver =>
                  GetConstraints constraint_solver <> [])
          (ConstraintSolvers solver) ->
        exists what,
          construct input parset prefix = Fail (RuntimeError what))
  /\ (forall st,
        construct input parset prefix = Ok st ->
        settings_ st = settings
        /\ directions settings <> []
        /\ (only_predict settings = true -> solver_ st = None)
        /\ (only_predict settings = false ->
            exists solver,
              solver_ st = Some solver
              /\ Forall (fun constraint_solver =>
                           GetConstraints constraint_solver = [])
                   (ConstraintSolvers solver))
        /\ data_buffers_ st = [] /\ model_buffers_ st = []
        /\ events_ st = [] /\ lockstep st 0).
Proof.
  intros Hsettings.
  split; [| split].
  - unfold construct. rewrite Hsettings. cbn [mbind outcome_bind].
    intros ->. eexists. reflexivity.
  - unfold construct. rewrite Hsettings. cbn [mbind outcome_bind].
    intros st solver Hdirs Hsolve Hsteps Hcreate Hconstraint.
    destruct (directions settings) as [| d ds] eqn:Ed; [congruence |].
    rewrite Hsteps. cbn [mbind outcome_bind].
    rewrite Hsolve. cbn [negb]. rewrite Hcreate. cbn [mbind outcome_bind].
    destruct (check_constraint_solvers_Fail _ Hconstraint) as [what ->].
    exists what. reflexivity.
  - intros st. apply construct_Ok. exact Hsettings.
Qed.

End ConstructorFacts.

(* ===================================================================== *)
(** * Properties of the flagging policy                                    *)
(* ===================================================================== *)

Section FlaggingFacts.

Import BdaDdeCal.

Context `{E : Externals}.

Lemma map_weights_related (P : double -> double -> Prop)
    (f : list double -> list double) results :
  (forall weights, Forall2 P weights (f weights)) ->
  weights_related P results (map_weights f results).
Proof.
  intros Hf. unfold weights_related, map_weights.
  induction results as [| constraint_results results IH]; cbn [map].
  - constructor.
  - constructor; [| exact IH].
    clear IH. induction constraint_results as [| r rs IHr]; cbn [map].
    + constructor.
    + constructor; [| exact IHr]. cbn. repeat split. apply Hf.
Qed.

Lemma Forall2_map_self {A} (P : A -> A -> Prop) (f : A -> A) l :
  (forall x, P x (f x)) -> Forall2 P l (map f l).
Proof.
  intros Hf. induction l as [| x l IH]; cbn [map]; constructor; auto.
Qed.

Lemma Forall2_replicate_self {A} (P : A -> A -> Prop) (y : A) l :
  (forall x, P x y) -> Forall2 P l (replicate (length l) y).
Proof.
  intros Hf. induction l as [| x l IH]; cbn; constructor; auto.
Qed.

Lemma exceeds_max_iterations_spec solver iterations :
  exceeds_max_iterations solver iterations = true
  <-> SolverBase.GetMaxIterations (base solver) < iterations.
Proof. unfold exceeds_max_iterations. apply Z.ltb_lt. Qed.

Lemma std_max_zero w :
  (negative w -> std_max w d0 = d0) /\ (~ negative w -> std_max w d0 = w).
Proof.
  unfold negative, std_max. destruct (dlt w d0); split; congruence.
Qed.

Lemma flag_weights_diverged_only settings solver result :
  flag_unconverged settings = true ->
  SolverBase.GetMaxIterations (base solver) < SolverBase.iterations result ->
  flag_diverged_only settings = true ->
  weights_related
    (fun w w' => (negative w -> w' = d0) /\ (~ negative w -> w' = w))
    (SolverBase.results result) (flag_weights settings solver result).
Proof.
  unfold flag_weights. intros -> Hmax ->.
  apply exceeds_max_iterations_spec in Hmax. rewrite Hmax. cbn [andb].
  apply map_weights_related. intros weights.
  apply Forall2_map_self. apply std_max_zero.
Qed.

Lemma flag_weights_all settings solver result :
  flag_unconverged settings = true ->
  SolverBase.GetMaxIterations (base solver) < SolverBase.iterations result ->
  flag_diverged_only settings = false ->
  weights_related (fun _ w' => w' = d0)
    (SolverBase.results result) (flag_weights settings solver result).
Proof.
  unfold flag_weights. intros -> Hmax ->.
  apply exceeds_max_iterations_spec in Hmax. rewrite Hmax. cbn [andb].
  apply map_weights_related. intros weights.
  apply Forall2_replicate_self. reflexivity.
Qed.

Lemma flag_weights_reset settings solver result :
  flag_unconverged settings = false
  \/ SolverBase.iterations result
     <= SolverBase.GetMaxIterations (base solver) ->
  weights_related
    (fun w w' => (negative w -> w' = d1) /\ (~ negative w -> w' = w))
    (SolverBase.results result) (flag_weights settings solver result).
Proof.
  unfold flag_weights. intros Hoff.
  assert (Hcond : flag_unconverged settings
                  && exceeds_max_iterations solver
                       (SolverBase.iterations result) = false).
  { destruct Hoff as [-> | Hle]; [reflexivity |].
    apply andb_false_intro2. unfold exceeds_max_iterations.
    apply Z.ltb_ge. exact Hle. }
  rewrite Hcond.
  apply map_weights_related. intros weights.
  apply Forall2_map_self. intros w. unfold negative.
  destruct (dlt w d0); split; congruence.
Qed.

(** C2. When flagging of unconverged solutions is enabled and the
    iteration count exceeds the maximum: with "diverged only", the
    negative weights become zero and every other weight is unchanged;
    without it, every weight becomes zero. Otherwise the negative weights
    become one and every other weight is unchanged. Nothing but weights
    is touched. *)
Theorem C2_flagging_policy settings solver result :
  let max_iterations := SolverBase.GetMaxIterations (base solver) in
  let before := SolverBase.results result in
  let after := flag_weights settings solver result in
  (flag_unconverged settings = true ->
   max_iterations < SolverBase.iterations result ->
   flag_diverged_only settings = true ->
   weights_related
     (fun w w' => (negative w -> w' = d0) /\ (~ negative w -> w' = w))
     before after)
  /\ (flag_unconverged settings = true ->
      max_iterations < SolverBase.iterations result ->
      flag_diverged_only settings = false ->
      weights_related (fun _ w' => w' = d0) before after)
  /\ (flag_unconverged settings = false
      \/ SolverBase.iterations result <= max_iterations ->
      weights_related
        (fun w w' => (negative w -> w' = d1) /\ (~ negative w -> w' = w))
        before after).
Proof.
  cbv zeta. split; [| split].
  - apply flag_weights_diverged_only.
  - apply flag_weights_all.
  - apply flag_weights_reset.
Qed.

End FlaggingFacts.

(* ===================================================================== *)
(** * Properties of the initial solutions                                  *)
(* ===================================================================== *)

Section InitialSolutionFacts.

Import BdaDdeCal.

Context `{E : Externals}.

Lemma assert_true c : c = true -> assert NDEBUG c = Ok tt.
Proof. intros ->. unfold assert. destruct NDEBUG; reflexivity. Qed.

Lemma std_copy_same_length {A} (src dst : list A) :
  length src = length dst -> std_copy src dst = Ok src.
Proof.
  intros Hlen. unfold std_copy. rewrite decide_True by lia.
  rewrite drop_ge by lia. now rewrite app_nil_r.
Qed.

Lemma copy_blocks_same_shape current prev :
  Forall2 (fun c p => length c = length p) current prev ->
  copy_blocks current prev = Ok prev.
Proof.
  induction 1 as [| c p current prev Hlen _ IH]; cbn [copy_blocks].
  - reflexivity.
  - rewrite assert_true by (apply Nat.eqb_eq; exact Hlen).
    cbn [mbind outcome_bind].
    rewrite std_copy_same_length by (symmetry; exact Hlen).
    cbn [mbind outcome_bind]. rewrite IH. reflexivity.
Qed.

Lemma store_app {A} (done mid : list A) (j : nat) (x : A) :
  (j < length mid)%nat ->
  store (length done + j) x (done ++ mid) = Ok (done ++ <[j := x]> mid).
Proof.
  intros Hj. unfold store. rewrite length_app, decide_True by lia.
  rewrite insert_app_r. reflexivity.
Qed.

Lemma unity_loop_spec (r : nat) :
  forall done rest todo,
    length rest = (4 * r)%nat -> (r <= todo)%nat ->
    unity_loop todo (length done) (done ++ rest)
    = Ok (done ++ unit_matrices r).
Proof.
  induction r as [| r IH]; intros done rest todo Hlen Htodo.
  - destruct rest; [| discriminate]. destruct todo; [reflexivity |].
    cbn [unity_loop]. rewrite decide_False by (rewrite length_app; cbn; lia).
    reflexivity.
  - destruct todo as [| todo]; [lia |].
    destruct rest as [| a [| b [| c [| d rest]]]]; cbn in Hlen; try lia.
    cbn [unity_loop].
    rewrite decide_True by (rewrite length_app; cbn; lia).
    rewrite store_app by (cbn; lia). cbn [mbind outcome_bind].
    rewrite store_app by (cbn; lia). cbn [mbind outcome_bind].
    rewrite store_app by (cbn; lia). cbn [mbind outcome_bind].
    rewrite store_app by (cbn; lia). cbn [mbind outcome_bind].
    cbn [insert list_insert].
    change (done ++ of_real d1 :: of_real d0 :: of_real d0 :: of_real d1 :: rest)
      with (done ++ [of_real d1; of_real d0; of_real d0; of_real d1] ++ rest).
    rewrite app_assoc.
    replace (length done + 4)%nat
      with (length (done ++ [of_real d1; of_real d0; of_real d0; of_real d1]))
      by (rewrite length_app; reflexivity).
    rewrite IH by lia.
    rewrite <- app_assoc. reflexivity.
Qed.

Lemma unity_blocks_spec current :
  Forall whole_matrices current ->
  unity_blocks current
  = Ok (map (fun block => unit_matrices (length block / 4)) current).
Proof.
  induction 1 as [| block current [k Hk] _ IH]; cbn [unity_blocks map].
  - reflexivity.
  - pose proof (unity_loop_spec k [] block (length block) Hk ltac:(lia)) as Hl.
    cbn [app length] in Hl. rewrite Hl. cbn [mbind outcome_bind].
    rewrite IH. cbn [mbind outcome_bind].
    rewrite Hk, Nat.mul_comm, Nat.div_mul by lia. reflexivity.
Qed.

Lemma length_unit_matrices k : length (unit_matrices k) = (4 * k)%nat.
Proof.
  unfold unit_matrices. induction k as [| k IH]; [reflexivity |].
  simpl in IH |- *. rewrite IH. lia.
Qed.

Lemma unity_blocks_neutral current :
  Forall whole_matrices current ->
  Forall2 (fun c b => neutral_block 4 (length c) b) current
    (map (fun block => unit_matrices (length block / 4)) current).
Proof.
  induction 1 as [| block current [k Hk] _ IH]; cbn [map]; constructor.
  - unfold neutral_block. rewrite Z.eqb_refl. split; [| reflexivity].
    rewrite length_unit_matrices, Hk.
    replace (4 * k / 4)%nat with k; [reflexivity |].
    rewrite Nat.mul_comm, Nat.div_mul; lia.
  - exact IH.
Qed.

Lemma fill_blocks_neutral n_pol current :
  n_pol <> 4 ->
  Forall2 (fun c b => neutral_block n_pol (length c) b) current
    (fill_blocks current).
Proof.
  intros Hpol. unfold fill_blocks.
  induction current as [| block current IH]; cbn [map]; constructor.
  - unfold neutral_block. rewrite length_replicate. split; [reflexivity |].
    destruct (Z.eqb_spec n_pol 4); [contradiction |].
    apply Forall_replicate. reflexivity.
  - exact IH.
Qed.

Lemma set_last_solution {A} (previous : list A) (current x : A) :
  <[pred (length (previous ++ [current])) := x]> (previous ++ [current])
  = previous ++ [x].
Proof.
  rewrite length_app. cbn [length].
  replace (pred (length previous + 1)) with (length previous + 0)%nat by lia.
  rewrite insert_app_r. reflexivity.
Qed.

Lemma previous_solution {A} (previous : list A) (current prev : A) :
  last previous = Some prev ->
  (previous ++ [current]) !! (length (previous ++ [current]) - 2)%nat
  = Some prev.
Proof.
  intros Hlast. apply last_Some in Hlast as [l ->].
  rewrite !length_app. cbn [length].
  replace (length l + 1 + 1 - 2)%nat with (length l) by lia.
  rewrite <- app_assoc. apply list_lookup_middle. reflexivity.
Qed.

(** The neutral branch, whatever led to it. *)
Lemma neutral_start solver current :
  (NSolutionPolarizations solver = 4 -> Forall whole_matrices current) ->
  exists initial,
    (if NSolutionPolarizations solver =? 4
     then unity_blocks current
     else Ok (fill_blocks current)) = Ok initial
    /\ Forall2
         (fun c b => neutral_block (NSolutionPolarizations solver) (length c) b)
         current initial.
Proof.
  intros Hwhole. destruct (Z.eqb_spec (NSolutionPolarizations solver) 4) as [Hp | Hp].
  - specialize (Hwhole Hp). eexists. split.
    + apply unity_blocks_spec. exact Hwhole.
    + rewrite Hp. apply unity_blocks_neutral. exact Hwhole.
  - eexists. split; [reflexivity |]. apply fill_blocks_neutral. exact Hp.
Qed.

Lemma size_minus_two {A} (previous : list A) (current : A) :
  (length (previous ++ [current]) - 2 = length previous - 1)%nat.
Proof. rewrite length_app. cbn [length]. lia. Qed.

Lemma propagating_start st previous current prev :
  solutions_ st = previous ++ [current] ->
  last previous = Some prev ->
  Forall2 (fun c p => length c = length p) current prev ->
  (prev_solution ← defined (solutions_ st !! (length (solutions_ st) - 2)%nat);
   assert NDEBUG (length current =? length prev_solution)%nat;;
   copy_blocks current prev_solution) = Ok prev.
Proof.
  intros Hsol Hlast Hshape. rewrite Hsol.
  rewrite (previous_solution previous current prev Hlast).
  cbn [defined mbind outcome_bind].
  rewrite assert_true
    by (apply Nat.eqb_eq; eapply Forall2_length; exact Hshape).
  cbn [mbind outcome_bind]. apply copy_blocks_same_shape. exact Hshape.
Qed.

(** C3. With at least one interval solved before, propagation enabled
    and the previous interval not disqualified (converged-only off, or
    its iteration count within the maximum), the current interval starts
    from the previous interval's final solution, block by block. When
    the previous interval exceeded the maximum under converged-only
    propagation, for the first interval, and with propagation disabled,
    it starts from the neutral value: unit 2x2 matrices for four
    polarizations, ones otherwise. *)
Theorem C3_initial_solution st previous current :
  solutions_ st = previous ++ [current] ->
  (forall prev,
     last previous = Some prev ->
     propagate_solutions (settings_ st) = true ->
     propagate_converged_only (settings_ st) = false
     \/ (exists solver previous_iterations,
           solver_ st = Some solver
           /\ iterations_ st !! (length previous - 1)%nat
              = Some previous_iterations
           /\ previous_iterations
              <= SolverBase.GetMaxIterations (base solver)) ->
     Forall2 (fun c p => length c = length p) current prev ->
     InitializeCurrentSolutions st
     = Ok (set_solutions st (previous ++ [prev])))
  /\ (forall solver,
        solver_ st = Some solver ->
        previous = []
        \/ propagate_solutions (settings_ st) = false
        \/ (propagate_solutions (settings_ st) = true
            /\ propagate_converged_only (settings_ st) = true
            /\ exists previous_iterations,
                 iterations_ st !! (length previous - 1)%nat
                 = Some previous_iterations
                 /\ SolverBase.GetMaxIterations (base solver)
                    < previous_iterations) ->
        (NSolutionPolarizations solver = 4 ->
         Forall whole_matrices current) ->
        exists initial,
          InitializeCurrentSolutions st
          = Ok (set_solutions st (previous ++ [initial]))
          /\ Forall2
               (fun c b =>
                  neutral_block (NSolutionPolarizations solver) (length c) b)
               current initial).
Proof.
  intros Hsol. split.
  - intros prev Hlast Hprop Hok Hshape.
    pose proof (propagating_start st previous current prev Hsol Hlast Hshape)
      as Hcopy.
    unfold InitializeCurrentSolutions. cbv zeta.
    assert (Hsize : (1 <? length (solutions_ st))%nat = true).
    { apply Nat.ltb_lt. rewrite Hsol. apply last_Some in Hlast as [l ->].
      rewrite !length_app. cbn. lia. }
    rewrite Hsize, Hprop. cbn [andb].
    replace (last (solutions_ st)) with (Some current)
      by (rewrite Hsol, last_snoc; reflexivity).
    cbn [defined mbind outcome_bind].
    assert (Hdecide :
      (if propagate_converged_only (settings_ st)
       then
         previous_iterations ←
           defined (iterations_ st !! (length (solutions_ st) - 2)%nat);
         solver ← defined (solver_ st);
         Ok (negb (exceeds_max_iterations solver previous_iterations))
       else Ok true) = Ok true).
    { destruct (propagate_converged_only (settings_ st)); [| reflexivity].
      destruct Hok as [Hoff | (solver & its & Hsolver & Hits & Hle)];
        [discriminate |].
      rewrite Hsol, size_minus_two, Hits, Hsolver.
      cbn [defined mbind outcome_bind].
      unfold exceeds_max_iterations.
      replace (SolverBase.GetMaxIterations (base solver) <? its) with false
        by (symmetry; apply Z.ltb_ge; exact Hle).
      reflexivity. }
    rewrite Hdecide. cbn [mbind outcome_bind].
    rewrite Hcopy. cbn [mbind outcome_bind].
    rewrite Hsol at 1 2. rewrite set_last_solution. reflexivity.
  - intros solver Hsolver Hwhy Hwhole.
    destruct (neutral_start solver current Hwhole) as (initial & Hinit & Hn).
    exists initial. split; [| exact Hn].
    unfold InitializeCurrentSolutions. cbv zeta.
    replace (last (solutions_ st)) with (Some current)
      by (rewrite Hsol, last_snoc; reflexivity).
    cbn [defined mbind outcome_bind].
    assert (Hdecide :
      (if (1 <? length (solutions_ st))%nat
          && propagate_solutions (settings_ st)
          && propagate_converged_only (settings_ st)
       then
         previous_iterations ←
           defined (iterations_ st !! (length (solutions_ st) - 2)%nat);
         solver ← defined (solver_ st);
         Ok (negb (exceeds_max_iterations solver previous_iterations))
       else
         Ok ((1 <? length (solutions_ st))%nat
             && propagate_solutions (settings_ st))) = Ok false).
    { destruct Hwhy as [-> | [Hoff | (Hon & Honly & its & Hits & Hgt)]].
      - rewrite Hsol. reflexivity.
      - rewrite Hoff, andb_false_r. reflexivity.
      - destruct (1 <? length (solutions_ st))%nat eqn:Hsize;
          [| reflexivity].
        rewrite Hon, Honly. cbn [andb].
        rewrite Hsol, size_minus_two, Hits, Hsolver.
        cbn [defined mbind outcome_bind].
        unfold exceeds_max_iterations.
        replace (SolverBase.GetMaxIterations (base solver) <? its) with true
          by (symmetry; apply Z.ltb_lt; exact Hgt).
        reflexivity. }
    rewrite Hdecide. cbn [mbind outcome_bind].
    rewrite Hsolver. cbn [defined mbind outcome_bind].
    rewrite Hinit. cbn [mbind outcome_bind].
    rewrite Hsol at 1 2. rewrite set_last_solution. reflexivity.
Qed.

End InitialSolutionFacts.

(* ===================================================================== *)
(** * Properties of the per-interval bookkeeping                           *)
(* ===================================================================== *)

Section BookkeepingFacts.

Import BdaDdeCal.

Context `{E : Externals}.

Lemma bind_Ok {A B} (m : outcome A) (k : A -> outcome B) (b : B) :
  m ≫= k = Ok b <-> exists a, m = Ok a /\ k a = Ok b.
Proof.
  destruct m as [a | e]; cbn [mbind outcome_bind]; split.
  - intros Hk. exists a. split; [reflexivity | exact Hk].
  - intros (a' & [= <-] & Hk). exact Hk.
  - discriminate.
  - intros (a' & Ha & _). discriminate.
Qed.

Lemma defined_Ok {A} (o : option A) (a : A) :
  defined o = Ok a -> o = Some a.
Proof. destruct o; cbn; congruence. Qed.

Lemma InitializeCurrentSolutions_frame st st' :
  InitializeCurrentSolutions st = Ok st' ->
  exists current_solution,
    st' = set_solutions st
            (<[pred (length (solutions_ st)) := current_solution]>
               (solutions_ st)).
Proof.
  unfold InitializeCurrentSolutions. cbv zeta. intros Hrun.
  apply bind_Ok in Hrun as (current & _ & Hrun).
  apply bind_Ok in Hrun as (propagate & _ & Hrun).
  apply bind_Ok in Hrun as (solution & _ & Hrun).
  injection Hrun as <-. exists solution. reflexivity.
Qed.

Lemma nonempty_map_weights f results :
  existsb (fun constraint_results => negb (is_empty constraint_results))
    (map_weights f results)
  = existsb (fun constraint_results => negb (is_empty constraint_results))
      results.
Proof.
  unfold map_weights. induction results as [| r results IH]; [reflexivity |].
  cbn [map existsb]. rewrite IH. destruct r; reflexivity.
Qed.

Lemma nonempty_flag_weights settings solver result :
  existsb (fun constraint_results => negb (is_empty constraint_results))
    (flag_weights settings solver result)
  = existsb (fun constraint_results => negb (is_empty constraint_results))
      (SolverBase.results result).
Proof.
  unfold flag_weights.
  destruct (_ && _); [destruct (flag_diverged_only settings) |];
    apply nonempty_map_weights.
Qed.

Lemma all_empty_existsb (results : list (list Constraint.Result)) :
  Forall (fun constraint_results => constraint_results = []) results ->
  existsb (fun constraint_results => negb (is_empty constraint_results))
    results = false.
Proof.
  induction 1 as [| r results -> _ IH]; [reflexivity |]. exact IH.
Qed.

Lemma some_nonempty_existsb (results : list (list Constraint.Result)) :
  Exists (fun constraint_results => constraint_results <> []) results ->
  existsb (fun constraint_results => negb (is_empty constraint_results))
    results = true.
Proof.
  induction 1 as [r results Hr | r results _ IH]; cbn [existsb].
  - destruct r; [congruence | reflexivity].
  - rewrite IH. apply orb_true_r.
Qed.

(** What one call of [SolveCurrentInterval] does to the members. *)
Lemma SolveCurrentInterval_step st st' :
  SolveCurrentInterval st = Ok st' ->
  exists solver data initial time result solved entry,
    solver_ st = Some solver
    /\ Solve solver data initial time = Ok (result, solved)
    /\ length (solutions_ st') = S (length (solutions_ st))
    /\ iterations_ st' = iterations_ st ++ [SolverBase.iterations result]
    /\ approx_iterations_ st'
       = approx_iterations_ st ++ [SolverBase.constraint_iterations result]
    /\ constraint_solutions_ st' = constraint_solutions_ st ++ [entry]
    /\ entry
       = (if existsb (fun constraint_results =>
                        negb (is_empty constraint_results))
               (SolverBase.results result)
          then flag_weights (settings_ st) solver result
          else []).
Proof.
  unfold SolveCurrentInterval. cbv zeta. intros Hrun.
  apply bind_Ok in Hrun as (solver & Hsolver & Hrun).
  apply bind_Ok in Hrun as (solver_buffer & _ & Hrun).
  apply bind_Ok in Hrun as ([] & _ & Hrun).
  apply bind_Ok in Hrun as (st1 & Hinit & Hrun).
  apply bind_Ok in Hrun as (initial & _ & Hrun).
  apply bind_Ok in Hrun as ([result solved] & Hsolve & Hrun).
  apply bind_Ok in Hrun as ([] & _ & Hrun).
  apply bind_Ok in Hrun as ([] & _ & Hrun).
  apply bind_Ok in Hrun as ([] & _ & Hrun).
  injection Hrun as <-.
  apply InitializeCurrentSolutions_frame in Hinit as [current ->].
  apply defined_Ok in Hsolver.
  do 7 eexists. split; [exact Hsolver |]. split; [exact Hsolve |].
  cbn -[flag_weights wrap64 int_of_size_t double_of_Z replicate].
  destruct (subtract (settings_ st));
    cbn -[flag_weights wrap64 int_of_size_t double_of_Z replicate];
    rewrite nonempty_flag_weights, !length_insert, length_app;
    (split; [cbn [length]; lia |]); repeat (split; [reflexivity |]);
    reflexivity.
Qed.

Lemma SolveCurrentInterval_lockstep st st' n :
  lockstep st n -> SolveCurrentInterval st = Ok st' -> lockstep st' (S n).
Proof.
  intros (Hs & Hi & Ha & Hc) Hrun.
  apply SolveCurrentInterval_step in Hrun
    as (solver & data & initial & time & result & solved & entry
        & _ & _ & Hs' & Hi' & Ha' & Hc' & _).
  unfold lockstep. rewrite Hs', Hi', Ha', Hc', !length_app. cbn [length].
  repeat split; lia.
Qed.

Lemma reachable_lockstep st n : reachable st n -> lockstep st n.
Proof.
  induction 1 as [input parset prefix st Hnew
                 | st st' n _ IH (Hs & Hi & Ha & Hc)
                 | st st' n _ IH Hrun].
  - eapply construct_lockstep. exact Hnew.
  - unfold lockstep in *. rewrite Hs, Hi, Ha, Hc. exact IH.
  - eapply SolveCurrentInterval_lockstep; eassumption.
Qed.

(** C10. Every completed [SolveCurrentInterval] call adds exactly one
    entry to each of the four per-interval vectors, so that in every
    state reached from construction all four have one entry per solved
    interval. The entry added to the constraint solutions is the flagged
    result when some constraint returned a non-empty result, and an
    empty entry when all of them returned empty results. *)
Theorem C10_bookkeeping_lockstep :
  (forall st st' n,
     lockstep st n ->
     SolveCurrentInterval st = Ok st' ->
     lockstep st' (S n)
     /\ exists solver data initial time result solved entry,
          solver_ st = Some solver
          /\ Solve solver data initial time = Ok (result, solved)
          /\ constraint_solutions_ st' = constraint_solutions_ st ++ [entry]
          /\ (Forall (fun constraint_results => constraint_results = [])
                (SolverBase.results result) ->
              entry = [])
          /\ (Exists (fun constraint_results => constraint_results <> [])
                (SolverBase.results result) ->
              entry = flag_weights (settings_ st) solver result))
  /\ (forall st n, reachable st n -> lockstep st n).
Proof.
  split; [| exact reachable_lockstep].
  intros st st' n Hlock Hrun.
  split; [eapply SolveCurrentInterval_lockstep; eassumption |].
  apply SolveCurrentInterval_step in Hrun
    as (solver & data & initial & time & result & solved & entry
        & Hsolver & Hsolve & _ & _ & _ & Hc & Hentry).
  exists solver, data, initial, time, result, solved, entry.
  split; [exact Hsolver |]. split; [exact Hsolve |]. split; [exact Hc |].
  split.
  - intros Hempty. rewrite Hentry, all_empty_existsb by exact Hempty.
    reflexivity.
  - intros Hsome. rewrite Hentry, some_nonempty_existsb by exact Hsome.
    reflexivity.
Qed.

End BookkeepingFacts.

(* ===================================================================== *)
(** * Properties of the only-predict mode                                  *)
(* ===================================================================== *)

Section OnlyPredictFacts.

Import BdaDdeCal.

Context `{E : Externals}.

#[local] Abbreviation buffer := (BDABuffer.t BufferMeta).

Lemma add_loop_spec (other_data : list fcomplex) :
  forall rest done,
    (length done + length rest <= length other_data)%nat ->
    add_loop (length rest) (length done) (done ++ rest) other_data
    = Ok (done ++ zip_with fcomplex_add rest (drop (length done) other_data)).
Proof.
  induction rest as [| x rest IH]; intros done Hlen; cbn [length add_loop].
  - cbn. reflexivity.
  - cbn [length] in Hlen.
    rewrite list_lookup_middle by reflexivity.
    cbn [defined mbind outcome_bind].
    destruct (other_data !! length done) as [y |] eqn:Hy;
      [| apply lookup_ge_None in Hy; lia].
    cbn [defined mbind outcome_bind].
    replace (<[length done := fcomplex_add x y]> (done ++ x :: rest))
      with ((done ++ [fcomplex_add x y]) ++ rest).
    2:{ rewrite <- app_assoc. cbn [app].
        rewrite insert_app_r_alt by lia. rewrite Nat.sub_diag. reflexivity. }
    replace (S (length done)) with (length (done ++ [fcomplex_add x y]))
      by (rewrite length_app; cbn; lia).
    rewrite IH by (rewrite length_app; cbn; lia).
    rewrite <- app_assoc. cbn [app].
    rewrite (drop_S _ _ _ Hy). cbn [zip_with].
    rewrite length_app. cbn [length].
    replace (length done + 1)%nat with (S (length done)) by lia.
    reflexivity.
Qed.

Lemma add_loop_same_size data other_data :
  length other_data = length data ->
  add_loop (length data) 0 data other_data
  = Ok (zip_with fcomplex_add data other_data).
Proof.
  intros Hlen.
  exact (add_loop_spec other_data data [] ltac:(cbn; lia)).
Qed.

Lemma add_directions_spec data_size others :
  forall data,
    length data = data_size ->
    Forall (fun other => BDABuffer.GetNumberOfElements other = data_size)
      others ->
    add_directions data data_size (map Some others)
    = Ok (foldl (fun data other =>
                   zip_with fcomplex_add data (BDABuffer.data other))
            data others).
Proof.
  induction others as [| other others IH]; intros data Hdata Hall;
    cbn [map add_directions foldl].
  - reflexivity.
  - apply Forall_cons_1 in Hall as [Hother Hall].
    cbn [defined mbind outcome_bind].
    rewrite assert_true by (apply Nat.eqb_eq; exact Hother).
    cbn [mbind outcome_bind]. rewrite <- Hdata.
    rewrite add_loop_same_size
      by (unfold BDABuffer.GetNumberOfElements in Hother; lia).
    cbn [mbind outcome_bind]. rewrite Hdata.
    apply IH; [| exact Hall].
    rewrite length_zip_with.
    unfold BDABuffer.GetNumberOfElements in Hother. lia.
Qed.

Lemma add_directions_sizes data_size others :
  NDEBUG = false ->
  forall data sum,
    add_directions data data_size (map Some others) = Ok sum ->
    Forall (fun other => BDABuffer.GetNumberOfElements other = data_size)
      others.
Proof.
  intros Hdebug.
  induction others as [| other others IH]; intros data sum Hrun.
  - constructor.
  - cbn [map add_directions defined mbind outcome_bind] in Hrun.
    unfold assert in Hrun. rewrite Hdebug in Hrun.
    destruct (BDABuffer.GetNumberOfElements other =? data_size)%nat eqn:Hsize;
      [| discriminate].
    cbn [mbind outcome_bind] in Hrun.
    apply bind_Ok in Hrun as (data' & _ & Hrun).
    constructor; [apply Nat.eqb_eq; exact Hsize | exact (IH _ _ Hrun)].
Qed.

Lemma pointers_complete (c : buffer * list buffer) :
  forallb pointer_is_set (pointers c) = true.
Proof.
  unfold pointers. cbn [forallb pointer_is_set andb].
  induction (snd c) as [| b l IH]; [reflexivity | exact IH].
Qed.

Lemma predict_front_sum (c : buffer * list buffer) st :
  same_sizes (fst c) (snd c) ->
  predict_front (pointers c) st = Ok (add_event st (forwarded_sum c)).
Proof.
  intros Hsizes. unfold predict_front, pointers.
  cbn [defined mbind outcome_bind].
  rewrite add_directions_spec; [reflexivity | reflexivity | exact Hsizes].
Qed.

Lemma predict_front_sizes (c : buffer * list buffer) st st' :
  NDEBUG = false ->
  predict_front (pointers c) st = Ok st' ->
  same_sizes (fst c) (snd c).
Proof.
  intros Hdebug Hrun. unfold predict_front, pointers in Hrun.
  cbn [defined mbind outcome_bind] in Hrun.
  apply bind_Ok in Hrun as (sum & Hsum & _).
  exact (add_directions_sizes _ _ Hdebug _ _ Hsum).
Qed.

Lemma set_events_same st : set_events st (events_ st) = st.
Proof. destruct st. reflexivity. Qed.

Lemma set_model_buffers_same st :
  set_model_buffers st (model_buffers_ st) = st.
Proof. destruct st. reflexivity. Qed.

(** The first loop in only-predict mode, for a queue that starts with
    the complete fronts [complete]. *)
Lemma complete_loop_predict complete rest :
  match rest with
  | [] => True
  | front :: _ => forallb pointer_is_set front = false
  end ->
  Forall (fun c => same_sizes (fst c) (snd c)) complete ->
  forall st,
    only_predict (settings_ st) = true ->
    complete_loop (map pointers complete ++ rest) st
    = Ok (match complete with
          | [] => st
          | _ :: _ =>
              set_model_buffers
                (set_events st (events_ st ++ map forwarded_sum complete))
                rest
          end).
Proof.
  intros Hrest.
  induction 1 as [| c complete Hc _ IH]; intros st Hpredict.
  - cbn [map app]. destruct rest as [| front rest]; [reflexivity |].
    cbn [complete_loop]. rewrite Hrest. reflexivity.
  - cbn [map app complete_loop].
    rewrite pointers_complete, Hpredict, (predict_front_sum c st Hc).
    cbn [mbind outcome_bind].
    rewrite IH by (destruct st; exact Hpredict).
    destruct complete; destruct st; cbn; [reflexivity |].
    rewrite <- app_assoc. reflexivity.
Qed.

Lemma complete_loop_sizes complete rest :
  NDEBUG = false ->
  forall st st',
    only_predict (settings_ st) = true ->
    complete_loop (map pointers complete ++ rest) st = Ok st' ->
    Forall (fun c => same_sizes (fst c) (snd c)) complete.
Proof.
  intros Hdebug.
  induction complete as [| c complete IH]; intros st st' Hpredict Hrun.
  - constructor.
  - cbn [map app complete_loop] in Hrun.
    rewrite pointers_complete, Hpredict in Hrun.
    apply bind_Ok in Hrun as (st1 & Hfront & Hrun).
    constructor.
    + exact (predict_front_sizes c st st1 Hdebug Hfront).
    + refine (IH _ _ _ Hrun).
      unfold predict_front, pointers in Hfront.
      cbn [defined mbind outcome_bind] in Hfront.
      apply bind_Ok in Hfront as (sum & _ & [= <-]).
      destruct st. exact Hpredict.
Qed.

Lemma forwards_only_refl st : forwards_only st st.
Proof.
  repeat split. exists []. split; [now rewrite app_nil_r | constructor].
Qed.

Lemma complete_loop_forwards queue :
  forall st st',
    only_predict (settings_ st) = true ->
    complete_loop queue st = Ok st' ->
    forwards_only st st'.
Proof.
  induction queue as [| front queue IH]; intros st st' Hpredict Hrun.
  - injection Hrun as <-. apply forwards_only_refl.
  - cbn [complete_loop] in Hrun.
    destruct (forallb pointer_is_set front);
      [| injection Hrun as <-; apply forwards_only_refl].
    rewrite Hpredict in Hrun.
    apply bind_Ok in Hrun as (st1 & Hfront & Hrun).
    unfold predict_front in Hfront.
    destruct front as [| pointer others]; [discriminate |].
    apply bind_Ok in Hfront as (b0 & _ & Hfront).
    apply bind_Ok in Hfront as (sum & _ & [= <-]).
    apply IH in Hrun; [| destruct st; exact Hpredict].
    destruct Hrun as (Hset & Hsolver & Hbuf & Hdata & Hbook & new & Hev & Hnew).
    destruct st. cbn in *.
    repeat split; try assumption; try apply Hbook.
    eexists. split.
    + rewrite Hev, <- app_assoc. reflexivity.
    + constructor; [exact I | exact Hnew].
Qed.

(** C9. In only-predict mode, with the queue starting with the complete
    fronts [complete] (and [rest] empty or starting with an incomplete
    front): when all directions of each front hold as many elements as
    direction 0, the call forwards, per front and in order, direction
    0's buffer with the element-wise sum of all directions as data, and
    pops these fronts; with assertions enabled, a call that completes
    had fronts whose directions all hold as many elements as direction
    0; and a call that completes has done nothing but forward buffers
    (no solve, no append to a solver buffer). *)
Theorem C9_only_predict_sum st complete rest fuel :
  only_predict (settings_ st) = true ->
  model_buffers_ st = map pointers complete ++ rest ->
  match rest with
  | [] => True
  | front :: _ => forallb pointer_is_set front = false
  end ->
  (Forall (fun c => same_sizes (fst c) (snd c)) complete ->
   ProcessCompleteDirections fuel st
   = Ok (set_model_buffers
           (set_events st (events_ st ++ map forwarded_sum complete))
           rest))
  /\ (NDEBUG = false ->
      forall st',
        ProcessCompleteDirections fuel st = Ok st' ->
        Forall (fun c => same_sizes (fst c) (snd c)) complete)
  /\ (forall st',
        ProcessCompleteDirections fuel st = Ok st' -> forwards_only st st').
Proof.
  intros Hpredict Hqueue Hrest. unfold ProcessCompleteDirections.
  split; [| split].
  - intros Hsizes. rewrite Hqueue.
    rewrite (complete_loop_predict complete rest Hrest Hsizes st Hpredict).
    cbn [mbind outcome_bind].
    destruct complete as [| c complete].
    + rewrite Hpredict. cbn [negb map]. rewrite app_nil_r, set_events_same.
      cbn [map app] in Hqueue. rewrite <- Hqueue, set_model_buffers_same.
      reflexivity.
    + destruct st. cbn in Hpredict. cbn. rewrite Hpredict. reflexivity.
  - intros Hdebug st' Hrun. rewrite Hqueue in Hrun.
    apply bind_Ok in Hrun as (st1 & Hloop & _).
    exact (complete_loop_sizes complete rest Hdebug st st1 Hpredict Hloop).
  - intros st' Hrun.
    apply bind_Ok in Hrun as (st1 & Hloop & Hrun).
    pose proof (complete_loop_forwards _ _ _ Hpredict Hloop) as Hfw.
    destruct Hfw as (Hset & Hfw).
    rewrite Hset, Hpredict in Hrun. cbn [negb] in Hrun.
    injection Hrun as <-. split; [exact Hset | exact Hfw].
Qed.

End OnlyPredictFacts.

(* ===================================================================== *)
(** * The properties at work in the concrete setting                       *)
(* ===================================================================== *)

Section Runs.

Import BdaDdeCal.
Import Demo.

#[local] Existing Instance world.

#[local] Open Scope string_scope.

Example construct_solving :
  exists st,
    construct (E := world) tt solving "ddecal." = Ok st
    /\ solver_ st = Some scalar /\ patches_ st = [["a"]].
Proof. eexists. split; [reflexivity |]. split; reflexivity. Qed.

Lemma C8_constructor_fails_fast_witness :
  new_Settings (Externals := world) constrained "ddecal." = Ok (parsed constrained)
  /\ (exists what,
        construct (E := world) tt no_directions "ddecal." = Fail (InvalidArgument what))
  /\ (exists what,
        construct (E := world) tt constrained "ddecal." = Fail (RuntimeError what))
  /\ (forall st,
        construct (E := world) tt solving "ddecal." = Ok st ->
        exists solver,
          solver_ st = Some solver /\ GetConstraints solver = []).
Proof.
  split; [reflexivity |]. split; [| split].
  - apply (C8_constructor_fails_fast (E := world) tt no_directions "ddecal."
             (parsed no_directions) eq_refl).
    reflexivity.
  - destruct (C8_constructor_fails_fast (E := world) tt constrained "ddecal."
                (parsed constrained) eq_refl) as (_ & Hfail & _).
    eapply Hfail.
    + discriminate.
    + reflexivity.
    + reflexivity.
    + reflexivity.
    + constructor. discriminate.
  - intros st Hst.
    destruct (C8_constructor_fails_fast (E := world) tt solving "ddecal."
                (parsed solving) eq_refl) as (_ & _ & Hok).
    destruct (Hok st Hst) as (_ & _ & _ & Hsolver & _).
    destruct (Hsolver eq_refl) as (solver & Hsome & Hnone).
    exists solver. split; [exact Hsome |].
    apply Forall_cons_1 in Hnone as [Hnone _]. exact Hnone.
Defined.

Example flag_diverged_only_weights :
  map (map Constraint.weights)
    (flag_weights (E := world) (settings_with ["a"] false true true false false) scalar
       gave_up)
  = [[[d0; d_half; d0]]].
Proof. reflexivity. Qed.

Example flag_all_weights :
  map (map Constraint.weights)
    (flag_weights (E := world) (settings_with ["a"] false true false false false) scalar
       gave_up)
  = [[[d0; d0; d0]]].
Proof. reflexivity. Qed.

Example unflagged_weights :
  map (map Constraint.weights)
    (flag_weights (E := world) (settings_with ["a"] false false false false false) scalar
       gave_up)
  = [[[d1; d_half; d0]]].
Proof. reflexivity. Qed.

Lemma C2_flagging_policy_witness :
  SolverBase.GetMaxIterations (base (Externals := world) scalar) < SolverBase.iterations gave_up
  /\ weights_related
       (fun w w' => (negative w -> w' = d0) /\ (~ negative w -> w' = w))
       (SolverBase.results gave_up)
       (flag_weights (E := world) (settings_with ["a"] false true true false false)
          scalar gave_up)
  /\ weights_related (fun _ w' => w' = d0)
       (SolverBase.results gave_up)
       (flag_weights (E := world) (settings_with ["a"] false true false false false)
          scalar gave_up)
  /\ weights_related
       (fun w w' => (negative w -> w' = d1) /\ (~ negative w -> w' = w))
       (SolverBase.results gave_up)
       (flag_weights (E := world) (settings_with ["a"] false false false false false)
          scalar gave_up).
Proof.
  assert (Hmax : SolverBase.GetMaxIterations (base (Externals := world) scalar)
                 < SolverBase.iterations gave_up) by (cbn; lia).
  split; [exact Hmax |]. split; [| split].
  - apply (C2_flagging_policy (E := world)
             (settings_with ["a"] false true true false false) scalar gave_up);
      [reflexivity | exact Hmax | reflexivity].
  - apply (C2_flagging_policy (E := world)
             (settings_with ["a"] false true false false false) scalar gave_up);
      [reflexivity | exact Hmax | reflexivity].
  - apply (C2_flagging_policy (E := world)
             (settings_with ["a"] false false false false false) scalar
             gave_up).
    left. reflexivity.
Defined.

Example propagate_previous_solution :
  InitializeCurrentSolutions (ready propagating scalar [solved_half; fresh2] [3])
  = Ok (ready propagating scalar [solved_half; solved_half] [3]).
Proof. reflexivity. Qed.

Example unconverged_previous_solution :
  InitializeCurrentSolutions
    (ready propagating scalar [solved_half; fresh2] [51])
  = Ok (ready propagating scalar [solved_half; fresh2] [51]).
Proof. reflexivity. Qed.

Example first_interval_full_jones :
  InitializeCurrentSolutions (ready propagating full_jones [fresh8] [])
  = Ok (ready propagating full_jones
          [[[of_real d1; of_real d0; of_real d0; of_real d1;
             of_real d1; of_real d0; of_real d0; of_real d1]]] []).
Proof. reflexivity. Qed.

Lemma C3_initial_solution_witness :
  InitializeCurrentSolutions (ready propagating scalar [solved_half; fresh2] [3])
  = Ok (set_solutions (ready propagating scalar [solved_half; fresh2] [3])
          ([solved_half] ++ [solved_half]))
  /\ (exists initial,
        InitializeCurrentSolutions
          (ready propagating scalar [solved_half; fresh2] [51])
        = Ok (set_solutions
                (ready propagating scalar [solved_half; fresh2] [51])
                ([solved_half] ++ [initial]))
        /\ Forall2 (fun c b => neutral_block 1 (length c) b) fresh2 initial)
  /\ (exists initial,
        InitializeCurrentSolutions (ready propagating full_jones [fresh8] [])
        = Ok (set_solutions (ready propagating full_jones [fresh8] [])
                ([] ++ [initial]))
        /\ Forall2 (fun c b => neutral_block 4 (length c) b) fresh8 initial).
Proof.
  split; [| split].
  - apply (proj1 (C3_initial_solution (E := world)
                    (ready propagating scalar [solved_half; fresh2] [3])
                    [solved_half] fresh2 eq_refl)
             solved_half eq_refl eq_refl).
    + right. exists scalar, 3. split; [reflexivity |].
      split; [reflexivity |]. cbn. lia.
    + repeat constructor.
  - apply (proj2 (C3_initial_solution (E := world)
                    (ready propagating scalar [solved_half; fresh2] [51])
                    [solved_half] fresh2 eq_refl)
             scalar eq_refl).
    + right. right. split; [reflexivity |]. split; [reflexivity |].
      exists 51. split; [reflexivity |]. cbn. lia.
    + discriminate.
  - apply (proj2 (C3_initial_solution (E := world)
                    (ready propagating full_jones [fresh8] [])
                    [] fresh8 eq_refl)
             full_jones eq_refl).
    + left. reflexivity.
    + intros _. constructor; [exists 2%nat; reflexivity | constructor].
Defined.

Example solve_first_interval :
  exists st',
    SolveCurrentInterval (ready propagating scalar [] []) = Ok st'
    /\ solutions_ st' = [fresh2]
    /\ iterations_ st' = [51]
    /\ approx_iterations_ st' = [0]
    /\ map (map (map Constraint.weights)) (constraint_solutions_ st')
       = [[[[d0; d_half; d0]]]]
    /\ events_ st' = [SolverSolve d_half].
Proof.
  eexists. split; [vm_compute; reflexivity |]. vm_compute. repeat split.
Qed.

Example solve_without_constraint_results :
  exists st',
    SolveCurrentInterval (ready propagating silent [] []) = Ok st'
    /\ constraint_solutions_ st' = [[]].
Proof. eexists. split; [vm_compute; reflexivity | reflexivity]. Qed.

Lemma C10_bookkeeping_lockstep_witness :
  lockstep (ready propagating scalar [] []) 0
  /\ exists st',
       SolveCurrentInterval (ready propagating scalar [] []) = Ok st'
       /\ lockstep st' 1
       /\ reachable st' 1.
Proof.
  assert (Hlock : lockstep (ready propagating scalar [] []) 0)
    by (repeat split).
  split; [exact Hlock |].
  assert (Hex : exists st',
             SolveCurrentInterval (ready propagating scalar [] []) = Ok st')
    by (eexists; vm_compute; reflexivity).
  destruct Hex as [st' Hrun].
  exists st'. split; [exact Hrun |].
  destruct (C10_bookkeeping_lockstep (E := world)) as [Hstep _].
  split; [exact (proj1 (Hstep _ _ _ Hlock Hrun)) |].
  eapply reach_solve; [| exact Hrun].
  eapply reach_other.
  - eapply (reach_construct (E := world) tt solving "ddecal."). reflexivity.
  - repeat split.
Defined.

Example forward_sum_of_directions :
  ProcessCompleteDirections 0
    (predicting [[Some (visibilities [1; 2]); Some (visibilities [3; 4])];
                 [Some (visibilities [5; 6]); None]])
  = Ok (set_model_buffers
          (set_events (predicting []) [NextStepProcess (visibilities [4; 6])])
          [[Some (visibilities [5; 6]); None]]).
Proof. vm_compute. reflexivity. Qed.

Lemma C9_only_predict_sum_witness :
  only_predict
    (settings_
       (predicting
          [[Some (visibilities [1; 2]); Some (visibilities [3; 4])];
           [Some (visibilities [5; 6]); None]])) = true
  /\ same_sizes (visibilities [1; 2]) [visibilities [3; 4]]
  /\ ProcessCompleteDirections 0
       (predicting [[Some (visibilities [1; 2]); Some (visibilities [3; 4])];
                    [Some (visibilities [5; 6]); None]])
     = Ok (set_model_buffers
             (set_events
                (predicting
                   [[Some (visibilities [1; 2]); Some (visibilities [3; 4])];
                    [Some (visibilities [5; 6]); None]])
                ([] ++ map forwarded_sum
                         [(visibilities [1; 2], [visibilities [3; 4]])]))
             [[Some (visibilities [5; 6]); None]]).
Proof.
  assert (Hsizes : same_sizes (E := world) (visibilities [1; 2])
                     [visibilities [3; 4]])
    by (repeat constructor).
  split; [reflexivity |]. split; [exact Hsizes |].
  apply (C9_only_predict_sum (E := world)
           (predicting
              [[Some (visibilities [1; 2]); Some (visibilities [3; 4])];
               [Some (visibilities [5; 6]); None]])
           [(visibilities [1; 2], [visibilities [3; 4]])]
           [[Some (visibilities [5; 6]); None]] 0 eq_refl eq_refl eq_refl).
  constructor; [exact Hsizes | constructor].
Defined.

End Runs.


(* ===================================================================== *)
(** * Further properties of the stopping rule                              *)
(* ===================================================================== *)

Section StoppingBounds.

Import SolverBase.

Variable DetectStall : SolverBase.t -> Z -> list double -> bool.

(** X1. The engine never stops before the minimum number of iterations,
    whatever the convergence flags and the stall test say, and it always
    stops once the iteration count has reached both the minimum and the
    maximum. *)
Theorem stopping_is_bounded s iteration has_converged constraints_satisfied
    step_magnitudes :
  (iteration < min_iterations_ s ->
   ReachedStoppingCriterion DetectStall s iteration has_converged
     constraints_satisfied step_magnitudes = false)
  /\ (Z.max (min_iterations_ s) (max_iterations_ s) <= iteration ->
      ReachedStoppingCriterion DetectStall s iteration has_converged
        constraints_satisfied step_magnitudes = true).
Proof.
  unfold ReachedStoppingCriterion, ReachedStoppingCriterion_traced, bind, ret.
  cbn [fst snd]. split; intros Hit.
  - replace (min_iterations_ s <=? iteration) with false
      by (symmetry; apply Z.leb_gt; exact Hit).
    reflexivity.
  - replace (min_iterations_ s <=? iteration) with true
      by (symmetry; apply Z.leb_le; lia).
    replace (max_iterations_ s <=? iteration) with true
      by (symmetry; apply Z.leb_le; lia).
    reflexivity.
Qed.

End StoppingBounds.

Lemma stopping_is_bounded_witness :
  3 < 5
  /\ SolverBase.ReachedStoppingCriterion (fun _ _ _ => true)
       (SolverBase.Make 5 2 1 d0 d0 d1 true false) 3 true true [] = false
  /\ SolverBase.ReachedStoppingCriterion (fun _ _ _ => false)
       (SolverBase.Make 5 2 1 d0 d0 d1 true false) 5 false false [] = true.
Proof.
  split; [lia |]. split.
  - apply (stopping_is_bounded (fun _ _ _ => true)
             (SolverBase.Make 5 2 1 d0 d0 d1 true false) 3 true true []).
    cbn. lia.
  - apply (stopping_is_bounded (fun _ _ _ => false)
             (SolverBase.Make 5 2 1 d0 d0 d1 true false) 5 false false []).
    cbn. lia.
Defined.

(* ===================================================================== *)
(** * Properties of SolverBase::Matrix                                     *)
(* ===================================================================== *)

Section MatrixFacts.

Lemma position_in_range (m : Matrix.t) (columns rows column row : Z) :
  Matrix.columns_ m = columns ->
  0 <= column < columns -> 0 <= row < rows -> columns * rows < size_max ->
  Matrix.position m column row = column + row * columns
  /\ 0 <= column + row * columns < columns * rows.
Proof.
  intros Hc Hcol Hrow Hsize. unfold Matrix.position, wrap64. rewrite Hc.
  assert (0 <= column + row * columns < columns * rows) by nia.
  rewrite (Z.mod_small (row * columns)) by nia.
  rewrite Z.mod_small by lia. split; [reflexivity | assumption].
Qed.

Lemma position_injective (columns column row column' row' : Z) :
  0 <= column < columns -> 0 <= column' < columns ->
  column + row * columns = column' + row' * columns ->
  column = column' /\ row = row'.
Proof.
  intros Hc Hc' Heq.
  assert (row = row') by nia. subst. lia.
Qed.

(** X2. A matrix made for [columns] by [rows] elements holds that many
    zeros; within these bounds [operator()] refers to position
    [column + row * columns], which lies inside the storage, and no two
    pairs of coordinates refer to the same position. *)
Theorem matrix_layout (columns rows : Z) :
  0 <= columns -> 0 <= rows -> columns * rows < size_max ->
  let m := Matrix.create columns rows in
  Z.of_nat (length (Matrix.elements m)) = columns * rows
  /\ (forall column row,
        0 <= column < columns -> 0 <= row < rows ->
        Matrix.position m column row = column + row * columns
        /\ Matrix.get m column row = Ok Matrix.czero)
  /\ (forall column row column' row',
        0 <= column < columns -> 0 <= row < rows ->
        0 <= column' < columns -> 0 <= row' < rows ->
        Matrix.position m column row = Matrix.position m column' row' ->
        column = column' /\ row = row').
Proof.
  intros Hc Hr Hsize m.
  assert (Hlen : Z.of_nat (length (Matrix.elements m)) = columns * rows).
  { unfold m, Matrix.create. cbn [Matrix.elements].
    rewrite length_replicate. unfold wrap64.
    rewrite Z.mod_small by nia. rewrite Z2Nat.id by nia. reflexivity. }
  split; [exact Hlen |]. split.
  - intros column row Hcol Hrow.
    destruct (position_in_range m columns rows column row eq_refl Hcol Hrow
                Hsize) as [Hpos Hin].
    split; [exact Hpos |].
    unfold Matrix.get. rewrite Hpos. unfold m, Matrix.create.
    cbn [Matrix.elements]. rewrite lookup_replicate_2; [reflexivity |].
    unfold wrap64. rewrite Z.mod_small by nia. lia.
  - intros column row column' row' Hcol Hrow Hcol' Hrow' Heq.
    destruct (position_in_range m columns rows column row eq_refl Hcol Hrow
                Hsize) as [Hpos _].
    destruct (position_in_range m columns rows column' row' eq_refl Hcol'
                Hrow' Hsize) as [Hpos' _].
    rewrite Hpos, Hpos' in Heq.
    exact (position_injective columns column row column' row' Hcol Hcol' Heq).
Qed.

(** X3. Writing through [operator()] at coordinates within the bounds
    succeeds, keeps the size and the number of columns, and is seen by a
    later read at the same coordinates and by no read at other
    coordinates within the bounds. *)
Theorem matrix_write_read (m : Matrix.t) (columns rows column row : Z)
    (v : fcomplex) :
  Matrix.columns_ m = columns ->
  Z.of_nat (length (Matrix.elements m)) = columns * rows ->
  columns * rows < size_max ->
  0 <= column < columns -> 0 <= row < rows ->
  exists m',
    Matrix.set m column row v = Ok m'
    /\ Matrix.columns_ m' = columns
    /\ length (Matrix.elements m') = length (Matrix.elements m)
    /\ Matrix.get m' column row = Ok v
    /\ (forall column' row',
          0 <= column' < columns -> 0 <= row' < rows ->
          (column', row') <> (column, row) ->
          Matrix.get m' column' row' = Matrix.get m column' row').
Proof.
  intros Hc Hlen Hsize Hcol Hrow.
  destruct (position_in_range m columns rows column row Hc Hcol Hrow Hsize)
    as [Hpos Hin].
  unfold Matrix.set, BdaDdeCal.store. rewrite Hpos.
  rewrite decide_True by lia. cbn [mbind outcome_bind].
  eexists. split; [reflexivity |]. cbn [Matrix.columns_ Matrix.elements].
  split; [exact Hc |]. split; [apply length_insert |]. split.
  - unfold Matrix.get, Matrix.position. cbn [Matrix.columns_ Matrix.elements].
    fold (Matrix.position m column row). rewrite Hpos.
    rewrite list_lookup_insert_eq by lia. reflexivity.
  - intros column' row' Hcol' Hrow' Hne.
    destruct (position_in_range m columns rows column' row' Hc Hcol' Hrow'
                Hsize) as [Hpos' Hin'].
    unfold Matrix.get, Matrix.position. cbn [Matrix.columns_ Matrix.elements].
    fold (Matrix.position m column' row'). rewrite Hpos'.
    rewrite list_lookup_insert_ne; [reflexivity |].
    intros Heq. apply Hne.
    assert (column + row * columns = column' + row' * columns) by lia.
    destruct (position_injective columns column row column' row' Hcol Hcol'
                ltac:(assumption)) as [-> ->].
    reflexivity.
Qed.

End MatrixFacts.

Lemma matrix_layout_witness :
  2 * 3 < size_max
  /\ Matrix.get (Matrix.create 2 3) 1 2 = Ok Matrix.czero
  /\ Matrix.position (Matrix.create 2 3) 1 2 = 5.
Proof.
  assert (Hsize : 2 * 3 < size_max) by reflexivity.
  split; [exact Hsize |].
  destruct (matrix_layout 2 3 ltac:(lia) ltac:(lia) Hsize) as (_ & Hget & _).
  destruct (Hget 1 2 ltac:(lia) ltac:(lia)) as [Hpos Hzero].
  split; [exact Hzero | exact Hpos].
Defined.

Lemma matrix_write_read_witness :
  exists m',
    Matrix.set (Matrix.create 2 3) 1 2 (FComplex (Demo.f32 3 0) (Demo.f32 1 0))
    = Ok m'
    /\ Matrix.get m' 1 2 = Ok (FComplex (Demo.f32 3 0) (Demo.f32 1 0)).
Proof.
  destruct (matrix_write_read (Matrix.create 2 3) 2 3 1 2
              (FComplex (Demo.f32 3 0) (Demo.f32 1 0))
              eq_refl eq_refl eq_refl ltac:(lia) ltac:(lia))
    as (m' & Hset & _ & _ & Hget & _).
  exists m'. split; [exact Hset | exact Hget].
Defined.


(* ===================================================================== *)
(** * Further properties of SolveCurrentInterval                           *)
(* ===================================================================== *)

Section SolveFacts.

Import BdaDdeCal.
Import BdaDdeCalQueue.

Context `{E : Externals}.

Lemma InitializeCurrentSolutions_last st previous current st' :
  solutions_ st = previous ++ [current] ->
  InitializeCurrentSolutions st = Ok st' ->
  exists initial, st' = set_solutions st (previous ++ [initial]).
Proof.
  intros Hsol Hrun.
  apply InitializeCurrentSolutions_frame in Hrun as [initial ->].
  exists initial. rewrite Hsol, set_last_solution. reflexivity.
Qed.

(** What a completed call did, member by member. *)
Lemma SolveCurrentInterval_effect st st' :
  SolveCurrentInterval st = Ok st' ->
  exists solver solver_buffer initial result solved,
    solver_ st = Some solver
    /\ solver_buffer_ st = Some solver_buffer
    /\ InitializeCurrentSolutions
         (set_solutions st (solutions_ st ++ [fresh_solution st solver]))
       = Ok (set_solutions st (solutions_ st ++ [initial]))
    /\ Solve solver (solve_data st solver_buffer) initial (solve_time st)
       = Ok (result, solved)
    /\ solutions_ st' = solutions_ st ++ [solved]
    /\ iterations_ st' = iterations_ st ++ [SolverBase.iterations result]
    /\ events_ st' = events_ st ++ [SolverSolve (solve_time st)]
    /\ solver_buffer_ st'
       = Some (if subtract (settings_ st)
               then SubtractCorrectedModel solver_buffer solved
                      (chan_block_start_freqs_ st)
                      (NSolutionPolarizations solver) (antennas1_ st)
                      (antennas2_ st) (BdaChanFreqs (info_ st))
               else solver_buffer)
    /\ settings_ st' = settings_ st
    /\ solver_ st' = solver_ st
    /\ data_buffers_ st' = data_buffers_ st
    /\ model_buffers_ st' = model_buffers_ st
    /\ chan_block_start_freqs_ st' = chan_block_start_freqs_ st
    /\ info_ st' = info_ st.
Proof.
  unfold SolveCurrentInterval. cbv zeta. intros Hrun.
  apply bind_Ok in Hrun as (solver & Hsolver & Hrun).
  apply bind_Ok in Hrun as (solver_buffer & Hbuffer & Hrun).
  apply bind_Ok in Hrun as ([] & _ & Hrun).
  apply bind_Ok in Hrun as (st1 & Hinit & Hrun).
  apply bind_Ok in Hrun as (initial & Hlast & Hrun).
  apply bind_Ok in Hrun as ([result solved] & Hsolve & Hrun).
  apply bind_Ok in Hrun as ([] & _ & Hrun).
  apply bind_Ok in Hrun as ([] & _ & Hrun).
  apply bind_Ok in Hrun as ([] & _ & Hrun).
  injection Hrun as <-.
  apply defined_Ok in Hsolver. apply defined_Ok in Hbuffer.
  destruct (InitializeCurrentSolutions_last
              (set_solutions st (solutions_ st ++ [fresh_solution st solver]))
              (solutions_ st) (fresh_solution st solver) st1 eq_refl Hinit)
    as [initial' ->].
  cbn [solutions_ set_solutions] in Hlast.
  rewrite last_snoc in Hlast. injection Hlast as ->.
  exists solver, solver_buffer, initial, result, solved.
  split; [exact Hsolver |]. split; [exact Hbuffer |].
  split; [exact Hinit |]. split; [exact Hsolve |].
  cbn -[flag_weights wrap64 int_of_size_t double_of_Z replicate].
  rewrite set_last_solution.
  destruct st; cbn -[flag_weights wrap64 int_of_size_t double_of_Z replicate].
  cbn in Hbuffer.
  destruct (subtract _); repeat split; exact Hbuffer.
Qed.

(** X4. A completed [SolveCurrentInterval] made exactly one call of
    [Solve]: for the solver buffer's data, at the centre of the current
    interval, on the start value that [InitializeCurrentSolutions] left
    in the last entry of [solutions_]. The solutions of the earlier
    intervals stay as they were and what this call returned is appended
    to them, as is its iteration count to [iterations_]; neither the
    queue of model buffers nor the stored data buffers are touched, and
    the solver buffer changes only when subtraction is enabled. *)
Theorem solve_keeps_earlier_intervals st st' :
  SolveCurrentInterval st = Ok st' ->
  exists solver solver_buffer initial result solved,
    solver_ st = Some solver
    /\ solver_buffer_ st = Some solver_buffer
    /\ InitializeCurrentSolutions
         (set_solutions st (solutions_ st ++ [fresh_solution st solver]))
       = Ok (set_solutions st (solutions_ st ++ [initial]))
    /\ Solve solver (solve_data st solver_buffer) initial (solve_time st)
       = Ok (result, solved)
    /\ solutions_ st' = solutions_ st ++ [solved]
    /\ iterations_ st' = iterations_ st ++ [SolverBase.iterations result]
    /\ events_ st' = events_ st ++ [SolverSolve (solve_time st)]
    /\ data_buffers_ st' = data_buffers_ st
    /\ model_buffers_ st' = model_buffers_ st
    /\ settings_ st' = settings_ st
    /\ solver_ st' = solver_ st
    /\ (subtract (settings_ st) = false ->
        solver_buffer_ st' = solver_buffer_ st).
Proof.
  intros Hrun.
  apply SolveCurrentInterval_effect in Hrun
    as (solver & solver_buffer & initial & result & solved & Hsolver & Hbuffer
        & Hinit & Hsolve & Hsol & Hit & Hev & Hbuf & Hset & Hs & Hdata
        & Hmodel & _).
  exists solver, solver_buffer, initial, result, solved.
  split; [exact Hsolver |]. split; [exact Hbuffer |].
  split; [exact Hinit |]. split; [exact Hsolve |].
  split; [exact Hsol |]. split; [exact Hit |]. split; [exact Hev |].
  split; [exact Hdata |]. split; [exact Hmodel |].
  split; [exact Hset |]. split; [exact Hs |].
  intros Hsub. rewrite Hbuf, Hsub, Hbuffer. reflexivity.
Qed.

Lemma first_interval_start st solver current :
  solutions_ st = [current] ->
  solver_ st = Some solver ->
  InitializeCurrentSolutions st
  = (initial ←
       (if NSolutionPolarizations solver =? 4
        then unity_blocks current
        else Ok (fill_blocks current));
     Ok (set_solutions st [initial])).
Proof.
  intros Hsol Hsolver. unfold InitializeCurrentSolutions. cbv zeta.
  rewrite Hsol, Hsolver. cbn [last defined mbind outcome_bind length Nat.ltb
                              Nat.leb andb].
  destruct (NSolutionPolarizations solver =? 4);
    [destruct (unity_blocks current) |]; reflexivity.
Qed.

Lemma wrapped_multiple_of_four (x : Z) :
  exists k, Z.to_nat (wrap64 (x * 4)) = (4 * k)%nat.
Proof.
  unfold wrap64, size_max.
  change (2 ^ 64) with (2 ^ 62 * 4).
  rewrite Z.mul_mod_distr_r by lia.
  exists (Z.to_nat (x mod 2 ^ 62)).
  pose proof (Z.mod_pos_bound x (2 ^ 62) ltac:(lia)). lia.
Qed.

(** X5. For the first interval, [Solve] is called on the neutral
    solution of as many blocks as the boundary array delimits, each of
    [n_directions * n_antennas * n_polarizations] entries (unit matrices
    for four polarizations, ones otherwise), at the centre of the first
    interval; the members after the call are built from what this one
    call returns. *)
Theorem first_solve_is_neutral st st' :
  solutions_ st = [] ->
  SolveCurrentInterval st = Ok st' ->
  exists solver solver_buffer result solved,
    solver_ st = Some solver
    /\ solver_buffer_ st = Some solver_buffer
    /\ Solve solver (solve_data st solver_buffer)
         (replicate (Z.to_nat (solve_blocks st))
            (if NSolutionPolarizations solver =? 4
             then unit_matrices
                    (Z.to_nat (solve_block_size st solver) / 4)
             else replicate (Z.to_nat (solve_block_size st solver))
                    (of_real d1)))
         (PrimFloat.add (startTime (info_ st))
            (PrimFloat.mul d_half (solution_interval_ st)))
       = Ok (result, solved)
    /\ solutions_ st' = [solved]
    /\ iterations_ st' = iterations_ st ++ [SolverBase.iterations result].
Proof.
  intros Hfirst Hrun.
  apply SolveCurrentInterval_effect in Hrun
    as (solver & solver_buffer & initial & result & solved & Hsolver & Hbuffer
        & Hinit & Hsolve & Hsol & Hit & _).
  exists solver, solver_buffer, result, solved.
  split; [exact Hsolver |]. split; [exact Hbuffer |].
  rewrite Hfirst in Hsol, Hinit. cbn [app] in Hsol, Hinit.
  split; [| split; [exact Hsol | exact Hit]].
  rewrite (first_interval_start _ solver (fresh_solution st solver))
    in Hinit by (destruct st; cbn in *; congruence).
  assert (Htime : solve_time st
                  = PrimFloat.add (startTime (info_ st))
                      (PrimFloat.mul d_half (solution_interval_ st))).
  { unfold solve_time. rewrite Hfirst. reflexivity. }
  rewrite <- Htime.
  assert (Hinitial :
    initial
    = replicate (Z.to_nat (solve_blocks st))
        (if NSolutionPolarizations solver =? 4
         then unit_matrices (Z.to_nat (solve_block_size st solver) / 4)
         else replicate (Z.to_nat (solve_block_size st solver)) (of_real d1))).
  { unfold fresh_solution in Hinit.
    destruct (Z.eqb_spec (NSolutionPolarizations solver) 4) as [Hpol | Hpol].
    - rewrite unity_blocks_spec in Hinit.
      + cbn [mbind outcome_bind] in Hinit. injection Hinit as Hinit.
        rewrite <- Hinit.
        rewrite fmap_replicate, length_replicate. reflexivity.
      + apply Forall_replicate. unfold whole_matrices.
        rewrite length_replicate. unfold solve_block_size. rewrite Hpol.
        apply wrapped_multiple_of_four.
    - cbn [mbind outcome_bind] in Hinit. injection Hinit as Hinit.
      rewrite <- Hinit.
      unfold fill_blocks. rewrite fmap_replicate, length_replicate.
      reflexivity. }
  rewrite <- Hinitial. exact Hsolve.
Qed.

End SolveFacts.

(* ===================================================================== *)
(** * Properties of ProcessCompleteDirections when solving                 *)
(* ===================================================================== *)

Section SolvingFacts.

Import BdaDdeCal.
Import BdaDdeCalQueue.

Context `{E : Externals}.

#[local] Abbreviation buffer := (BDABuffer.t BufferMeta).

Lemma solves_app events events' :
  solves (events ++ events') = (solves events + solves events')%nat.
Proof.
  induction events as [| e events IH]; [reflexivity |].
  destruct e; cbn [app solves]; rewrite IH; reflexivity.
Qed.

Lemma predict_front_frame front st st' :
  predict_front front st = Ok st' ->
  exists b, st' = add_event st (NextStepProcess b).
Proof.
  unfold predict_front. destruct front as [| pointer others]; [discriminate |].
  intros Hrun.
  apply bind_Ok in Hrun as (b0 & _ & Hrun).
  apply bind_Ok in Hrun as (sum & _ & [= <-]).
  eexists. reflexivity.
Qed.

Lemma append_front_frame front st st' :
  append_front front st = Ok st' ->
  exists solver_buffer data_buffer more,
    solver_buffer_ st = Some solver_buffer
    /\ data_buffers_ st = data_buffer :: more
    /\ st' = add_event
               (set_data_buffers
                  (set_solver_buffer st
                     (Some (AppendAndWeight solver_buffer data_buffer front)))
                  more)
               SolverBufferAppend.
Proof.
  unfold append_front. intros Hrun.
  apply bind_Ok in Hrun as ([] & _ & Hrun).
  apply bind_Ok in Hrun as (solver_buffer & Hbuffer & Hrun).
  apply defined_Ok in Hbuffer.
  destruct (data_buffers_ st) as [| data_buffer more] eqn:Hdata;
    [discriminate |].
  injection Hrun as <-.
  exists solver_buffer, data_buffer, more. repeat split. exact Hbuffer.
Qed.

Lemma complete_loop_drains queue :
  forall st st',
    model_buffers_ st = queue ->
    complete_loop queue st = Ok st' ->
    front_incomplete (model_buffers_ st').
Proof.
  induction queue as [| front queue IH]; intros st st' Hqueue Hrun.
  - injection Hrun as <-. rewrite Hqueue. exact I.
  - cbn [complete_loop] in Hrun.
    destruct (forallb pointer_is_set front) eqn:Hfront.
    + apply bind_Ok in Hrun as (st1 & _ & Hrun).
      refine (IH _ _ _ Hrun). reflexivity.
    + injection Hrun as <-. rewrite Hqueue. exact Hfront.
Qed.

Lemma complete_loop_solving_frame queue :
  forall st st',
    only_predict (settings_ st) = false ->
    complete_loop queue st = Ok st' ->
    settings_ st' = settings_ st
    /\ solver_ st' = solver_ st
    /\ same_bookkeeping st st'
    /\ solves (events_ st') = solves (events_ st)
    /\ (solver_buffer_ st <> None -> solver_buffer_ st' <> None).
Proof.
  induction queue as [| front queue IH]; intros st st' Hsolving Hrun.
  - injection Hrun as <-. repeat split. auto.
  - cbn [complete_loop] in Hrun.
    destruct (forallb pointer_is_set front);
      [| injection Hrun as <-; repeat split; auto].
    rewrite Hsolving in Hrun.
    apply bind_Ok in Hrun as (st1 & Hfront & Hrun).
    apply append_front_frame in Hfront
      as (solver_buffer & data_buffer & more & _ & _ & ->).
    apply IH in Hrun; [| destruct st; exact Hsolving].
    destruct Hrun as (Hset & Hsolver & Hbook & Hsolves & Hbuf).
    destruct st. cbn in *.
    rewrite solves_app in Hsolves. cbn in Hsolves.
    split; [exact Hset |]. split; [exact Hsolver |].
    split; [exact Hbook |]. split; [lia |].
    intros _. apply Hbuf. discriminate.
Qed.

Lemma forward_events_frame (done : list buffer) :
  forall st,
    let st' :=
      fold_left
        (fun st done_buffer => add_event st (NextStepProcess done_buffer))
        done st in
    settings_ st' = settings_ st
    /\ same_bookkeeping st st'
    /\ model_buffers_ st' = model_buffers_ st
    /\ solves (events_ st') = solves (events_ st).
Proof.
  induction done as [| b done IH]; intros st; cbn [fold_left].
  - repeat split.
  - destruct (IH (add_event st (NextStepProcess b)))
      as (Hset & Hbook & Hmodel & Hsolves).
    destruct st. cbn in *. rewrite solves_app in Hsolves. cbn in Hsolves.
    repeat split; try assumption; try apply Hbook. lia.
Qed.

Lemma forward_done_frame st st' :
  forward_done st = Ok st' ->
  settings_ st' = settings_ st
  /\ same_bookkeeping st st'
  /\ model_buffers_ st' = model_buffers_ st
  /\ solves (events_ st') = solves (events_ st).
Proof.
  unfold forward_done. intros Hrun.
  apply bind_Ok in Hrun as (solver_buffer & _ & [= <-]).
  destruct (forward_events_frame (GetDone solver_buffer).1
              (set_solver_buffer st (Some (GetDone solver_buffer).2)))
    as (Hset & Hbook & Hmodel & Hsolves).
  destruct st. cbn in *. repeat split; try assumption; apply Hbook.
Qed.

Lemma lockstep_same_bookkeeping st st' n :
  same_bookkeeping st st' -> lockstep st n -> lockstep st' n.
Proof.
  intros (Hs & Hi & Ha & Hc). unfold lockstep. rewrite Hs, Hi, Ha, Hc. auto.
Qed.

(** What the second loop does: some number of solves, each adding one
    entry to the per-interval vectors, until the solver buffer reports
    no complete interval. *)
Lemma solve_loop_effect fuel :
  forall st st',
    solve_loop fuel st = Ok st' ->
    exists k,
      (forall n, lockstep st n -> lockstep st' (n + k))
      /\ solves (events_ st') = (solves (events_ st) + k)%nat
      /\ settings_ st' = settings_ st
      /\ model_buffers_ st' = model_buffers_ st
      /\ data_buffers_ st' = data_buffers_ st
      /\ exists solver_buffer,
           solver_buffer_ st' = Some solver_buffer
           /\ IntervalIsComplete solver_buffer = false.
Proof.
  induction fuel as [| fuel IH]; intros st st' Hrun; [discriminate |].
  cbn [solve_loop] in Hrun.
  apply bind_Ok in Hrun as (solver_buffer & Hbuffer & Hrun).
  apply defined_Ok in Hbuffer.
  destruct (IntervalIsComplete solver_buffer) eqn:Hcomplete.
  - apply bind_Ok in Hrun as (st1 & Hsolve & Hrun).
    apply bind_Ok in Hrun as (solver_buffer1 & _ & Hrun).
    apply IH in Hrun
      as (k & Hlock & Hsolves & Hset & Hmodel & Hdata & Hend).
    pose proof (fun n H => SolveCurrentInterval_lockstep st st1 n H Hsolve)
      as Hstep.
    apply SolveCurrentInterval_effect in Hsolve
      as (solver & sb & initial & result & solved & _ & _ & _ & _ & _ & _
          & Hev & _ & Hset1 & _ & Hdata1 & Hmodel1 & _).
    exists (S k). split.
    { intros n Hn. replace (n + S k)%nat with (S n + k)%nat by lia.
      apply Hlock.
      eapply lockstep_same_bookkeeping; [| exact (Hstep n Hn)].
      destruct st1. repeat split. }
    destruct st1. cbn in *.
    rewrite Hev, solves_app in Hsolves. cbn in Hsolves.
    split; [lia |]. split; [congruence |]. split; [congruence |].
    split; [congruence |]. exact Hend.
  - injection Hrun as <-. exists 0%nat.
    split; [intros n Hn; rewrite Nat.add_0_r; exact Hn |].
    split; [lia |]. repeat split.
    exists solver_buffer. split; assumption.
Qed.

Lemma solve_loop_more_fuel fuel :
  forall st st' fuel',
    (fuel <= fuel')%nat ->
    solve_loop fuel st = Ok st' -> solve_loop fuel' st = Ok st'.
Proof.
  induction fuel as [| fuel IH]; intros st st' fuel' Hle Hrun; [discriminate |].
  destruct fuel' as [| fuel']; [lia |].
  cbn [solve_loop] in Hrun |- *.
  destruct (defined (solver_buffer_ st)) as [solver_buffer |]; [| discriminate].
  cbn [mbind outcome_bind] in Hrun |- *.
  destruct (IntervalIsComplete solver_buffer); [| exact Hrun].
  destruct (SolveCurrentInterval st) as [st1 |]; [| discriminate].
  cbn [mbind outcome_bind] in Hrun |- *.
  destruct (defined (solver_buffer_ st1)) as [solver_buffer1 |];
    [| discriminate].
  cbn [mbind outcome_bind] in Hrun |- *.
  apply (IH _ _ fuel' ltac:(lia) Hrun).
Qed.

Lemma append_front_Ok front st solver_buffer data_buffer more :
  solver_buffer_ st = Some solver_buffer ->
  data_buffers_ st = Some data_buffer :: more ->
  append_front front st
  = Ok (add_event
          (set_data_buffers
             (set_solver_buffer st
                (Some (AppendAndWeight solver_buffer (Some data_buffer)
                         front)))
             more)
          SolverBufferAppend).
Proof.
  intros Hbuffer Hdata. unfold append_front. rewrite Hdata, Hbuffer.
  rewrite assert_true by reflexivity. reflexivity.
Qed.

Lemma complete_loop_appends fronts rest :
  Forall (fun front => forallb pointer_is_set front = true) fronts ->
  front_incomplete rest ->
  forall st solver_buffer data more,
    only_predict (settings_ st) = false ->
    solver_buffer_ st = Some solver_buffer ->
    data_buffers_ st = map Some data ++ more ->
    length data = length fronts ->
    model_buffers_ st = fronts ++ rest ->
    exists st',
      complete_loop (fronts ++ rest) st = Ok st'
      /\ data_buffers_ st' = more
      /\ solver_buffer_ st'
         = Some (appended solver_buffer (zip (map Some data) fronts))
      /\ model_buffers_ st' = rest
      /\ events_ st'
         = events_ st ++ replicate (length fronts) SolverBufferAppend
      /\ settings_ st' = settings_ st.
Proof.
  intros Hcomplete Hrest.
  induction Hcomplete as [| front fronts Hfront _ IH];
    intros st solver_buffer data more Hsolving Hbuffer Hdata Hlen Hqueue.
  - destruct data; [| discriminate]. cbn [map app] in Hdata.
    exists st. cbn [app] in *. split.
    + destruct rest as [| front rest]; [reflexivity |].
      cbn [complete_loop]. cbn in Hrest. rewrite Hrest. reflexivity.
    + cbn. rewrite app_nil_r. repeat split; assumption.
  - destruct data as [| b data]; [discriminate |].
    cbn [map app] in Hdata. cbn [length] in Hlen.
    cbn [app complete_loop]. rewrite Hfront, Hsolving.
    rewrite (append_front_Ok front st solver_buffer b (map Some data ++ more)
               Hbuffer Hdata).
    cbn [mbind outcome_bind].
    edestruct (IH (set_model_buffers
                     (add_event
                        (set_data_buffers
                           (set_solver_buffer st
                              (Some (AppendAndWeight solver_buffer (Some b)
                                       front)))
                           (map Some data ++ more))
                        SolverBufferAppend)
                     (fronts ++ rest))
                 (AppendAndWeight solver_buffer (Some b) front) data more)
      as (st' & Hrun & Hd & Hb & Hm & He & Hs);
      [destruct st; exact Hsolving | reflexivity | reflexivity | lia
      | reflexivity |].
    exists st'. split; [exact Hrun |].
    split; [exact Hd |]. split; [exact Hb |]. split; [exact Hm |].
    destruct st. cbn in *. split; [| exact Hs].
    rewrite He, <- app_assoc. reflexivity.
Qed.

Lemma appends_then_forwards fuel st solver_buffer fronts rest data more :
  only_predict (settings_ st) = false ->
  solver_buffer_ st = Some solver_buffer ->
  model_buffers_ st = fronts ++ rest ->
  Forall (fun front => forallb pointer_is_set front = true) fronts ->
  front_incomplete rest ->
  data_buffers_ st = map Some data ++ more ->
  length data = length fronts ->
  IntervalIsComplete
    (appended solver_buffer (zip (map Some data) fronts)) = false ->
  exists st',
    ProcessCompleteDirections (S fuel) st = Ok st'
    /\ data_buffers_ st' = more
    /\ model_buffers_ st' = rest
    /\ solver_buffer_ st'
       = Some (GetDone
                 (appended solver_buffer (zip (map Some data) fronts))).2
    /\ events_ st'
       = events_ st ++ replicate (length fronts) SolverBufferAppend
         ++ map NextStepProcess
              (GetDone
                 (appended solver_buffer (zip (map Some data) fronts))).1
    /\ same_bookkeeping st st'.
Proof.
  intros Hsolving Hbuffer Hqueue Hcomplete Hrest Hdata Hlen Hnot.
  destruct (complete_loop_appends fronts rest Hcomplete Hrest st solver_buffer
              data more Hsolving Hbuffer Hdata Hlen Hqueue)
    as (st1 & Hrun & Hd & Hb & Hm & He & Hs).
  pose proof (complete_loop_solving_frame _ _ _ Hsolving Hrun)
    as (_ & _ & Hbook & _).
  unfold ProcessCompleteDirections. rewrite Hqueue, Hrun.
  cbn [mbind outcome_bind]. rewrite Hs, Hsolving. cbn [negb solve_loop].
  rewrite Hb. cbn [defined mbind outcome_bind]. rewrite Hnot.
  cbn [mbind outcome_bind]. unfold forward_done. rewrite Hb.
  cbn [defined mbind outcome_bind].
  eexists. split; [reflexivity |].
  set (done := (GetDone _).1). set (sb' := (GetDone _).2).
  assert (Hfold :
    forall (l : list buffer) st0,
      let st' :=
        fold_left
          (fun st done_buffer => add_event st (NextStepProcess done_buffer))
          l st0 in
      data_buffers_ st' = data_buffers_ st0
      /\ model_buffers_ st' = model_buffers_ st0
      /\ solver_buffer_ st' = solver_buffer_ st0
      /\ events_ st' = events_ st0 ++ map NextStepProcess l
      /\ same_bookkeeping st0 st').
  { induction l as [| b l IHl]; intros st0; cbn [fold_left map].
    - rewrite app_nil_r. repeat split.
    - destruct (IHl (add_event st0 (NextStepProcess b)))
        as (H1 & H2 & H3 & H4 & H5).
      destruct st0. cbn in *. rewrite H4, <- app_assoc.
      repeat split; try assumption; apply H5. }
  destruct (Hfold done (set_solver_buffer st1 (Some sb')))
    as (H1 & H2 & H3 & H4 & H5).
  rewrite H1, H2, H3, H4.
  destruct st1, st. cbn in *. subst.
  rewrite <- app_assoc.
  repeat split; try reflexivity;
    (etransitivity; [apply H5 | apply Hbook]).
Qed.


(** X7. When solving with assertions enabled, a complete front that
    finds no stored data buffer (none at all, or a null pointer) stops
    the call with a failed assertion. *)
Theorem solving_needs_data_buffer fuel st front rest :
  NDEBUG = false ->
  only_predict (settings_ st) = false ->
  model_buffers_ st = front :: rest ->
  forallb pointer_is_set front = true ->
  data_buffers_ st = [] \/ (exists more, data_buffers_ st = None :: more) ->
  ProcessCompleteDirections fuel st = Fail AssertionFailed.
Proof.
  intros Hdebug Hsolving Hqueue Hfront Hmissing.
  unfold ProcessCompleteDirections. rewrite Hqueue.
  cbn [complete_loop]. rewrite Hfront, Hsolving.
  unfold append_front, assert. rewrite Hdebug.
  destruct Hmissing as [-> | [more ->]]; reflexivity.
Qed.

(** X8. Whatever the mode, a completed [ProcessCompleteDirections] has
    processed every complete front: the queue it leaves is empty or
    starts with a front that still misses a direction. *)
Theorem process_drains_complete_fronts fuel st st' :
  ProcessCompleteDirections fuel st = Ok st' ->
  front_incomplete (model_buffers_ st').
Proof.
  unfold ProcessCompleteDirections. intros Hrun.
  apply bind_Ok in Hrun as (st1 & Hloop & Hrun).
  pose proof (complete_loop_drains _ _ _ eq_refl Hloop) as Hdrained.
  destruct (only_predict (settings_ st1)); cbn [negb] in Hrun.
  - injection Hrun as <-. exact Hdrained.
  - apply bind_Ok in Hrun as (st2 & Hsolve & Hdone).
    apply solve_loop_effect in Hsolve as (k & _ & _ & _ & Hmodel & _).
    apply forward_done_frame in Hdone as (_ & _ & Hmodel' & _).
    rewrite Hmodel', Hmodel. exact Hdrained.
Qed.

(** X9. When solving, a completed [ProcessCompleteDirections] that made
    [k] calls of [Solve] added [k] entries to each of the four
    per-interval vectors: they stay in lockstep across the whole call. *)
Theorem process_keeps_lockstep fuel st st' n :
  only_predict (settings_ st) = false ->
  lockstep st n ->
  ProcessCompleteDirections fuel st = Ok st' ->
  exists k,
    lockstep st' (n + k)
    /\ solves (events_ st') = (solves (events_ st) + k)%nat.
Proof.
  unfold ProcessCompleteDirections. intros Hsolving Hlock Hrun.
  apply bind_Ok in Hrun as (st1 & Hloop & Hrun).
  apply (complete_loop_solving_frame _ _ _ Hsolving) in Hloop
    as (Hset & _ & Hbook & Hsolves & _).
  rewrite Hset, Hsolving in Hrun. cbn [negb] in Hrun.
  apply bind_Ok in Hrun as (st2 & Hsolve & Hdone).
  apply solve_loop_effect in Hsolve as (k & Hlock2 & Hsolves2 & _).
  apply forward_done_frame in Hdone as (_ & Hbook3 & _ & Hsolves3).
  exists k. split.
  - eapply lockstep_same_bookkeeping; [exact Hbook3 |].
    apply Hlock2. eapply lockstep_same_bookkeeping; eassumption.
  - lia.
Qed.

(** The bound on the rounds of the solve loop is immaterial once it
    suffices: a call that completes with some bound completes with the
    same result with every larger bound. *)
Lemma process_more_fuel fuel fuel' st st' :
  (fuel <= fuel')%nat ->
  ProcessCompleteDirections fuel st = Ok st' ->
  ProcessCompleteDirections fuel' st = Ok st'.
Proof.
  unfold ProcessCompleteDirections. intros Hle Hrun.
  destruct (complete_loop (model_buffers_ st) st) as [st1 |]; [| discriminate].
  cbn [mbind outcome_bind] in Hrun |- *.
  destruct (negb (only_predict (settings_ st1))); [| exact Hrun].
  destruct (solve_loop fuel st1) as [st2 |] eqn:Hsolve; [| discriminate].
  rewrite (solve_loop_more_fuel _ _ _ _ Hle Hsolve). exact Hrun.
Qed.

End SolvingFacts.

(* ===================================================================== *)
(** * Edge cases of the initial solutions                                  *)
(* ===================================================================== *)

Section InitialSolutionEdges.

Import BdaDdeCal.
Import BdaDdeCalQueue.

Context `{E : Externals}.

Lemma store_past_end {A} (i : nat) (x : A) (v : list A) :
  (length v <= i)%nat -> store i x v = Fail Undefined.
Proof. intros Hi. unfold store. rewrite decide_False by lia. reflexivity. Qed.

(** A block with one to three entries left over after the whole
    matrices: the loop writes past its end. *)
Lemma unity_loop_overrun (k : nat) :
  forall done rest todo r,
    (0 < r < 4)%nat -> length rest = (4 * k + r)%nat -> (k < todo)%nat ->
    unity_loop todo (length done) (done ++ rest) = Fail Undefined.
Proof.
  induction k as [| k IH]; intros done rest todo r Hr Hlen Htodo;
    (destruct todo as [| todo]; [lia |]); cbn [unity_loop];
    rewrite decide_True by (rewrite length_app; lia).
  - destruct rest as [| a [| b [| c [| d rest]]]]; cbn in Hlen; try lia.
    + rewrite store_app by (cbn; lia). cbn [mbind outcome_bind].
      rewrite store_past_end
        by (rewrite length_app, length_insert; cbn; lia).
      reflexivity.
    + rewrite store_app by (cbn; lia). cbn [mbind outcome_bind].
      rewrite store_app by (cbn; lia). cbn [mbind outcome_bind].
      rewrite store_past_end
        by (rewrite length_app, !length_insert; cbn; lia).
      reflexivity.
    + rewrite store_app by (cbn; lia). cbn [mbind outcome_bind].
      rewrite store_app by (cbn; lia). cbn [mbind outcome_bind].
      rewrite store_app by (cbn; lia). cbn [mbind outcome_bind].
      rewrite store_past_end
        by (rewrite length_app, !length_insert; cbn; lia).
      reflexivity.
  - destruct rest as [| a [| b [| c [| d rest]]]]; cbn in Hlen; try lia.
    rewrite store_app by (cbn; lia). cbn [mbind outcome_bind].
    rewrite store_app by (cbn; lia). cbn [mbind outcome_bind].
    rewrite store_app by (cbn; lia). cbn [mbind outcome_bind].
    rewrite store_app by (cbn; lia). cbn [mbind outcome_bind].
    cbn [insert list_insert].
    change (done ++ of_real d1 :: of_real d0 :: of_real d0 :: of_real d1 :: rest)
      with (done ++ [of_real d1; of_real d0; of_real d0; of_real d1] ++ rest).
    rewrite app_assoc.
    replace (length done + 4)%nat
      with (length (done ++ [of_real d1; of_real d0; of_real d0; of_real d1]))
      by (rewrite length_app; reflexivity).
    apply (IH _ rest todo r Hr); lia.
Qed.

Lemma whole_or_overrun (block : list dcomplex) :
  whole_matrices block
  \/ unity_loop (length block) 0 block = Fail Undefined.
Proof.
  destruct (Nat.eq_dec (length block mod 4)%nat 0%nat) as [Hz | Hnz].
  - left. exists (length block / 4)%nat.
    pose proof (Nat.div_mod_eq (length block) 4). lia.
  - right.
    pose proof (Nat.div_mod_eq (length block) 4) as Hdiv.
    pose proof (Nat.mod_upper_bound (length block) 4 ltac:(lia)) as Hlt.
    apply (unity_loop_overrun (length block / 4)%nat [] block (length block)
             (length block mod 4)%nat); lia.
Qed.

Lemma whole_matrices_not_overrun (block : list dcomplex) :
  whole_matrices block ->
  unity_loop (length block) 0 block <> Fail Undefined.
Proof.
  intros [k Hk].
  pose proof (unity_loop_spec k [] block (length block) Hk ltac:(lia)) as Hl.
  cbn [app length] in Hl. rewrite Hl. discriminate.
Qed.

Lemma unity_blocks_overrun current :
  Exists (fun block => ~ whole_matrices block) current ->
  unity_blocks current = Fail Undefined.
Proof.
  induction current as [| block current IH]; intros Hex;
    [inversion Hex |].
  cbn [unity_blocks].
  destruct (whole_or_overrun block) as [Hwhole | Hover].
  - destruct Hwhole as [k Hk].
    pose proof (unity_loop_spec k [] block (length block) Hk ltac:(lia)) as Hl.
    cbn [app length] in Hl. rewrite Hl. cbn [mbind outcome_bind].
    rewrite IH; [reflexivity |].
    apply Exists_cons in Hex as [Hbad | Hex]; [| exact Hex].
    exfalso. apply Hbad. exists k. exact Hk.
  - rewrite Hover. reflexivity.
Qed.

(** X10. Starting from the neutral value with four polarizations: the
    unit matrices are written when every block consists of whole 2x2
    matrices, and as soon as one block has a size that is no multiple
    of four, the writes run past its end (undefined behaviour). *)
Theorem full_jones_start_needs_whole_matrices st solver current :
  solutions_ st = [current] ->
  solver_ st = Some solver ->
  NSolutionPolarizations solver = 4 ->
  (Forall whole_matrices current ->
   InitializeCurrentSolutions st
   = Ok (set_solutions st
           [map (fun block => unit_matrices (length block / 4)) current]))
  /\ (Exists (fun block => ~ whole_matrices block) current ->
      InitializeCurrentSolutions st = Fail Undefined).
Proof.
  intros Hsol Hsolver Hpol.
  rewrite (first_interval_start st solver current Hsol Hsolver), Hpol.
  cbn [Z.eqb Pos.eqb]. split.
  - intros Hwhole. rewrite unity_blocks_spec by exact Hwhole. reflexivity.
  - intros Hbad. rewrite unity_blocks_overrun by exact Hbad. reflexivity.
Qed.

Lemma copy_blocks_mismatch :
  NDEBUG = false ->
  forall current prev,
    length current = length prev ->
    ~ Forall2 (fun c p => length c = length p) current prev ->
    copy_blocks current prev = Fail AssertionFailed.
Proof.
  intros Hdebug.
  induction current as [| c current IH]; intros prev Hlen Hbad.
  - destruct prev; [| discriminate]. exfalso. apply Hbad. constructor.
  - destruct prev as [| p prev]; [discriminate |].
    cbn [copy_blocks]. unfold assert. rewrite Hdebug.
    destruct (Nat.eqb_spec (length c) (length p)) as [Heq | Hne];
      [| reflexivity].
    cbn [mbind outcome_bind].
    rewrite std_copy_same_length by (symmetry; exact Heq).
    cbn [mbind outcome_bind].
    rewrite IH; [reflexivity | cbn in Hlen; lia |].
    intros Hall. apply Hbad. constructor; assumption.
Qed.

(** X11. With assertions enabled, propagation from a previous solution
    whose shape (number of blocks, or the size of a block) differs from
    the current one stops with a failed assertion instead of copying. *)
Theorem propagation_checks_shape st previous current prev :
  NDEBUG = false ->
  solutions_ st = previous ++ [current] ->
  last previous = Some prev ->
  propagate_solutions (settings_ st) = true ->
  propagate_converged_only (settings_ st) = false ->
  ~ Forall2 (fun c p => length c = length p) current prev ->
  InitializeCurrentSolutions st = Fail AssertionFailed.
Proof.
  intros Hdebug Hsol Hlast Hprop Honly Hbad.
  unfold InitializeCurrentSolutions. cbv zeta.
  assert (Hsize : (1 <? length (solutions_ st))%nat = true).
  { apply Nat.ltb_lt. rewrite Hsol. apply last_Some in Hlast as [l ->].
    rewrite !length_app. cbn. lia. }
  rewrite Hsize, Hprop, Honly. cbn [andb].
  replace (last (solutions_ st)) with (Some current)
    by (rewrite Hsol, last_snoc; reflexivity).
  cbn [defined mbind outcome_bind].
  rewrite Hsol, (previous_solution previous current prev Hlast).
  cbn [defined mbind outcome_bind].
  unfold assert at 1. rewrite Hdebug.
  destruct (Nat.eqb_spec (length current) (length prev)) as [Heq | Hne];
    [| reflexivity].
  cbn [mbind outcome_bind].
  rewrite (copy_blocks_mismatch Hdebug current prev Heq Hbad). reflexivity.
Qed.


End InitialSolutionEdges.

(* ===================================================================== *)
(** * Further properties of the channel blocks                             *)
(* ===================================================================== *)

Section PartitionerMore.

Import Partitioner.
Import BdaDdeCalQueue.

(** X13. [DetermineChannelBlocks] fails, with the undefined [front()] or
    [back()] of an empty vector, exactly when the frequencies or the
    widths of baseline 0 are empty; the channel count and the target
    play no part in that. *)
Theorem channel_blocks_need_channels {F : Type} `{Arith F}
    (n_channels nchan : Z) (chanFreqs0 chanWidths0 : list F) :
  (chanFreqs0 = [] \/ chanWidths0 = [] <->
   DetermineChannelBlocks n_channels nchan chanFreqs0 chanWidths0
   = Fail Undefined)
  /\ (chanFreqs0 <> [] /\ chanWidths0 <> [] <->
      exists boundaries,
        DetermineChannelBlocks n_channels nchan chanFreqs0 chanWidths0
        = Ok boundaries).
Proof.
  unfold DetermineChannelBlocks.
  destruct chanFreqs0 as [| f0 fs]; [| destruct chanWidths0 as [| w0 ws]].
  - cbn. split; split.
    + reflexivity.
    + intros _. left. reflexivity.
    + intros [Hf _]. congruence.
    + intros [b Hb]. discriminate.
  - cbn. split; split.
    + reflexivity.
    + intros _. right. reflexivity.
    + intros [_ Hw]. congruence.
    + intros [b Hb]. discriminate.
  - destruct (last (f0 :: fs)) as [f1 |] eqn:Ef;
      [| apply last_None in Ef; congruence].
    destruct (last (w0 :: ws)) as [w1 |] eqn:Ew;
      [| apply last_None in Ew; congruence].
    cbn [head defined mbind outcome_bind]. split; split.
    + intros [Hf | Hw]; congruence.
    + discriminate.
    + intros _. eexists. reflexivity.
    + intros _. split; discriminate.
Qed.

(** How many channels lie between two consecutive block ends. *)
Lemma div_window (a n B : Z) :
  0 <= a -> 0 <= n -> 0 < B ->
  n / B <= (a + n) / B - a / B <= (n + B - 1) / B.
Proof.
  intros Ha Hn HB.
  pose proof (Z.div_mod a B ltac:(lia)) as Hdiv.
  pose proof (Z.mod_pos_bound a B HB) as Hmod.
  set (s := a / B) in *. set (u := a mod B) in *.
  replace (a + n) with (s * B + (u + n)) by lia.
  rewrite Z.div_add_l by lia.
  assert (n / B <= (u + n) / B) by (apply Z.div_le_mono; lia).
  assert ((u + n) / B <= (n + B - 1) / B) by (apply Z.div_le_mono; lia).
  lia.
Qed.

Lemma block_size_bounds (n_channels nchan k : Z) :
  1 <= n_channels <= nchan -> 0 <= k ->
  let B := n_channel_blocks_for n_channels nchan in
  n_channels
  <= channel_index nchan B (k + 1) - channel_index nchan B k
  < 2 * n_channels.
Proof.
  intros Ht Hk B. unfold channel_index.
  assert (HB : B = nchan / n_channels).
  { unfold B, n_channel_blocks_for.
    destruct (Z.ltb_spec 0 n_channels); [| lia].
    assert (1 <= nchan / n_channels)
      by (apply Z.div_le_lower_bound; lia).
    lia. }
  assert (HB1 : 1 <= B).
  { rewrite HB. apply Z.div_le_lower_bound; lia. }
  pose proof (Z.mul_div_le nchan n_channels ltac:(lia)) as Hlow.
  pose proof (Z.mul_succ_div_gt nchan n_channels ltac:(lia)) as Hhigh.
  rewrite <- HB in Hlow, Hhigh.
  replace ((k + 1) * nchan) with (k * nchan + nchan) by lia.
  pose proof (div_window (k * nchan) nchan B ltac:(nia) ltac:(lia) ltac:(lia))
    as [Hmin Hmax].
  split.
  - assert (n_channels <= nchan / B)
      by (apply Z.div_le_lower_bound; nia).
    lia.
  - assert ((nchan + B - 1) / B < 2 * n_channels)
      by (apply Z.div_lt_upper_bound; nia).
    lia.
Qed.

(** X14. With a target of [n_channels] channels per block, between one
    and the channel count, every boundary is the one before it plus a
    whole number of uniform channel widths, in the arithmetic of the
    code (any number type, binary64 included), and that number is at
    least the target and less than twice the target: no block is smaller
    than asked for, and the channels left over are spread over the
    blocks. *)
Theorem blocks_hold_target_channels {F : Type} `{Arith F}
    (n_channels nchan : Z) (chanFreqs0 chanWidths0 : list F)
    (boundaries : list F) (k : nat) (lower upper : F) :
  1 <= n_channels <= nchan -> nchan < 2 ^ 32 ->
  DetermineChannelBlocks n_channels nchan chanFreqs0 chanWidths0
  = Ok boundaries ->
  boundaries !! k = Some lower ->
  boundaries !! S k = Some upper ->
  exists (chan_width : F) (channels : Z),
    n_channels <= channels < 2 * n_channels
    /\ upper = f_add lower (f_mul (f_of_Z channels) chan_width)
    /\ (forall f0 w0 f1 w1,
          head chanFreqs0 = Some f0 -> head chanWidths0 = Some w0 ->
          last chanFreqs0 = Some f1 -> last chanWidths0 = Some w1 ->
          chan_width
          = f_div (f_sub (max_freq_of f1 w1) (min_freq_of f0 w0))
              (f_of_Z nchan)).
Proof.
  intros Ht Hn Hrun Hlower Hupper.
  unfold DetermineChannelBlocks in Hrun.
  apply bind_Ok in Hrun as (f0 & Hf0 & Hrun).
  apply bind_Ok in Hrun as (w0 & Hw0 & Hrun).
  apply bind_Ok in Hrun as (f1 & Hf1 & Hrun).
  apply bind_Ok in Hrun as (w1 & Hw1 & Hrun).
  apply defined_Ok in Hf0, Hw0, Hf1, Hw1.
  injection Hrun as <-.
  set (B := n_channel_blocks_for n_channels nchan) in *.
  set (lo := min_freq_of f0 w0) in *.
  set (cw := f_div (f_sub (max_freq_of f1 w1) lo) (f_of_Z nchan)) in *.
  assert (Hk : (k < Z.to_nat B)%nat).
  { apply lookup_lt_Some in Hupper. rewrite block_loop_length in Hupper.
    cbn in Hupper. lia. }
  destruct (boundaries_step n_channels nchan lo cw ltac:(lia) k Hk)
    as (x & Hx & Hy).
  fold B in Hx, Hy.
  change (block_loop (Z.to_nat B) 0 nchan B cw 0 lo [lo] !! k = Some lower)
    in Hlower.
  change (block_loop (Z.to_nat B) 0 nchan B cw 0 lo [lo] !! S k = Some upper)
    in Hupper.
  assert (x = lower) by congruence. subst x.
  exists cw,
    (channel_index nchan B (Z.of_nat k + 1) - channel_index nchan B (Z.of_nat k)).
  split; [apply block_size_bounds; lia |]. split.
  - congruence.
  - intros f0' w0' f1' w1' H0 H1 H2 H3.
    rewrite Hf0 in H0. rewrite Hw0 in H1. rewrite Hf1 in H2.
    rewrite Hw1 in H3.
    injection H0 as <-. injection H1 as <-. injection H2 as <-.
    injection H3 as <-. reflexivity.
Qed.

Lemma midpoint_loop_spec {F : Type} `{Arith F} (starts : list F) :
  forall todo i acc,
    (i + todo < length starts)%nat ->
    exists mids,
      midpoint_loop todo i starts acc = Ok (acc ++ mids)
      /\ length mids = todo
      /\ forall j lower upper,
           (j < todo)%nat ->
           starts !! (i + j)%nat = Some lower ->
           starts !! (i + j + 1)%nat = Some upper ->
           mids !! j
           = Some (f_mul (f_add lower upper) (f_div (f_of_Z 1) (f_of_Z 2))).
Proof.
  induction todo as [| todo IH]; intros i acc Hlen.
  - exists []. cbn. rewrite app_nil_r. repeat split. intros; lia.
  - cbn [midpoint_loop].
    destruct (starts !! i) as [a |] eqn:Ha;
      [| apply lookup_ge_None in Ha; lia].
    destruct (starts !! (i + 1)%nat) as [b |] eqn:Hb;
      [| apply lookup_ge_None in Hb; lia].
    cbn [defined mbind outcome_bind].
    destruct (IH (S i)
                (acc ++ [f_mul (f_add a b) (f_div (f_of_Z 1) (f_of_Z 2))])
                ltac:(lia)) as (mids & Hrun & Hmids & Hval).
    exists (f_mul (f_add a b) (f_div (f_of_Z 1) (f_of_Z 2)) :: mids).
    split; [rewrite Hrun, <- app_assoc; reflexivity |].
    split; [cbn; lia |].
    intros j lower upper Hj Hl Hu. destruct j as [| j].
    + rewrite Nat.add_0_r in Hl, Hu.
      assert (a = lower) by congruence. assert (b = upper) by congruence.
      subst. reflexivity.
    + cbn [lookup list_lookup]. apply Hval; [lia | |].
      * replace (S i + j)%nat with (i + S j)%nat by lia. exact Hl.
      * replace (S i + j + 1)%nat with (i + S j + 1)%nat by lia. exact Hu.
Qed.

(** X15. The centre frequencies handed to the solution writer: for a
    non-empty array of boundaries there is one per block, computed from
    the two boundaries of its block alone as [(lower + upper) * 0.5] in
    the arithmetic of the code (any number type, binary64 included); for
    an empty array [size() - 1] wraps around and [reserve] throws. *)
Theorem centre_frequencies_per_block {F : Type} `{Arith F}
    (boundaries : list F) :
  Z.of_nat (length boundaries) < size_max ->
  (boundaries = [] ->
   exists what, chan_block_freqs boundaries = Fail (RuntimeError what))
  /\ (boundaries <> [] ->
      exists centres,
        chan_block_freqs boundaries = Ok centres
        /\ S (length centres) = length boundaries
        /\ forall k lower upper,
             boundaries !! k = Some lower ->
             boundaries !! S k = Some upper ->
             centres !! k
             = Some (f_mul (f_add lower upper)
                       (f_div (f_of_Z 1) (f_of_Z 2)))).
Proof.
  intros Hsize. split.
  - intros ->. eexists. reflexivity.
  - intros Hne.
    destruct boundaries as [| b0 bs]; [congruence |].
    unfold chan_block_freqs.
    replace (Z.to_nat (wrap64 (Z.of_nat (length (b0 :: bs)) - 1)))
      with (length bs).
    2:{ unfold wrap64. cbn [length] in *. rewrite Z.mod_small by lia. lia. }
    destruct (midpoint_loop_spec (b0 :: bs) (length bs) 0 [] ltac:(cbn; lia))
      as (mids & Hrun & Hlen & Hval).
    exists mids. split; [exact Hrun |]. split; [cbn; lia |].
    intros k lower upper Hl Hu.
    assert (Hk : (k < length bs)%nat).
    { apply lookup_lt_Some in Hu. cbn in Hu. lia. }
    apply Hval; [exact Hk | exact Hl |].
    replace (0 + k + 1)%nat with (S k) by lia. exact Hu.
Qed.

End PartitionerMore.

(* ===================================================================== *)
(** * Properties of ExtractResults                                         *)
(* ===================================================================== *)

Section ExtractFacts.

Import BdaDdeCal.
Import BdaDdeCalQueue.

Context `{E : Externals}.

#[local] Abbreviation buffer := (BDABuffer.t BufferMeta).

Lemma slot_new_row (n : nat) (mb : list (list (option buffer))) i d :
  slot (mb ++ [replicate n None]) i d = slot mb i d.
Proof.
  unfold slot. destruct (lt_eq_lt_dec i (length mb)) as [[Hlt | Heq] | Hgt].
  - rewrite lookup_app_l by exact Hlt. reflexivity.
  - subst i. rewrite list_lookup_middle by reflexivity.
    rewrite (lookup_ge_None_2 mb) by lia.
    destruct (replicate n None !! d) as [p |] eqn:Hp; [| reflexivity].
    apply lookup_replicate in Hp as [-> _]. reflexivity.
  - rewrite !lookup_ge_None_2; [reflexivity | lia |].
    rewrite length_app. cbn. lia.
Qed.

Lemma slot_insert (mb : list (list (option buffer))) q row d x i d' :
  mb !! q = Some row -> (d < length row)%nat ->
  slot (<[q := <[d := x]> row]> mb) i d'
  = if decide (i = q /\ d' = d) then x else slot mb i d'.
Proof.
  intros Hrow Hd. unfold slot.
  pose proof (lookup_lt_Some _ _ _ Hrow) as Hq.
  destruct (decide (i = q)) as [-> | Hne].
  - rewrite list_lookup_insert_eq by exact Hq. rewrite Hrow.
    destruct (decide (d' = d)) as [-> | Hne'].
    + rewrite list_lookup_insert_eq by exact Hd.
      rewrite decide_True by auto. reflexivity.
    + rewrite list_lookup_insert_ne by congruence.
      rewrite decide_False by tauto. reflexivity.
  - rewrite list_lookup_insert_ne by congruence.
    rewrite decide_False by tauto. reflexivity.
Qed.

Lemma place_results_spec n d :
  (d < n)%nat ->
  forall results q mb,
    rectangular n mb -> (q <= length mb)%nat ->
    exists mb',
      place_results n d results q mb = Ok mb'
      /\ rectangular n mb'
      /\ length mb' = Nat.max (length mb) (q + length results)
      /\ forall i d',
           slot mb' i d'
           = if decide (d' = d /\ q <= i < q + length results)%nat
             then results !! (i - q)%nat
             else slot mb i d'.
Proof.
  intros Hd. induction results as [| r rs IH]; intros q mb Hrect Hq.
  - exists mb. cbn [place_results length]. split; [reflexivity |].
    split; [exact Hrect |]. split; [lia |].
    intros i d'. rewrite decide_False by lia. reflexivity.
  - cbn [place_results].
    set (mb1 := if (q =? length mb)%nat
                then mb ++ [replicate n None] else mb).
    assert (Hrect1 : rectangular n mb1).
    { unfold mb1. destruct (q =? length mb)%nat; [| exact Hrect].
      apply Forall_app. split; [exact Hrect |].
      constructor; [apply length_replicate | constructor]. }
    assert (Hlen1 : length mb1 = Nat.max (length mb) (q + 1)).
    { unfold mb1. destruct (Nat.eqb_spec q (length mb)).
      - rewrite length_app. cbn. lia.
      - lia. }
    assert (Hslot1 : forall i d', slot mb1 i d' = slot mb i d').
    { intros i d'. unfold mb1. destruct (q =? length mb)%nat;
        [apply slot_new_row | reflexivity]. }
    destruct (mb1 !! q) as [row |] eqn:Hrow;
      [| apply lookup_ge_None in Hrow; lia].
    assert (Hwidth : length row = n).
    { unfold rectangular in Hrect1. rewrite Forall_forall in Hrect1.
      apply Hrect1. eapply list_elem_of_lookup_2. exact Hrow. }
    cbn [defined mbind outcome_bind]. unfold store.
    rewrite decide_True by lia. cbn [mbind outcome_bind].
    destruct (IH (S q) (<[q := <[d := Some r]> row]> mb1))
      as (mb' & Hrun & Hrect' & Hlen' & Hslot').
    { apply Forall_insert; [exact Hrect1 |].
      rewrite length_insert. exact Hwidth. }
    { rewrite length_insert. lia. }
    exists mb'. split; [exact Hrun |]. split; [exact Hrect' |].
    split; [rewrite Hlen', length_insert; cbn [length]; lia |].
    intros i d'. rewrite Hslot'.
    rewrite (slot_insert mb1 q row d (Some r) i d' Hrow ltac:(lia)).
    rewrite Hslot1. cbn [length].
    destruct (decide (d' = d /\ S q <= i < S q + length rs)%nat)
      as [[-> Hi] | Hout].
    + rewrite decide_True by lia.
      replace (i - q)%nat with (S (i - S q)) by lia. reflexivity.
    + destruct (decide (i = q /\ d' = d)) as [[-> ->] | Hout'].
      * rewrite decide_True by lia. rewrite Nat.sub_diag. reflexivity.
      * rewrite decide_False by lia. reflexivity.
Qed.

Lemma first_free_slot_spec n d :
  (d < n)%nat ->
  forall mb,
    rectangular n mb ->
    exists k,
      first_free_slot mb d = Ok k
      /\ (k <= length mb)%nat
      /\ (forall i, (i < k)%nat -> slot mb i d <> None)
      /\ slot mb k d = None.
Proof.
  intros Hd. induction mb as [| row mb IH]; intros Hrect.
  - exists 0%nat. repeat split; [cbn; lia | intros; lia].
  - apply Forall_cons_1 in Hrect as [Hwidth Hrect].
    cbn [first_free_slot].
    destruct (row !! d) as [pointer |] eqn:Hp;
      [| apply lookup_ge_None in Hp; lia].
    cbn [defined mbind outcome_bind].
    destruct pointer as [b |]; cbn [pointer_is_set].
    + destruct (IH Hrect) as (k & Hk & Hle & Hset & Hfree).
      rewrite Hk. cbn [mbind outcome_bind].
      exists (S k). split; [reflexivity |]. split; [cbn; lia |]. split.
      * intros i Hi. destruct i as [| i].
        -- unfold slot. cbn. rewrite Hp. discriminate.
        -- apply (Hset i). lia.
      * exact Hfree.
    + exists 0%nat. split; [reflexivity |]. split; [cbn; lia |].
      split; [intros; lia |]. unfold slot. cbn. rewrite Hp. reflexivity.
Qed.

Lemma first_free_slot_ext n d mb mb' :
  (d < n)%nat -> rectangular n mb -> rectangular n mb' ->
  (forall i, slot mb' i d = slot mb i d) ->
  first_free_slot mb' d = first_free_slot mb d.
Proof.
  intros Hd Hrect Hrect' Hsame.
  destruct (first_free_slot_spec n d Hd mb Hrect) as (k & -> & _ & Hset & Hfree).
  destruct (first_free_slot_spec n d Hd mb' Hrect')
    as (k' & -> & _ & Hset' & Hfree').
  f_equal. destruct (lt_eq_lt_dec k k') as [[Hlt | Heq] | Hgt].
  - exfalso. apply (Hset' k Hlt). rewrite Hsame. exact Hfree.
  - exact (eq_sym Heq).
  - exfalso. apply (Hset k' Hgt). rewrite <- Hsame. exact Hfree'.
Qed.

Lemma extract_loop_spec n :
  forall todo d0 mb,
    rectangular n mb -> (d0 + length todo <= n)%nat ->
    exists mb',
      extract_loop d0 todo n mb = Ok mb'
      /\ rectangular n mb'
      /\ (length mb <= length mb')%nat
      /\ forall d k i,
           (d < n)%nat ->
           first_free_slot mb d = Ok k ->
           slot mb' i d
           = match (if decide (d0 <= d)%nat then todo !! (d - d0)%nat
                    else None) with
             | Some results =>
                 if decide (k <= i < k + length results)%nat
                 then results !! (i - k)%nat
                 else slot mb i d
             | None => slot mb i d
             end.
Proof.
  induction todo as [| results todo IH]; intros d0 mb Hrect Hbound.
  - exists mb. split; [reflexivity |]. split; [exact Hrect |].
    split; [lia |]. intros d k i _ _.
    destruct (decide (d0 <= d)%nat); reflexivity.
  - cbn [length] in Hbound. cbn [extract_loop].
    assert (Hd0 : (d0 < n)%nat) by lia.
    destruct (first_free_slot_spec n d0 Hd0 mb Hrect)
      as (k0 & Hk0 & Hle0 & _ & _).
    assert (Hstep : exists mb1,
      (if is_empty results then Ok mb
       else
         queue_index ← first_free_slot mb d0;
         place_results n d0 results queue_index mb) = Ok mb1
      /\ rectangular n mb1
      /\ (length mb <= length mb1)%nat
      /\ forall i d',
           slot mb1 i d'
           = if decide (d' = d0 /\ k0 <= i < k0 + length results)%nat
             then results !! (i - k0)%nat
             else slot mb i d').
    { destruct results as [| r rs].
      - exists mb. split; [reflexivity |]. split; [exact Hrect |].
        split; [lia |]. intros i d'. cbn [length].
        rewrite decide_False by lia. reflexivity.
      - cbn [is_empty]. rewrite Hk0. cbn [mbind outcome_bind].
        destruct (place_results_spec n d0 Hd0 (r :: rs) k0 mb Hrect Hle0)
          as (mb1 & Hrun & Hrect1 & Hlen1 & Hslot1).
        exists mb1. split; [exact Hrun |]. split; [exact Hrect1 |].
        split; [lia | exact Hslot1]. }
    destruct Hstep as (mb1 & -> & Hrect1 & Hlen1 & Hslot1).
    cbn [mbind outcome_bind].
    destruct (IH (S d0) mb1 Hrect1 ltac:(lia))
      as (mb' & Hrun & Hrect' & Hlen' & Hslot').
    exists mb'. split; [exact Hrun |]. split; [exact Hrect' |].
    split; [lia |].
    intros d k i Hd Hk.
    destruct (decide (d = d0)) as [-> | Hne].
    + destruct (first_free_slot_spec n d0 Hd0 mb1 Hrect1)
        as (k1 & Hk1 & _).
      rewrite (Hslot' d0 k1 i Hd0 Hk1).
      rewrite decide_False by lia.
      rewrite decide_True by lia. rewrite Nat.sub_diag. cbn [lookup list_lookup].
      rewrite Hslot1.
      assert (k = k0) by congruence. subst k.
      destruct (decide (k0 <= i < k0 + length results)%nat).
      * rewrite decide_True by auto. reflexivity.
      * rewrite decide_False by tauto. reflexivity.
    + assert (Hk1 : first_free_slot mb1 d = Ok k).
      { rewrite <- Hk. apply (first_free_slot_ext n d mb mb1 Hd Hrect Hrect1).
        intros j. rewrite Hslot1. rewrite decide_False by tauto.
        reflexivity. }
      rewrite (Hslot' d k i Hd Hk1).
      destruct (decide (d0 <= d)%nat) as [Hge | Hlt].
      * rewrite decide_True by lia.
        replace (d - d0)%nat with (S (d - S d0)) by lia.
        cbn [lookup list_lookup].
        destruct (todo !! (d - S d0)%nat) as [rs |].
        -- destruct (decide (k <= i < k + length rs)%nat); [reflexivity |].
           rewrite Hslot1. rewrite decide_False by tauto. reflexivity.
        -- rewrite Hslot1. rewrite decide_False by tauto. reflexivity.
      * rewrite decide_False by lia.
        rewrite Hslot1. rewrite decide_False by tauto. reflexivity.
Qed.

(** What [ExtractResults] does to the queue, for every place of it. *)
Lemma ExtractResults_spec st :
  rectangular (length (result_steps_ st)) (model_buffers_ st) ->
  exists st',
    ExtractResults st = Ok st'
    /\ rectangular (length (result_steps_ st)) (model_buffers_ st')
    /\ (length (model_buffers_ st) <= length (model_buffers_ st'))%nat
    /\ result_steps_ st' = map (fun _ => []) (result_steps_ st)
    /\ data_buffers_ st' = data_buffers_ st
    /\ events_ st' = events_ st
    /\ settings_ st' = settings_ st
    /\ same_bookkeeping st st'
    /\ forall d results k i,
         result_steps_ st !! d = Some results ->
         first_free_slot (model_buffers_ st) d = Ok k ->
         slot (model_buffers_ st') i d
         = if decide (k <= i < k + length results)%nat
           then results !! (i - k)%nat
           else slot (model_buffers_ st) i d.
Proof.
  intros Hrect.
  destruct (extract_loop_spec (length (result_steps_ st)) (result_steps_ st)
              0 (model_buffers_ st) Hrect ltac:(lia))
    as (mb' & Hrun & Hrect' & Hlen' & Hslot').
  unfold ExtractResults. rewrite Hrun. cbn [mbind outcome_bind].
  eexists. split; [reflexivity |].
  destruct st. cbn in *.
  split; [exact Hrect' |]. split; [exact Hlen' |].
  repeat (split; [reflexivity |]). split; [repeat split |].
  intros d results k i Hres Hk.
  pose proof (lookup_lt_Some _ _ _ Hres) as Hd.
  rewrite (Hslot' d k i Hd Hk).
  rewrite decide_True by lia. rewrite Nat.sub_0_r, Hres. reflexivity.
Qed.

(** X16. [ExtractResults] takes everything out of the result steps and
    stores what direction [d] gave in column [d] of the queue, in order,
    in consecutive rows from that direction's first free slot on; every
    other place of the queue keeps its pointer, rows are only added, and
    the queue stays rectangular. *)
Theorem extract_places_results st :
  rectangular (length (result_steps_ st)) (model_buffers_ st) ->
  exists st',
    ExtractResults st = Ok st'
    /\ rectangular (length (result_steps_ st)) (model_buffers_ st')
    /\ (length (model_buffers_ st) <= length (model_buffers_ st'))%nat
    /\ Forall (fun results => results = []) (result_steps_ st')
    /\ length (result_steps_ st') = length (result_steps_ st)
    /\ forall d results k i,
         result_steps_ st !! d = Some results ->
         first_free_slot (model_buffers_ st) d = Ok k ->
         slot (model_buffers_ st') i d
         = if decide (k <= i < k + length results)%nat
           then results !! (i - k)%nat
           else slot (model_buffers_ st) i d.
Proof.
  intros Hrect.
  destruct (ExtractResults_spec st Hrect)
    as (st' & Hrun & Hrect' & Hlen & Hres & _ & _ & _ & _ & Hslot).
  exists st'. split; [exact Hrun |]. split; [exact Hrect' |].
  split; [exact Hlen |]. split.
  { rewrite Hres. apply Forall_fmap. apply Forall_true. reflexivity. }
  split; [rewrite Hres; apply length_map | exact Hslot].
Qed.

(** X17. When in every direction the set pointers come first in the
    queue, [ExtractResults] overwrites no buffer that is waiting in the
    queue, and afterwards the set pointers still come first in every
    direction. *)
Theorem extract_keeps_waiting_buffers st :
  rectangular (length (result_steps_ st)) (model_buffers_ st) ->
  (forall d, (d < length (result_steps_ st))%nat ->
             no_holes (model_buffers_ st) d) ->
  exists st',
    ExtractResults st = Ok st'
    /\ (forall i d b,
          slot (model_buffers_ st) i d = Some b ->
          slot (model_buffers_ st') i d = Some b)
    /\ (forall d, (d < length (result_steps_ st))%nat ->
                  no_holes (model_buffers_ st') d).
Proof.
  intros Hrect Hholes.
  destruct (ExtractResults_spec st Hrect)
    as (st' & Hrun & Hrect' & _ & _ & _ & _ & _ & _ & Hslot).
  exists st'. split; [exact Hrun |].
  assert (Hcol : forall d, (d < length (result_steps_ st))%nat ->
            exists results k,
              result_steps_ st !! d = Some results
              /\ first_free_slot (model_buffers_ st) d = Ok k
              /\ (forall i, (i < k)%nat ->
                             slot (model_buffers_ st) i d <> None)
              /\ slot (model_buffers_ st) k d = None).
  { intros d Hd.
    destruct (result_steps_ st !! d) as [results |] eqn:Hres;
      [| apply lookup_ge_None in Hres; lia].
    destruct (first_free_slot_spec _ d Hd _ Hrect) as (k & Hk & _ & Hset & Hf).
    exists results, k. auto. }
  split.
  - intros i d b Hb.
    destruct (lt_dec d (length (result_steps_ st))) as [Hd | Hd].
    + destruct (Hcol d Hd) as (results & k & Hres & Hk & _ & Hfree).
      rewrite (Hslot d results k i Hres Hk).
      rewrite decide_False; [exact Hb |].
      intros [Hki _].
      rewrite (Hholes d Hd k i Hki Hfree) in Hb. discriminate.
    + exfalso. unfold slot in Hb.
      destruct (model_buffers_ st !! i) as [row |] eqn:Hrow; [| discriminate].
      assert (length row = length (result_steps_ st)).
      { unfold rectangular in Hrect. rewrite Forall_forall in Hrect.
        apply Hrect. eapply list_elem_of_lookup_2. exact Hrow. }
      rewrite lookup_ge_None_2 in Hb by lia. discriminate.
  - intros d Hd i j Hij Hnone.
    destruct (Hcol d Hd) as (results & k & Hres & Hk & Hset & Hfree).
    rewrite (Hslot d results k i Hres Hk) in Hnone.
    rewrite (Hslot d results k j Hres Hk).
    destruct (decide (k <= i < k + length results)%nat) as [Hin | Hout].
    + exfalso. apply lookup_ge_None in Hnone. lia.
    + destruct (lt_dec i k) as [Hlt | Hge];
        [exfalso; exact (Hset i Hlt Hnone) |].
      rewrite decide_False by lia.
      apply (Hholes d Hd k j ltac:(lia) Hfree).
Qed.

End ExtractFacts.

(* ===================================================================== *)
(** * The queue across ProcessCompleteDirections, and process             *)
(* ===================================================================== *)

Section QueueInvariant.

Import BdaDdeCal.
Import BdaDdeCalQueue.

Context `{E : Externals}.

#[local] Abbreviation buffer := (BDABuffer.t BufferMeta).

Lemma complete_loop_pops queue :
  forall st st',
    model_buffers_ st = queue ->
    complete_loop queue st = Ok st' ->
    exists m, model_buffers_ st' = drop m queue.
Proof.
  induction queue as [| front queue IH]; intros st st' Hqueue Hrun.
  - injection Hrun as <-. exists 0%nat. rewrite Hqueue. reflexivity.
  - cbn [complete_loop] in Hrun.
    destruct (forallb pointer_is_set front).
    + apply bind_Ok in Hrun as (st1 & _ & Hrun).
      destruct (IH (set_model_buffers st1 queue) st' eq_refl Hrun) as [m Hm].
      exists (S m). exact Hm.
    + injection Hrun as <-. exists 0%nat. rewrite Hqueue. reflexivity.
Qed.

Lemma slot_drop (mb : list (list (option buffer))) m i d :
  slot (drop m mb) i d = slot mb (m + i) d.
Proof. unfold slot. rewrite lookup_drop. reflexivity. Qed.

(** X18. [ProcessCompleteDirections] only removes rows from the front of
    the queue: the queue stays rectangular, and when the set pointers
    came first in a direction they still do. *)
Theorem process_pops_front_rows fuel st st' :
  ProcessCompleteDirections fuel st = Ok st' ->
  exists m,
    model_buffers_ st' = drop m (model_buffers_ st)
    /\ (forall n, rectangular n (model_buffers_ st) ->
                  rectangular n (model_buffers_ st'))
    /\ (forall d, no_holes (model_buffers_ st) d ->
                  no_holes (model_buffers_ st') d).
Proof.
  unfold ProcessCompleteDirections. intros Hrun.
  apply bind_Ok in Hrun as (st1 & Hloop & Hrun).
  destruct (complete_loop_pops _ _ _ eq_refl Hloop) as [m Hm].
  assert (Hsame : model_buffers_ st' = model_buffers_ st1).
  { destruct (only_predict (settings_ st1)); cbn [negb] in Hrun.
    - injection Hrun as <-. reflexivity.
    - apply bind_Ok in Hrun as (st2 & Hsolve & Hdone).
      apply solve_loop_effect in Hsolve as (k & _ & _ & _ & Hmodel & _).
      apply forward_done_frame in Hdone as (_ & _ & Hmodel' & _).
      congruence. }
  exists m. rewrite Hsame, Hm. split; [reflexivity |]. split.
  - intros n Hrect. apply Forall_drop. exact Hrect.
  - intros d Hholes i j Hij. rewrite !slot_drop.
    apply Hholes. lia.
Qed.

End QueueInvariant.

Section ProcessFacts.

Import BdaDdeCal.
Import BdaDdeCalQueue.
Import BdaDdeCalProcess.

Context `{P : Predictors}.

#[local] Abbreviation buffer := (BDABuffer.t BufferMeta).

Lemma all_empty_map (l : list (list buffer)) :
  Forall (fun results => results = [])
    (map (fun _ : list buffer => @nil buffer) l).
Proof. induction l; constructor; auto. Qed.

Lemma feed_steps_prompt b :
  forall steps result_steps outs,
    Forall (fun results => results = []) result_steps ->
    length result_steps = length steps ->
    prompt steps b outs ->
    snd (feed_steps steps result_steps b) = map (fun out => [out]) outs
    /\ length (fst (feed_steps steps result_steps b)) = length steps.
Proof.
  induction steps as [| step steps IH]; intros result_steps outs Hempty Hlen Hp.
  - destruct result_steps; [| discriminate]. inversion Hp. split; reflexivity.
  - destruct result_steps as [| results result_steps]; [discriminate |].
    inversion Hp as [| ? out ? outs' Hout Hrest]; subst.
    apply Forall_cons_1 in Hempty as [-> Hempty].
    cbn [feed_steps fst snd map app length].
    destruct (IH result_steps outs' Hempty ltac:(cbn in Hlen; lia) Hrest)
      as [-> ->].
    rewrite Hout. split; reflexivity.
Qed.

Lemma extract_fills_row (n : nat) :
  forall todo done,
    done <> [] ->
    n = (length done + length todo)%nat ->
    extract_loop (length done) (map (fun out => [out]) todo) n
      [map Some done ++ replicate (length todo) None]
    = Ok [map Some (done ++ todo)].
Proof.
  induction todo as [| out todo IH]; intros done Hdone Hn.
  - cbn. rewrite !app_nil_r. reflexivity.
  - cbn [map extract_loop is_empty first_free_slot length].
    rewrite lookup_app_r by (rewrite length_map; lia).
    rewrite length_map, Nat.sub_diag. cbn [replicate lookup list_lookup].
    cbn [defined mbind outcome_bind pointer_is_set place_results length
         Nat.eqb lookup list_lookup].
    unfold store. rewrite decide_True
      by (rewrite length_app, length_map; cbn; lia).
    cbn [mbind outcome_bind insert list_insert].
    replace (<[length done := Some out]>
               (map Some done ++ None :: replicate (length todo) None))
      with (map Some (done ++ [out]) ++ replicate (length todo) None).
    2:{ rewrite map_app, <- app_assoc. cbn [map app].
        rewrite insert_app_r_alt by (rewrite length_map; lia).
        rewrite length_map, Nat.sub_diag. reflexivity. }
    replace (S (length done)) with (length (done ++ [out]))
      by (rewrite length_app; cbn; lia).
    rewrite IH.
    + rewrite <- app_assoc. reflexivity.
    + destruct done; discriminate.
    + rewrite length_app. cbn [length] in *. lia.
Qed.

Lemma extract_prompt (out : buffer) (outs : list buffer) :
  extract_loop 0 (map (fun out => [out]) (out :: outs)) (S (length outs)) []
  = Ok [pointers (out, outs)].
Proof.
  cbn [map extract_loop is_empty first_free_slot mbind outcome_bind
       place_results length Nat.eqb app].
  cbn [replicate lookup list_lookup defined mbind outcome_bind].
  unfold store at 1. rewrite decide_True by (cbn; lia).
  cbn [mbind outcome_bind insert list_insert].
  exact (extract_fills_row (S (length outs)) outs [out] ltac:(discriminate)
           eq_refl).
Qed.

(** X19. In only-predict mode, with an empty queue and sub-steps that
    answer at once, one call of [process] forwards exactly one buffer:
    the answer of direction 0 holding the element-wise sum of the
    answers of all directions; the queue and the result steps are empty
    again afterwards and the buffer itself is not stored. *)
Theorem process_forwards_predicted_sum fuel st b out outs :
  only_predict (settings_ st) = true ->
  model_buffers_ st = [] ->
  Forall (fun results => results = []) (result_steps_ st) ->
  length (result_steps_ st) = length (steps_ st) ->
  prompt (steps_ st) b (out :: outs) ->
  same_sizes out outs ->
  exists st',
    process fuel st b = Ok (st', true)
    /\ events_ st' = events_ st ++ [forwarded_sum (out, outs)]
    /\ model_buffers_ st' = []
    /\ Forall (fun results => results = []) (result_steps_ st')
    /\ data_buffers_ st' = data_buffers_ st.
Proof.
  intros Hpredict Hqueue Hempty Hlen Hprompt Hsizes.
  destruct (feed_steps_prompt b _ _ _ Hempty Hlen Hprompt) as [Hfed Hsteps].
  unfold process. cbv zeta.
  cbn [settings_ set_result_steps set_steps]. rewrite Hpredict. cbn [negb].
  unfold ExtractResults.
  cbn [result_steps_ model_buffers_ set_result_steps set_steps].
  rewrite Hfed, Hqueue, length_map. cbn [length].
  rewrite (extract_prompt out outs). cbn [mbind outcome_bind].
  unfold ProcessCompleteDirections.
  cbn [model_buffers_ set_model_buffers].
  pose proof (complete_loop_predict [(out, outs)] [] I
                ltac:(constructor; [exact Hsizes | constructor])) as Hloop.
  cbn [map app] in Hloop. rewrite Hloop by (destruct st; exact Hpredict).
  cbn [mbind outcome_bind].
  cbn [settings_ set_model_buffers set_events set_result_steps set_steps].
  rewrite Hpredict. cbn [negb].
  eexists. split; [reflexivity |]. destruct st. cbn.
  repeat split.
  apply (all_empty_map ([out] :: map (fun out => [out]) outs)).
Qed.

(** X20. When solving, with an empty queue, no data buffer waiting and
    sub-steps that answer at once, one call of [process] hands the
    buffer to the solver buffer together with the model buffers
    predicted from it; when that completes no interval, nothing is
    solved. *)
Theorem process_pairs_data_with_model fuel st b out outs solver_buffer :
  only_predict (settings_ st) = false ->
  model_buffers_ st = [] ->
  data_buffers_ st = [] ->
  solver_buffer_ st = Some solver_buffer ->
  Forall (fun results => results = []) (result_steps_ st) ->
  length (result_steps_ st) = length (steps_ st) ->
  prompt (steps_ st) b (out :: outs) ->
  IntervalIsComplete
    (AppendAndWeight solver_buffer (Some b) (pointers (out, outs))) = false ->
  exists st',
    process (S fuel) st b = Ok (st', true)
    /\ solver_buffer_ st'
       = Some (GetDone
                 (AppendAndWeight solver_buffer (Some b)
                    (pointers (out, outs)))).2
    /\ data_buffers_ st' = []
    /\ model_buffers_ st' = []
    /\ solves (events_ st') = solves (events_ st)
    /\ same_bookkeeping st st'.
Proof.
  intros Hsolving Hqueue Hdata Hbuffer Hempty Hlen Hprompt Hnot.
  destruct (feed_steps_prompt b _ _ _ Hempty Hlen Hprompt) as [Hfed Hsteps].
  unfold process. cbv zeta.
  cbn [settings_ set_result_steps set_steps]. rewrite Hsolving. cbn [negb].
  unfold ExtractResults.
  cbn [result_steps_ model_buffers_ set_result_steps set_steps
       set_data_buffers].
  rewrite Hfed, Hqueue, length_map. cbn [length].
  rewrite (extract_prompt out outs). cbn [mbind outcome_bind].
  match goal with
  | |- context [ProcessCompleteDirections (S fuel) ?s] => set (st1 := s)
  end.
  destruct (appends_then_forwards fuel st1 solver_buffer
              [pointers (out, outs)] [] [b] [])
    as (st' & Hrun & Hd & Hm & Hb & He & Hbook).
  - destruct st; exact Hsolving.
  - destruct st; exact Hbuffer.
  - reflexivity.
  - constructor; [apply pointers_complete | constructor].
  - exact I.
  - unfold st1. destruct st. cbn in *. rewrite Hdata. reflexivity.
  - reflexivity.
  - exact Hnot.
  - rewrite Hrun. cbn [mbind outcome_bind].
    exists st'. split; [reflexivity |].
    split; [exact Hb |]. split; [exact Hd |]. split; [exact Hm |].
    split.
    + rewrite He. unfold st1. destruct st. cbn.
      rewrite !solves_app. cbn.
      assert (Hz : forall l : list buffer,
                solves (map NextStepProcess l) = 0%nat)
        by (induction l; [reflexivity | assumption]).
      rewrite Hz. lia.
    + unfold st1 in Hbook. destruct st. exact Hbook.
Qed.

End ProcessFacts.

(* ===================================================================== *)
(** * The further properties at work in the concrete setting               *)
(* ===================================================================== *)

Section MoreRuns.

Import BdaDdeCal.
Import BdaDdeCalQueue.
Import BdaDdeCalProcess.
Import Demo.
Import DemoProcess.

#[local] Existing Instance world.
#[local] Existing Instance predictors.

#[local] Open Scope string_scope.

Lemma solve_keeps_earlier_intervals_witness :
  exists st' initial result solved,
    SolveCurrentInterval (E := world)
      (ready propagating scalar [solved_half] [3]) = Ok st'
    /\ Solve (Externals := world) scalar tt initial
         (solve_time (ready propagating scalar [solved_half] [3]))
       = Ok (result, solved)
    /\ solutions_ st' = [solved_half; solved]
    /\ iterations_ st' = [3; SolverBase.iterations result]
    /\ model_buffers_ st' = []
    /\ data_buffers_ st' = [].
Proof.
  assert (Hex : exists st',
             SolveCurrentInterval (E := world)
               (ready propagating scalar [solved_half] [3]) = Ok st')
    by (eexists; vm_compute; reflexivity).
  destruct Hex as [st' Hrun].
  destruct (solve_keeps_earlier_intervals (E := world) _ _ Hrun)
    as (solver & solver_buffer & initial & result & solved & Hsolver & _ & _
        & Hsolve & Hsol & Hit & _ & Hd & Hm & _).
  injection Hsolver as <-.
  exists st', initial, result, solved.
  split; [exact Hrun |]. split; [exact Hsolve |].
  split; [exact Hsol |]. split; [exact Hit |].
  split; [exact Hm | exact Hd].
Defined.

Lemma first_solve_is_neutral_witness :
  exists st' solved,
    SolveCurrentInterval (E := world) (ready propagating full_jones [] [])
    = Ok st'
    /\ solutions_ st' = [solved].
Proof.
  assert (Hex : exists st',
             SolveCurrentInterval (E := world)
               (ready propagating full_jones [] []) = Ok st')
    by (eexists; vm_compute; reflexivity).
  destruct Hex as [st' Hrun].
  destruct (first_solve_is_neutral (E := world)
              (ready propagating full_jones [] []) st' eq_refl Hrun)
    as (solver & solver_buffer & result & solved & _ & _ & _ & Hsol & _).
  exists st', solved. split; [exact Hrun | exact Hsol].
Defined.

Lemma process_drains_complete_fronts_witness :
  exists st',
    ProcessCompleteDirections (E := world) 0
      (predicting [[Some (visibilities [1; 2]); Some (visibilities [3; 4])];
                   [Some (visibilities [5; 6]); None]])
    = Ok st'
    /\ front_incomplete (model_buffers_ st').
Proof.
  assert (Hex : exists st',
    ProcessCompleteDirections (E := world) 0
      (predicting [[Some (visibilities [1; 2]); Some (visibilities [3; 4])];
                   [Some (visibilities [5; 6]); None]])
    = Ok st') by (eexists; vm_compute; reflexivity).
  destruct Hex as [st' Hrun]. exists st'. split; [exact Hrun |].
  exact (process_drains_complete_fronts (E := world) _ _ _ Hrun).
Defined.

Lemma process_keeps_lockstep_witness :
  exists st',
    ProcessCompleteDirections (E := DemoIntervals.counting) 3
      DemoIntervals.busy = Ok st'
    /\ solves (events_ st') = 2%nat
    /\ lockstep st' 2.
Proof.
  assert (Hex : exists st',
             ProcessCompleteDirections (E := DemoIntervals.counting) 3
               DemoIntervals.busy = Ok st'
             /\ solves (events_ st') = 2%nat).
  { eexists. split; vm_compute; reflexivity. }
  destruct Hex as (st' & Hrun & Hcount).
  destruct (process_keeps_lockstep (E := DemoIntervals.counting) 3
              DemoIntervals.busy st' 0 eq_refl ltac:(repeat split) Hrun)
    as (k & Hlock & Hsolves).
  rewrite Hcount in Hsolves. cbn in Hsolves. subst k.
  exists st'. split; [exact Hrun |]. split; [exact Hcount | exact Hlock].
Defined.


Lemma solving_needs_data_buffer_witness :
  ProcessCompleteDirections (E := world) 1 starved = Fail AssertionFailed.
Proof.
  apply (solving_needs_data_buffer (E := world) 1 starved
           [Some (visibilities [1; 2])] [] eq_refl eq_refl eq_refl eq_refl).
  left. reflexivity.
Defined.

Lemma full_jones_start_needs_whole_matrices_witness :
  InitializeCurrentSolutions (E := world)
    (ready propagating full_jones [[replicate 6 (of_real d1)]] [])
  = Fail Undefined.
Proof.
  apply (full_jones_start_needs_whole_matrices (E := world)
           (ready propagating full_jones [[replicate 6 (of_real d1)]] [])
           full_jones [replicate 6 (of_real d1)] eq_refl eq_refl eq_refl).
  constructor. intros [k Hk]. cbn in Hk. lia.
Defined.

Lemma propagation_checks_shape_witness :
  InitializeCurrentSolutions (E := world)
    (ready copying scalar [solved_half; [replicate 3 (of_real d1)]] [3])
  = Fail AssertionFailed.
Proof.
  apply (propagation_checks_shape (E := world)
           (ready copying scalar [solved_half; [replicate 3 (of_real d1)]] [3])
           [solved_half] [replicate 3 (of_real d1)] solved_half
           eq_refl eq_refl eq_refl eq_refl eq_refl).
  intros Hall. apply Forall2_cons_1 in Hall as [Hlen _]. discriminate Hlen.
Defined.


Lemma blocks_hold_target_channels_witness :
  exists (chan_width : double) (channels : Z) boundaries lower upper,
    Partitioner.DetermineChannelBlocks 2 6 DemoBands.uneven_freqs DemoBands.uneven_widths
    = Ok boundaries
    /\ boundaries !! 1%nat = Some lower
    /\ boundaries !! 2%nat = Some upper
    /\ (2 <= channels < 2 * 2)%Z
    /\ upper = PrimFloat.add lower (PrimFloat.mul (double_of_Z channels) chan_width).
Proof.
  assert (Hex : exists boundaries lower upper,
             Partitioner.DetermineChannelBlocks 2 6 DemoBands.uneven_freqs
               DemoBands.uneven_widths = Ok boundaries
             /\ boundaries !! 1%nat = Some lower
             /\ boundaries !! 2%nat = Some upper).
  { do 3 eexists. split; [vm_compute; reflexivity |].
    split; reflexivity. }
  destruct Hex as (boundaries & lower & upper & Hrun & Hlower & Hupper).
  destruct (blocks_hold_target_channels (F := double) 2 6
              DemoBands.uneven_freqs DemoBands.uneven_widths boundaries 1
              lower upper ltac:(lia) ltac:(lia) Hrun Hlower Hupper)
    as (chan_width & channels & Hbounds & Hstep & _).
  exists chan_width, channels, boundaries, lower, upper.
  split; [exact Hrun |]. split; [exact Hlower |]. split; [exact Hupper |].
  split; [exact Hbounds | exact Hstep].
Defined.

Lemma centre_frequencies_per_block_witness :
  exists centres,
    chan_block_freqs [d0; double_of_Z 2; double_of_Z 4] = Ok centres
    /\ length centres = 2%nat
    /\ centres !! 1%nat
       = Some (PrimFloat.mul (PrimFloat.add (double_of_Z 2) (double_of_Z 4))
                 (PrimFloat.div (double_of_Z 1) (double_of_Z 2))).
Proof.
  destruct (centre_frequencies_per_block (F := double)
              [d0; double_of_Z 2; double_of_Z 4])
    as [_ Hsome].
  - vm_compute. reflexivity.
  - destruct (Hsome ltac:(discriminate)) as (centres & Hrun & Hlen & Hval).
    exists centres. split; [exact Hrun |].
    split; [cbn in Hlen; lia |].
    exact (Hval 1%nat (double_of_Z 2) (double_of_Z 4) eq_refl eq_refl).
Defined.

Lemma extracting_rectangular :
  rectangular (E := world) 2 (model_buffers_ extracting).
Proof. repeat constructor. Qed.

Lemma extracting_no_holes d :
  (d < 2)%nat -> no_holes (E := world) (model_buffers_ extracting) d.
Proof.
  intros Hd i j Hij Hnone.
  destruct j as [| j]; [| reflexivity].
  assert (i = 0%nat) by lia. subst i. exact Hnone.
Qed.

Lemma extract_places_results_witness :
  exists st',
    ExtractResults (E := world) extracting = Ok st'
    /\ slot (model_buffers_ st') 1 1 = Some (visibilities [7; 8])
    /\ slot (model_buffers_ st') 0 0 = Some (visibilities [1; 2]).
Proof.
  destruct (extract_places_results (E := world) extracting
              extracting_rectangular)
    as (st' & Hrun & _ & _ & _ & _ & Hslot).
  exists st'. split; [exact Hrun |]. split.
  - exact (Hslot 1%nat [visibilities [5; 6]; visibilities [7; 8]] 0%nat 1%nat
             eq_refl eq_refl).
  - exact (Hslot 0%nat [visibilities [3; 4]] 1%nat 0%nat eq_refl eq_refl).
Defined.

Lemma extract_keeps_waiting_buffers_witness :
  exists st',
    ExtractResults (E := world) extracting = Ok st'
    /\ slot (model_buffers_ st') 0 0 = Some (visibilities [1; 2])
    /\ no_holes (model_buffers_ st') 1.
Proof.
  destruct (extract_keeps_waiting_buffers (E := world) extracting
              extracting_rectangular extracting_no_holes)
    as (st' & Hrun & Hkeep & Hholes).
  exists st'. split; [exact Hrun |]. split.
  - apply Hkeep. reflexivity.
  - apply Hholes. cbn. lia.
Defined.

Lemma process_pops_front_rows_witness :
  exists st' m,
    ProcessCompleteDirections (E := world) 0
      (predicting [[Some (visibilities [1; 2]); Some (visibilities [3; 4])];
                   [Some (visibilities [5; 6]); None]])
    = Ok st'
    /\ model_buffers_ st'
       = drop m [[Some (visibilities [1; 2]); Some (visibilities [3; 4])];
                 [Some (visibilities [5; 6]); None]].
Proof.
  assert (Hex : exists st',
    ProcessCompleteDirections (E := world) 0
      (predicting [[Some (visibilities [1; 2]); Some (visibilities [3; 4])];
                   [Some (visibilities [5; 6]); None]])
    = Ok st') by (eexists; vm_compute; reflexivity).
  destruct Hex as [st' Hrun].
  destruct (process_pops_front_rows (E := world) _ _ _ Hrun) as (m & Hm & _).
  exists st', m. split; [exact Hrun | exact Hm].
Defined.

Lemma process_forwards_predicted_sum_witness :
  exists st',
    process (P := predictors) 0 (predicting []) (visibilities [9; 9])
    = Ok (st', true)
    /\ events_ st'
       = [forwarded_sum (visibilities [1; 2], [visibilities [3; 4]])].
Proof.
  destruct (process_forwards_predicted_sum (P := predictors) 0
              (predicting []) (visibilities [9; 9])
              (visibilities [1; 2]) [visibilities [3; 4]]
              eq_refl eq_refl
              ltac:(repeat constructor) eq_refl
              ltac:(repeat constructor) ltac:(repeat constructor))
    as (st' & Hrun & Hev & _).
  exists st'. split; [exact Hrun | exact Hev].
Defined.

Lemma process_pairs_data_with_model_witness :
  exists st',
    process (P := predictors) 1 (ready propagating scalar [] [])
      (visibilities [9; 9])
    = Ok (st', true)
    /\ data_buffers_ st' = []
    /\ model_buffers_ st' = [].
Proof.
  destruct (process_pairs_data_with_model (P := predictors) 0
              (ready propagating scalar [] []) (visibilities [9; 9])
              (visibilities [1; 2]) [] 0
              eq_refl eq_refl eq_refl eq_refl
              ltac:(repeat constructor) eq_refl
              ltac:(repeat constructor) eq_refl)
    as (st' & Hrun & _ & Hd & Hm & _).
  exists st'. split; [exact Hrun |]. split; [exact Hd | exact Hm].
Defined.

End MoreRuns.
